(** * vo-jsonp: the JSONP request lifecycle of [JsonpMixin]

    A shallow embedding of [src/jsonp-mixin.js] and the properties of its
    request lifecycle: configuration checks, query-string construction,
    registration of the global callback, cleanup, abort, and the debounced
    automatic request.

    Conventions.
    - A JavaScript string is the list of its UTF-16 code units.
    - JavaScript objects that the element shares with its caller (the
      [params] object, the request objects) live in stores and are named by
      references, so that mutation in place is visible through every alias.
    - The browser (document head, global object, timers, [Math.random]) is
      part of the state; a method is a function from states to a completion
      and the state it leaves behind, also when it throws.
    - A method acts on one element and the browser.  Of Polymer's property
      system the model keeps the property defaults, the generated setters
      of the readOnly properties and the observer that runs after a change
      of an observed property; [notify] and [reflectToAttribute] are left
      out.
    - The default of [activeRequests] is an array literal, which Polymer
      gives to every element of the class: a document with several elements
      has one such array.  [created] and [reachable] describe a document
      with a single element; [Document] describes any number of them. *)

From Stdlib Require Import ZArith NArith Ascii String Lia.
From stdpp Require Import base option list gmap.

Local Open Scope N_scope.

(** ** JavaScript strings *)

Abbreviation jsstring := (list N).

(** A string literal of the source, as code units. *)
Definition lit (s : string) : jsstring :=
  map N_of_ascii (list_ascii_of_string s).

Definition between (lo hi c : N) : bool := (lo <=? c) && (c <=? hi).

Definition is_digit (c : N) : bool := between 48 57 c.
Definition is_lower (c : N) : bool := between 97 122 c.
Definition is_upper (c : N) : bool := between 65 90 c.

(** [[0-9a-f]] *)
Definition is_hex_lower (c : N) : bool := is_digit c || between 97 102 c.

(** [Number.prototype.toString(16)] on an integer in [0, 15]. *)
Definition hex_lower (v : N) : N := if v <? 10 then 48 + v else 87 + v.

(** The upper-case hexadecimal digit used in percent escapes. *)
Definition hex_upper (v : N) : N := if v <? 10 then 48 + v else 55 + v.

(** [Array.prototype.join]. *)
Fixpoint join (sep : jsstring) (parts : list jsstring) : jsstring :=
  match parts with
  | [] => []
  | [p] => p
  | p :: rest => p ++ sep ++ join sep rest
  end.

(** *** [encodeURIComponent]

    The host function, after ECMAScript's [Encode] with the unreserved set
    of [encodeURIComponent]: letters, digits and [- _ . ! ~ * ' ( )] are
    kept, every other code point is written as the percent escapes of its
    UTF-8 bytes, and a surrogate that is not part of a pair raises
    [URIError] (here [None]). *)

Definition uri_unreserved (c : N) : bool :=
  is_lower c || is_upper c || is_digit c ||
  bool_decide (c ∈ [45; 95; 46; 33; 126; 42; 39; 40; 41]).

Definition utf8 (cp : N) : list N :=
  if cp <? 128 then [cp]
  else if cp <? 2048 then
    [N.lor 192 (N.shiftr cp 6); N.lor 128 (N.land cp 63)]
  else if cp <? 65536 then
    [N.lor 224 (N.shiftr cp 12);
     N.lor 128 (N.land (N.shiftr cp 6) 63);
     N.lor 128 (N.land cp 63)]
  else
    [N.lor 240 (N.shiftr cp 18);
     N.lor 128 (N.land (N.shiftr cp 12) 63);
     N.lor 128 (N.land (N.shiftr cp 6) 63);
     N.lor 128 (N.land cp 63)].

Definition percent (b : N) : jsstring :=
  [37; hex_upper (b / 16); hex_upper (b mod 16)].

Definition escape (cp : N) : jsstring := concat (map percent (utf8 cp)).

Definition is_lead (c : N) : bool := between 55296 56319 c.
Definition is_trail (c : N) : bool := between 56320 57343 c.

Fixpoint encodeURIComponent (s : jsstring) : option jsstring :=
  match s with
  | [] => Some []
  | c :: rest =>
      if uri_unreserved c then cons c <$> encodeURIComponent rest
      else if is_trail c then None
      else if is_lead c then
        match rest with
        | c2 :: rest2 =>
            if is_trail c2 then
              app (escape ((c - 55296) * 1024 + (c2 - 56320) + 65536))
                <$> encodeURIComponent rest2
            else None
        | [] => None
        end
      else app (escape c) <$> encodeURIComponent rest
  end.

(** ** Ordinary objects used as string maps

    The [params] object, an ordinary object whose prototype is
    [Object.prototype] (an object literal, or what [JSON.parse] returns):
    its own enumerable string-keyed properties in creation order, each
    value as the string that [ToString] gives it.  Assignment to an
    existing key keeps its position; assignment to a new key appends,
    except for the one accessor that [Object.prototype] has. *)

Abbreviation JSObject := (list (jsstring * jsstring)).

Fixpoint obj_get (k : jsstring) (o : JSObject) : option jsstring :=
  match o with
  | [] => None
  | (k', v) :: rest => if decide (k' = k) then Some v else obj_get k rest
  end.

(** [o[k] = v], for a string [v].  An own property is updated.  A key
    that is not an own property is looked up along the prototype chain:
    [__proto__] finds the accessor of [Object.prototype], whose setter
    returns without effect when the value is not an object or [null], so
    nothing is written; for every other key a new own property is
    created (the inherited properties of [Object.prototype] other than
    [__proto__] are writable data properties). *)
Fixpoint obj_set (k v : jsstring) (o : JSObject) : JSObject :=
  match o with
  | [] => if decide (k = lit "__proto__") then [] else [(k, v)]
  | (k', v') :: rest =>
      if decide (k' = k) then (k, v) :: rest else (k', v') :: obj_set k v rest
  end.

(** The assignment [o[k] = v] writes an own property of [o]. *)
Definition settable (k : jsstring) (o : JSObject) : Prop :=
  k ≠ lit "__proto__" ∨ is_Some (obj_get k o).

(** The value of a canonical array index ("0", "7", "42", ... below
    [2^32 - 1]); such keys are enumerated first, in ascending order. *)
Definition digits_value (s : jsstring) : N :=
  fold_left (fun acc c => acc * 10 + (c - 48)) s 0.

Definition array_index (k : jsstring) : option N :=
  match k with
  | [] => None
  | c :: rest =>
      if forallb is_digit k
         && (negb (c =? 48) || bool_decide (rest = []))
         && (digits_value k <? 4294967295)
      then Some (digits_value k) else None
  end.

Fixpoint insert_index (e : N * jsstring) (l : list (N * jsstring))
  : list (N * jsstring) :=
  match l with
  | [] => [e]
  | e' :: rest =>
      if fst e <=? fst e' then e :: l else e' :: insert_index e rest
  end.

Definition sort_index (l : list (N * jsstring)) : list (N * jsstring) :=
  foldr insert_index [] l.

(** [Object.keys(o)] *)
Definition obj_keys (o : JSObject) : list jsstring :=
  let ks := map fst o in
  map snd (sort_index
             (omap (fun k => (fun i => (i, k)) <$> array_index k) ks))
  ++ filter (fun k => array_index k = None) ks.

(** ** Data model *)

(** A decoded JSONP payload. *)
#[warnings="-register-all"]
Inductive JSON :=
| JNull
| JBool (b : bool)
| JNumber (z : Z)
| JString (s : jsstring)
| JArray (l : list JSON)
| JObject (l : list (jsstring * JSON)).

(** A [load] or [error] event that the browser fires on a script element;
    the script is named by the request that owns it. *)
Record DomEvent := { dom_type : string; dom_target : nat }.

(** The [detail] of a dispatched [CustomEvent]. *)
Inductive Detail :=
| DNull
| DRequest (r : nat)
| DJson (d : JSON)
| DEvent (e : DomEvent).

(** The [detail] member of a DOM event, read when the event is used as
    the init dictionary of a [CustomEvent]: a plain [Event] has none. *)
Definition dom_detail (event : DomEvent) : option Detail := None.

Record CustomEvent := { ce_type : string; ce_detail : Detail }.

(** [new CustomEvent(type, init)]: [detail] is the [detail] member of the
    init dictionary, [null] when there is none. *)
Definition new_CustomEvent (type : string) (init : option Detail)
  : CustomEvent :=
  {| ce_type := type; ce_detail := default DNull init |}.

(** The snapshot returned by [_requestOptions]. *)
Module Options.
Record t := {
  cache : bool;
  callbackKey : option jsstring;
  callbackValue : jsstring;
  sync : bool;
  url : jsstring
}.
End Options.

Module Script.
Record t := { src : jsstring; async : bool }.
End Script.

(** The [Request] typedef.  [options] and [script] are absent until
    [generateRequest] assigns them. *)
Module Request.
Record t := {
  loading : bool;
  options : option Options.t;
  script : option Script.t
}.
Definition set_loading (v : bool) (x : t) : t :=
  {| loading := v; options := options x; script := script x |}.
Definition set_options (v : option Options.t) (x : t) : t :=
  {| loading := loading x; options := v; script := script x |}.
Definition set_script (v : option Script.t) (x : t) : t :=
  {| loading := loading x; options := options x; script := v |}.
End Request.

(** The non-readOnly properties.  [callbackKey] may be [undefined]
    ([None]); [params] is a reference into the object store, or
    [undefined]. *)
Record Config := {
  auto : bool;
  cache : bool;
  callbackKey : option jsstring;
  callbackValue : jsstring;
  debounceDuration : Z;
  params : option nat;
  sync : bool;
  url : jsstring
}.

(** The element: its configuration, its readOnly properties and the
    debouncer it keeps in [_debounceJob] ([None] while [undefined],
    [Some t] for the Debouncer object with [_timer = t]). *)
Record Element := {
  config : Config;
  activeRequests : list nat;
  lastAborted : bool;
  lastError : option DomEvent;
  lastLoad : option DomEvent;
  lastRequest : option nat;
  lastResponse : option JSON;
  loading : bool;
  _debounceJob : option (option nat)
}.

(** The browser: the stores of request and [params] objects, the global
    object restricted to the callbacks the element registers (a name is
    bound to [_handleResponse.bind(this, r)] for a request [r]), the script
    elements that are children of [head], the events dispatched so far,
    the pending [setTimeout] timers with their due times, the clock in
    milliseconds, and [Math.random] as the stream of the integers
    [Math.random() * 16 | 0] with the number of values drawn so far. *)
Record Host := {
  requests : gmap nat Request.t;
  next_request : nat;
  objects : gmap nat JSObject;
  next_object : nat;
  window : gmap jsstring nat;
  head : list nat;
  dispatched : list CustomEvent;
  timers : list (nat * Z);
  next_timer : nat;
  now : Z;
  draws : nat;
  random : nat -> Z
}.

Record State := { this : Element; host : Host }.

Definition set_config (v : Config) (x : Element) : Element :=
  {| config := v; activeRequests := activeRequests x;
     lastAborted := lastAborted x; lastError := lastError x;
     lastLoad := lastLoad x; lastRequest := lastRequest x;
     lastResponse := lastResponse x; loading := loading x;
     _debounceJob := _debounceJob x |}.
Definition set_activeRequests (v : list nat) (x : Element) : Element :=
  {| config := config x; activeRequests := v; lastAborted := lastAborted x;
     lastError := lastError x; lastLoad := lastLoad x;
     lastRequest := lastRequest x; lastResponse := lastResponse x;
     loading := loading x; _debounceJob := _debounceJob x |}.
Definition set_lastAborted (v : bool) (x : Element) : Element :=
  {| config := config x; activeRequests := activeRequests x; lastAborted := v;
     lastError := lastError x; lastLoad := lastLoad x;
     lastRequest := lastRequest x; lastResponse := lastResponse x;
     loading := loading x; _debounceJob := _debounceJob x |}.
Definition set_lastError (v : option DomEvent) (x : Element) : Element :=
  {| config := config x; activeRequests := activeRequests x;
     lastAborted := lastAborted x; lastError := v; lastLoad := lastLoad x;
     lastRequest := lastRequest x; lastResponse := lastResponse x;
     loading := loading x; _debounceJob := _debounceJob x |}.
Definition set_lastLoad (v : option DomEvent) (x : Element) : Element :=
  {| config := config x; activeRequests := activeRequests x;
     lastAborted := lastAborted x; lastError := lastError x; lastLoad := v;
     lastRequest := lastRequest x; lastResponse := lastResponse x;
     loading := loading x; _debounceJob := _debounceJob x |}.
Definition set_lastRequest (v : option nat) (x : Element) : Element :=
  {| config := config x; activeRequests := activeRequests x;
     lastAborted := lastAborted x; lastError := lastError x;
     lastLoad := lastLoad x; lastRequest := v; lastResponse := lastResponse x;
     loading := loading x; _debounceJob := _debounceJob x |}.
Definition set_lastResponse (v : option JSON) (x : Element) : Element :=
  {| config := config x; activeRequests := activeRequests x;
     lastAborted := lastAborted x; lastError := lastError x;
     lastLoad := lastLoad x; lastRequest := lastRequest x; lastResponse := v;
     loading := loading x; _debounceJob := _debounceJob x |}.
Definition set_loading (v : bool) (x : Element) : Element :=
  {| config := config x; activeRequests := activeRequests x;
     lastAborted := lastAborted x; lastError := lastError x;
     lastLoad := lastLoad x; lastRequest := lastRequest x;
     lastResponse := lastResponse x; loading := v;
     _debounceJob := _debounceJob x |}.
Definition set_debounceJob (v : option (option nat)) (x : Element) : Element :=
  {| config := config x; activeRequests := activeRequests x;
     lastAborted := lastAborted x; lastError := lastError x;
     lastLoad := lastLoad x; lastRequest := lastRequest x;
     lastResponse := lastResponse x; loading := loading x; _debounceJob := v |}.

Definition set_requests (v : gmap nat Request.t) (x : Host) : Host :=
  {| requests := v; next_request := next_request x; objects := objects x;
     next_object := next_object x; window := window x; head := head x;
     dispatched := dispatched x; timers := timers x;
     next_timer := next_timer x; now := now x; draws := draws x;
     random := random x |}.
Definition set_next_request (v : nat) (x : Host) : Host :=
  {| requests := requests x; next_request := v; objects := objects x;
     next_object := next_object x; window := window x; head := head x;
     dispatched := dispatched x; timers := timers x;
     next_timer := next_timer x; now := now x; draws := draws x;
     random := random x |}.
Definition set_objects (v : gmap nat JSObject) (x : Host) : Host :=
  {| requests := requests x; next_request := next_request x; objects := v;
     next_object := next_object x; window := window x; head := head x;
     dispatched := dispatched x; timers := timers x;
     next_timer := next_timer x; now := now x; draws := draws x;
     random := random x |}.
Definition set_next_object (v : nat) (x : Host) : Host :=
  {| requests := requests x; next_request := next_request x;
     objects := objects x; next_object := v; window := window x;
     head := head x; dispatched := dispatched x; timers := timers x;
     next_timer := next_timer x; now := now x; draws := draws x;
     random := random x |}.
Definition set_window (v : gmap jsstring nat) (x : Host) : Host :=
  {| requests := requests x; next_request := next_request x;
     objects := objects x; next_object := next_object x; window := v;
     head := head x; dispatched := dispatched x; timers := timers x;
     next_timer := next_timer x; now := now x; draws := draws x;
     random := random x |}.
Definition set_head (v : list nat) (x : Host) : Host :=
  {| requests := requests x; next_request := next_request x;
     objects := objects x; next_object := next_object x; window := window x;
     head := v; dispatched := dispatched x; timers := timers x;
     next_timer := next_timer x; now := now x; draws := draws x;
     random := random x |}.
Definition set_dispatched (v : list CustomEvent) (x : Host) : Host :=
  {| requests := requests x; next_request := next_request x;
     objects := objects x; next_object := next_object x; window := window x;
     head := head x; dispatched := v; timers := timers x;
     next_timer := next_timer x; now := now x; draws := draws x;
     random := random x |}.
Definition set_timers (v : list (nat * Z)) (x : Host) : Host :=
  {| requests := requests x; next_request := next_request x;
     objects := objects x; next_object := next_object x; window := window x;
     head := head x; dispatched := dispatched x; timers := v;
     next_timer := next_timer x; now := now x; draws := draws x;
     random := random x |}.
Definition set_next_timer (v : nat) (x : Host) : Host :=
  {| requests := requests x; next_request := next_request x;
     objects := objects x; next_object := next_object x; window := window x;
     head := head x; dispatched := dispatched x; timers := timers x;
     next_timer := v; now := now x; draws := draws x; random := random x |}.
Definition set_now (v : Z) (x : Host) : Host :=
  {| requests := requests x; next_request := next_request x;
     objects := objects x; next_object := next_object x; window := window x;
     head := head x; dispatched := dispatched x; timers := timers x;
     next_timer := next_timer x; now := v; draws := draws x;
     random := random x |}.
Definition set_draws (v : nat) (x : Host) : Host :=
  {| requests := requests x; next_request := next_request x;
     objects := objects x; next_object := next_object x; window := window x;
     head := head x; dispatched := dispatched x; timers := timers x;
     next_timer := next_timer x; now := now x; draws := v;
     random := random x |}.

Definition on_this (f : Element -> Element) (s : State) : State :=
  {| this := f (this s); host := host s |}.
Definition on_host (f : Host -> Host) (s : State) : State :=
  {| this := this s; host := f (host s) |}.

(** ** Methods as state transformers that may throw *)

Inductive Error :=
| Error_callback_value
    (* Error('`callback-value` must be declared or `callbackValue` set
       when `cache` is true.') *)
| Error_url
    (* Error('`url` must be declared or set in order to perform a
       request.') *)
| URIError
| TypeError.

Inductive completion (A : Type) :=
| Normal (a : A)
| Throw (e : Error).
Arguments Normal {A} a.
Arguments Throw {A} e.

Definition M (A : Type) : Type := State -> completion A * State.

Definition ret {A} (a : A) : M A := fun s => (Normal a, s).

Definition bind {A B} (m : M A) (k : A -> M B) : M B :=
  fun s =>
    match m s with
    | (Normal a, s') => k a s'
    | (Throw e, s') => (Throw e, s')
    end.

Definition throw {A} (e : Error) : M A := fun s => (Throw e, s).

(** [try { m } catch (error) { h }] *)
Definition try_catch {A} (m : M A) (h : Error -> M A) : M A :=
  fun s =>
    match m s with
    | (Normal a, s') => (Normal a, s')
    | (Throw e, s') => h e s'
    end.

Definition gets {A} (f : State -> A) : M A := fun s => (Normal (f s), s).
Definition modify (f : State -> State) : M unit :=
  fun s => (Normal tt, f s).

Declare Scope js_scope.
Delimit Scope js_scope with js.
Notation "x <- m ;; k" := (bind m (fun x => k))
  (at level 20, m at level 99, k at level 200, only parsing) : js_scope.
Notation "m ;; k" := (bind m (fun _ => k))
  (at level 100, k at level 200, only parsing, right associativity)
  : js_scope.
Local Open Scope js_scope.

(** Reading a property of [this]. *)
Definition prop {A} (f : Config -> A) : M A :=
  gets (fun s => f (config (this s))).

(** The generated setters of the readOnly properties. *)
Definition _setLoading (v : bool) : M unit :=
  modify (on_this (set_loading v)).
Definition _setLastAborted (v : bool) : M unit :=
  modify (on_this (set_lastAborted v)).
Definition _setLastRequest (r : nat) : M unit :=
  modify (on_this (set_lastRequest (Some r))).
Definition _setLastResponse (d : option JSON) : M unit :=
  modify (on_this (set_lastResponse d)).
Definition _setLastError (e : option DomEvent) : M unit :=
  modify (on_this (set_lastError e)).
Definition _setLastLoad (e : DomEvent) : M unit :=
  modify (on_this (set_lastLoad (Some e))).

(** [this.dispatchEvent(event, ...)]: [EventTarget.dispatchEvent] takes the
    event only; further arguments of the call are evaluated and dropped. *)
Definition dispatchEvent (event : CustomEvent) (_ : list Detail) : M unit :=
  modify (on_host (fun h => set_dispatched (dispatched h ++ [event]) h)).

(** *** [_newGuid] *)

Definition guid_template : jsstring :=
  lit "xxxxxxxx-xxxx-4xxx-yxxx-xxxxxxxxxxxx".

(** The replacement function of [_newGuid], given the value of
    [Math.random() * 16 | 0]. *)
Definition guid_digit (char : N) (randomNum : Z) : N :=
  let value :=
    if char =? 120 then randomNum
    else Z.lor (Z.land randomNum 3) 8 in
  hex_lower (Z.to_N value).

(** [template.replace(/[xy]/g, ...)], drawing the [n]-th and following
    random values; returns the string and the next position. *)
Fixpoint replace_xy (rnd : nat -> Z) (n : nat) (tpl : jsstring)
  : jsstring * nat :=
  match tpl with
  | [] => ([], n)
  | c :: rest =>
      if (c =? 120) || (c =? 121) then
        let d := guid_digit c (rnd n mod 16)%Z in
        let '(g, n') := replace_xy rnd (S n) rest in
        (d :: g, n')
      else
        let '(g, n') := replace_xy rnd n rest in
        (c :: g, n')
  end.

(** [guid.replace(/-/g, '')] *)
Definition remove_dashes (g : jsstring) : jsstring :=
  filter (fun c => c ≠ 45) g.

Definition _newGuid (noDashes : bool) : M jsstring :=
  fun s =>
    let '(guid, n) :=
      replace_xy (random (host s)) (draws (host s)) guid_template in
    (Normal (if noDashes then remove_dashes guid else guid),
     on_host (set_draws n) s).

Local Close Scope N_scope.

(** *** Query string and request options *)

(** [this.params || {}]: the configured object, or a fresh empty one that
    nothing else refers to. *)
Definition params_object (s : State) : JSObject :=
  match params (config (this s)) with
  | Some l => default [] (objects (host s) !! l)
  | None => []
  end.

(** Assignment to a property of that object. *)
Definition write_params (o : JSObject) (s : State) : State :=
  match params (config (this s)) with
  | Some l => on_host (fun h => set_objects (<[l := o]> (objects h)) h) s
  | None => s
  end.

(** The property name that [params[this.callbackKey]] assigns to, when the
    guard [this.callbackKey === undefined || this.callbackKey] passes. *)
Definition callback_param (callbackKey : option jsstring)
  : option jsstring :=
  match callbackKey with
  | None => Some (lit "undefined")
  | Some [] => None
  | Some k => Some k
  end.

(** [key + '=' + encodeURIComponent(params[key])] *)
Definition query_part (o : JSObject) (key : jsstring) : option jsstring :=
  (fun e => key ++ lit "=" ++ e)
    <$> encodeURIComponent (default (lit "undefined") (obj_get key o)).

(** The [reduce] over [Object.keys(params)]. *)
Definition query_parts (o : JSObject) : option (list jsstring) :=
  mapM (query_part o) (obj_keys o).

(** The getter [_queryString].  The local [params] is threaded through
    as [o]; each assignment is also written to the configured object. *)
Definition _queryString : M jsstring :=
  o <- gets params_object ;;
  callbackKey <- prop callbackKey ;;
  callbackValue <- prop callbackValue ;;
  o <- match callback_param callbackKey with
       | Some k =>
           let o' := obj_set k callbackValue o in
           modify (write_params o') ;; ret o'
       | None => ret o
       end ;;
  cache <- prop cache ;;
  o <- (if negb cache then
          guid <- _newGuid true ;;
          let o' := obj_set (lit "_") guid o in
          modify (write_params o') ;; ret o'
        else ret o) ;;
  match query_parts o with
  | Some arr => ret (join (lit "&") arr)
  | None => throw URIError
  end.

(** The getter [_requestUrl]. *)
Definition _requestUrl : M jsstring :=
  queryString <- _queryString ;;
  url <- prop url ;;
  ret (match queryString with
       | [] => url
       | _ => url ++ lit "?" ++ queryString
       end).

(** The getter [_requestOptions]. *)
Definition _requestOptions : M Options.t :=
  cache <- prop cache ;;
  callbackKey <- prop callbackKey ;;
  callbackValue <- prop callbackValue ;;
  sync <- prop sync ;;
  url <- _requestUrl ;;
  ret {| Options.cache := cache; Options.callbackKey := callbackKey;
         Options.callbackValue := callbackValue; Options.sync := sync;
         Options.url := url |}.

(** *** Requests in the store, the document and the global object *)

(** [let request = {}; request.loading = true;] *)
Definition new_request : M nat :=
  fun s =>
    let r := next_request (host s) in
    let q := {| Request.loading := true; Request.options := None;
                Request.script := None |} in
    (Normal r,
     on_host (fun h => set_next_request (S r)
                         (set_requests (<[r := q]> (requests h)) h)) s).

(** Assignment to a field of the request object [r]. *)
Definition update_request (r : nat) (f : Request.t -> Request.t) : M unit :=
  modify (on_host (fun h => set_requests (alter f r (requests h)) h)).

Definition update_script (f : Script.t -> Script.t) (q : Request.t)
  : Request.t :=
  Request.set_script (f <$> Request.script q) q.

(** [activeRequest.loading], [undefined] being falsy. *)
Definition request_loading (h : Host) (r : nat) : bool :=
  match requests h !! r with
  | Some q => Request.loading q
  | None => false
  end.

(** [document.createElement('script')] *)
Definition createElement_script : Script.t :=
  {| Script.src := []; Script.async := true |}.

(** [document.querySelector('head').appendChild(request.script)], for the
    newly created script of [r]. *)
Definition appendChild (r : nat) : M unit :=
  modify (on_host (fun h => set_head (head h ++ [r]) h)).

(** [request.script.parentNode.removeChild(request.script)]: a
    [TypeError] when [request.script] is [undefined] or the script has no
    parent. *)
Definition removeChild_script (r : nat) : M unit :=
  h <- gets host ;;
  match requests h !! r with
  | Some {| Request.script := Some _ |} =>
      if bool_decide (r ∈ head h) then
        modify (on_host (set_head (filter (fun x => x ≠ r) (head h))))
      else throw TypeError
  | _ => throw TypeError
  end.

(** [Array.prototype.indexOf] on the active requests; [request] may be
    [undefined], which no element of the array equals. *)
Fixpoint index_from (r : nat) (l : list nat) (i : Z) : Z :=
  match l with
  | [] => (-1)%Z
  | x :: rest => if decide (x = r) then i else index_from r rest (i + 1)%Z
  end.

Definition indexOf (l : list nat) (request : option nat) : Z :=
  match request with
  | Some r => index_from r l 0%Z
  | None => (-1)%Z
  end.

(** [/^vo_jsonp_callback_[0-9a-f]{32}$/.test(value)] *)
Definition callback_regex_test (value : jsstring) : bool :=
  let prefix := lit "vo_jsonp_callback_" in
  bool_decide (take (length prefix) value = prefix)
  && forallb is_hex_lower (drop (length prefix) value)
  && bool_decide (length (drop (length prefix) value) = 32).

Definition is_empty (v : jsstring) : bool :=
  match v with [] => true | _ => false end.

(** *** [generateRequest] *)

Definition generateRequest : M nat :=
  cache <- prop cache ;;
  callbackValue <- prop callbackValue ;;
  if cache && (callback_regex_test callbackValue || is_empty callbackValue)
  then throw Error_callback_value
  else
  url <- prop url ;;
  if is_empty url then throw Error_url
  else
  request <- new_request ;;
  _setLoading true ;;
  _setLastAborted false ;;
  _setLastRequest request ;;
  modify (on_this (fun e => set_activeRequests (activeRequests e ++ [request]) e)) ;;
  options <- _requestOptions ;;
  update_request request (Request.set_options (Some options)) ;;
  update_request request (Request.set_script (Some createElement_script)) ;;
  src <- _requestUrl ;;
  update_request request
    (update_script (fun x => {| Script.src := src;
                                Script.async := Script.async x |})) ;;
  sync <- prop sync ;;
  update_request request
    (update_script (fun x => {| Script.src := Script.src x;
                                Script.async := if sync then false else true |})) ;;
  (* onload and onerror are bound to [request] *)
  modify (on_host (fun h =>
            set_window (<[callbackValue := request]> (window h)) h)) ;;
  appendChild request ;;
  dispatchEvent (new_CustomEvent "sent" None) [DRequest request] ;;
  ret request.

(** *** Cleanup, discard and abort *)

Definition _cleanupRequest (request : option nat) : M unit :=
  active <- gets (fun s => activeRequests (this s)) ;;
  let requestIndex := indexOf active request in
  if (0 <=? requestIndex)%Z then
    match active !! Z.to_nat requestIndex, request with
    | Some target, Some r =>
        update_request target (Request.set_loading false) ;;
        h <- gets host ;;
        let loadingRequests :=
          filter (fun x => request_loading h x = true) active in
        (if bool_decide (length loadingRequests = 0)
         then _setLoading false else ret tt) ;;
        modify (on_this (set_activeRequests
                           (delete (Z.to_nat requestIndex) active))) ;;
        callbackValue <- prop callbackValue ;;
        modify (on_host (fun h =>
                  set_window (delete callbackValue (window h)) h)) ;;
        removeChild_script r
    | _, _ => throw TypeError
    end
  else ret tt.

Definition _discardRequest (request : nat) : M unit :=
  _cleanupRequest (Some request) ;;
  dispatchEvent (new_CustomEvent "complete" None) [DRequest request].

Definition abortRequest (request : option nat) : M unit :=
  active <- gets (fun s => activeRequests (this s)) ;;
  let request :=
    match request with
    | None =>
        if bool_decide (length active ≠ 0)
        then active !! (length active - 1) else None
    | Some r => Some r
    end in
  (if bool_decide (is_Some request)
      && bool_decide (indexOf active request = (Z.of_nat (length active) - 1)%Z)
   then _setLastAborted true else ret tt) ;;
  _cleanupRequest request.

(** *** Handlers *)

Definition _handleResponse (request : nat) (data : JSON) : M unit :=
  _setLastResponse (Some data) ;;
  _setLastError None ;;
  dispatchEvent (new_CustomEvent "response" None) [DJson data] ;;
  _discardRequest request.

Definition _handleError (request : nat) (event : DomEvent) : M unit :=
  _setLastResponse None ;;
  _setLastError (Some event) ;;
  dispatchEvent (new_CustomEvent "error" None) [DEvent event] ;;
  _discardRequest request.

(** [new CustomEvent('load', event)] takes the DOM event as its init
    dictionary. *)
Definition _handleLoad (request : nat) (event : DomEvent) : M unit :=
  _setLastLoad event ;;
  dispatchEvent (new_CustomEvent "load" (dom_detail event)) [].

(** *** The debounced automatic request *)

(** [window.setTimeout(callback, delay)]; a negative delay counts as 0.
    Every timer the element sets has the same callback (below), so a
    pending timer is its handle and its due time. *)
Definition setTimeout (delay : Z) : M nat :=
  fun s =>
    let h := host s in
    let handle := next_timer h in
    (Normal handle,
     on_host (fun h => set_next_timer (S handle)
                (set_timers (timers h ++ [(handle, now h + Z.max 0 delay)%Z])
                   h)) s).

(** [window.clearTimeout(handle)] *)
Definition clearTimeout (handle : nat) : M unit :=
  modify (on_host (fun h =>
            set_timers (filter (fun t => t.1 ≠ handle) (timers h)) h)).

(** Modelled from the spec: [Polymer.Debouncer.debounce] with
    [Polymer.Async.timeOut.after], which belong to the Polymer library and
    are not among the sources.  "Each configuration change cancels and
    restarts the timer": the timer of an active debouncer is cleared, a new
    timer of [delay] milliseconds is set, and the debouncer is returned
    holding it. *)
Definition Debouncer_debounce (debouncer : option (option nat)) (delay : Z)
  : M (option (option nat)) :=
  match debouncer with
  | Some (Some timer) => clearTimeout timer
  | _ => ret tt
  end ;;
  timer <- setTimeout delay ;;
  ret (Some (Some timer)).

(** The arrow function passed to the debouncer. *)
Definition debounce_callback : M unit :=
  auto <- prop auto ;;
  if auto then
    try_catch (generateRequest ;; ret tt) (fun _ => ret tt)
  else ret tt.

Definition _requestOptionsChanged : M unit :=
  job <- gets (fun s => _debounceJob (this s)) ;;
  debounceDuration <- prop debounceDuration ;;
  job <- Debouncer_debounce job debounceDuration ;;
  modify (on_this (set_debounceJob job)).

(** A pending timer comes due: it leaves the queue, the debouncer forgets
    it ([this._timer = null]) and the callback runs.  A timer that is not
    pending or not yet due does not fire. *)
Definition is_due (h : Host) (handle : nat) : bool :=
  existsb (fun t => bool_decide (t.1 = handle) && (t.2 <=? now h)%Z)
    (timers h).

Definition timer_fires (handle : nat) : M unit :=
  h <- gets host ;;
  if is_due h handle then
    clearTimeout handle ;;
    modify (on_this (set_debounceJob (Some None))) ;;
    debounce_callback
  else ret tt.

(** ** The element seen from outside *)

(** Assignments to the observed properties. *)
Inductive Property :=
| P_auto (v : bool)
| P_cache (v : bool)
| P_callbackKey (v : option jsstring)
| P_callbackValue (v : jsstring)
| P_debounceDuration (v : Z)
| P_params (v : option JSObject)
| P_sync (v : bool)
| P_url (v : jsstring).

Definition assign_config (p : Property) (fresh : nat) (c : Config)
  : Config :=
  {| auto := match p with P_auto v => v | _ => auto c end;
     cache := match p with P_cache v => v | _ => cache c end;
     callbackKey :=
       match p with P_callbackKey v => v | _ => callbackKey c end;
     callbackValue :=
       match p with P_callbackValue v => v | _ => callbackValue c end;
     debounceDuration :=
       match p with P_debounceDuration v => v | _ => debounceDuration c end;
     params :=
       match p with
       | P_params (Some _) => Some fresh
       | P_params None => None
       | _ => params c
       end;
     sync := match p with P_sync v => v | _ => sync c end;
     url := match p with P_url v => v | _ => url c end |}.

(** [this.prop = v].  A [params] object given by the caller is a new
    object of the store. *)
Definition assign (p : Property) : M unit :=
  fresh <- gets (fun s => next_object (host s)) ;;
  match p with
  | P_params (Some o) =>
      modify (on_host (fun h => set_next_object (S fresh)
                                  (set_objects (<[fresh := o]> (objects h)) h)))
  | _ => ret tt
  end ;;
  modify (on_this (fun e => set_config (assign_config p fresh (config e)) e)).

(** What can happen to an element: its caller changes a property (the
    observer then runs), calls [generateRequest] or [abortRequest]; a
    loaded script calls the global function [name]; the browser fires
    [load] or [error] on the script of a request; time passes; a timer
    comes due. *)
Inductive Action :=
| Change (p : Property)
| Generate
| Abort (request : option nat)
| Callback (name : jsstring) (data : JSON)
| Load (request : nat) (event : DomEvent)
| Failure (request : nat) (event : DomEvent)
| Tick (ms : N)
| Timer (handle : nat).

Definition has_script (h : Host) (r : nat) : bool :=
  match requests h !! r with
  | Some {| Request.script := Some _ |} => true
  | _ => false
  end.

Definition perform (a : Action) : M unit :=
  match a with
  | Change p => assign p ;; _requestOptionsChanged
  | Generate => generateRequest ;; ret tt
  | Abort request => abortRequest request
  | Callback name data =>
      w <- gets (fun s => window (host s)) ;;
      match w !! name with
      | Some r => _handleResponse r data
      | None => ret tt
      end
  | Load r event =>
      h <- gets host ;;
      if has_script h r then _handleLoad r event else ret tt
  | Failure r event =>
      h <- gets host ;;
      if has_script h r then _handleError r event else ret tt
  | Tick ms => modify (on_host (fun h => set_now (now h + Z.of_N ms)%Z h))
  | Timer handle => timer_fires handle
  end.

(** The state after an action, whether it returned or threw. *)
Definition step (s : State) (a : Action) : State := (perform a s).2.

Definition run (s : State) (l : list Action) : State := fold_left step l s.

(** The property defaults of a new element, before [callbackValue] is
    computed.  The default of [params] is declared as a function, so each
    element gets an object of its own, [fresh].  The default of
    [activeRequests] is declared as the array literal [[]]: every element
    of the class is given that one array, so a new element starts with
    what the array holds by then, [active]. *)
Definition defaults (active : list nat) (fresh : nat) : Element :=
  {| config :=
       {| auto := false; cache := false;
          callbackKey := Some (lit "callback"); callbackValue := [];
          debounceDuration := 0; params := Some fresh; sync := false;
          url := [] |};
     activeRequests := active; lastAborted := false; lastError := None;
     lastLoad := None; lastRequest := None; lastResponse := None;
     loading := false; _debounceJob := None |}.

(** A browser in which nothing has happened yet. *)
Definition pristine (rnd : nat -> Z) : Host :=
  {| requests := ∅; next_request := 0; objects := ∅; next_object := 0;
     window := ∅; head := []; dispatched := []; timers := [];
     next_timer := 0; now := 0; draws := 0; random := rnd |}.

(** A new element with its defaults, its [params] object being a new
    object of the browser [h]. *)
Definition fresh_element (active : list nat) (h : Host) : State :=
  {| this := defaults active (next_object h);
     host := set_next_object (S (next_object h))
               (set_objects (<[next_object h := []]> (objects h)) h) |}.

(** The first element of a document: the array of active requests is
    still empty. *)
Definition blank (rnd : nat -> Z) : State := fresh_element [] (pristine rnd).

(** What follows the defaults when an element is created: [callbackValue]
    takes its default ['vo_jsonp_callback_' + this._newGuid(true)], and the
    observer runs once on the initial property values. *)
Definition initialise : M unit :=
  guid <- _newGuid true ;;
  assign (P_callbackValue (lit "vo_jsonp_callback_" ++ guid)) ;;
  _requestOptionsChanged.

(** The document with one new element. *)
Definition created (rnd : nat -> Z) : State := (initialise (blank rnd)).2.

(** The states of an element that is the only one in its document. *)
Inductive reachable : State -> Prop :=
| reachable_created rnd : reachable (created rnd)
| reachable_step s a : reachable s -> reachable (step s a).

(** ** Several elements in one document

    The elements of a document have one [activeRequests] array between
    them: the property is readOnly and the code never calls its setter, so
    the field of every element refers to the array of the declaration for
    good, and [push] and [splice] by one element are seen by all.  The
    request objects, the global object, the document head, the timers, the
    clock and [Math.random] belong to the browser.  An element's own are
    its other properties, its debouncer and the events dispatched on it. *)

Record Member := { element : Element; events : list CustomEvent }.

(** [array] is what the shared array holds; the [activeRequests] field
    and the [dispatched] field kept inside [members] and [browser] are not
    read.  [issuer] names, for each request object, the element whose
    [generateRequest] created it: [onload], [onerror] and the global
    callback of the request are bound to that element. *)
Record Document := {
  members : list Member;
  array : list nat;
  browser : Host;
  issuer : gmap nat nat
}.

(** What element [i] and its methods see. *)
Definition view (d : Document) (i : nat) : option State :=
  m ← members d !! i;
  Some {| this := set_activeRequests (array d) (element m);
          host := set_dispatched (events m) (browser d) |}.

(** The document once element [i] has come to state [s]. *)
Definition leave (i : nat) (s : State) (issuer' : gmap nat nat)
    (d : Document) : Document :=
  {| members :=
       <[i := {| element := this s; events := dispatched (host s) |}]>
         (members d);
     array := activeRequests (this s);
     browser := host s;
     issuer := issuer' |}.

(** A request object created between [s] and [s'] was created by [i]. *)
Definition issued_by (i : nat) (s s' : State) (m : gmap nat nat)
  : gmap nat nat :=
  if decide (next_request (host s') = next_request (host s)) then m
  else <[next_request (host s) := i]> m.

(** Whether action [a] can happen on element [i].  A property change and
    a method call reach the element they are made on.  The browser calls
    a global callback, [onload] and [onerror] on the element that they
    were bound to, and a timer runs the callback of the debouncer that
    holds it. *)
Definition bound (d : Document) (i : nat) (a : Action) : bool :=
  match a with
  | Callback name _ =>
      match window (browser d) !! name with
      | Some r => bool_decide (issuer d !! r = Some i)
      | None => true
      end
  | Load r _ | Failure r _ => bool_decide (issuer d !! r = Some i)
  | Timer handle =>
      match members d !! i with
      | Some m => bool_decide (_debounceJob (element m) = Some (Some handle))
      | None => false
      end
  | Change _ | Generate | Abort _ | Tick _ => true
  end.

(** Action [a] on element [i]. *)
Definition act (d : Document) (i : nat) (a : Action) : Document :=
  match view d i with
  | Some s =>
      if bound d i a
      then leave i (step s a) (issued_by i s (step s a) (issuer d)) d
      else d
  | None => d
  end.

(** A document without elements. *)
Definition empty_document (rnd : nat -> Z) : Document :=
  {| members := []; array := []; browser := pristine rnd; issuer := ∅ |}.

(** One more element is created: it starts with the shared array as it
    is. *)
Definition create (d : Document) : Document :=
  let s :=
    (initialise (fresh_element (array d) (set_dispatched [] (browser d)))).2 in
  {| members :=
       members d ++ [ {| element := this s; events := dispatched (host s) |} ];
     array := activeRequests (this s);
     browser := host s;
     issuer := issuer d |}.

(** What can happen in a document. *)
Inductive Occurrence :=
| New_element
| At (i : nat) (a : Action).

Definition occur (d : Document) (o : Occurrence) : Document :=
  match o with
  | New_element => create d
  | At i a => act d i a
  end.

Definition play (d : Document) (l : list Occurrence) : Document :=
  fold_left occur l d.

Inductive reachable_document : Document -> Prop :=
| reachable_empty rnd : reachable_document (empty_document rnd)
| reachable_occur d o :
    reachable_document d -> reachable_document (occur d o).

(** * Vocabulary of the properties

    Pure descriptions of what the methods return and of the states they
    lead to, the invariants of reachable states, and sample inputs. *)

(** ** Tokens and encoding *)

(** Characters of the template: [x], [y], a dash, or a hexadecimal digit. *)
Definition template_char (c : N) : bool :=
  (c =? 120)%N || (c =? 121)%N || (c =? 45)%N || is_hex_lower c.

(** The token that [_newGuid(noDashes)] returns in state [s]. *)
Definition next_guid (noDashes : bool) (s : State) : jsstring :=
  let g := (replace_xy (random (host s)) (draws (host s)) guid_template).1 in
  if noDashes then remove_dashes g else g.

(** A compact token: 32 lower-case hexadecimal digits. *)
Definition is_token (g : jsstring) : Prop :=
  Forall (fun x => is_hex_lower x = true) g ∧ length g = 32.

(** An object renders unless one of its values holds a lone surrogate. *)
Definition encodable (o : JSObject) : Prop :=
  ∀ k v, obj_get k o = Some v → is_Some (encodeURIComponent v).

(** ** The getters *)

(** The local [params] when the getter reaches its [reduce]. *)
Definition query_object (s : State) : JSObject :=
  let c := config (this s) in
  let o := match callback_param (callbackKey c) with
           | Some k => obj_set k (callbackValue c) (params_object s)
           | None => params_object s
           end in
  if cache c then o else obj_set (lit "_") (next_guid true s) o.

(** The object store after the getter. *)
Definition query_store (s : State) : gmap nat JSObject :=
  let c := config (this s) in
  match params c, callback_param (callbackKey c), cache c with
  | None, _, _ | Some _, None, true => objects (host s)
  | Some l, _, _ => <[l := query_object s]> (objects (host s))
  end.

(** The random position after the getter: a token takes 31 draws. *)
Definition query_draws (s : State) : nat :=
  if cache (config (this s)) then draws (host s) else draws (host s) + 31.

(** A state that differs in the object store and the random position. *)
Definition touch (o : gmap nat JSObject) (n : nat) (s : State) : State :=
  on_host (fun h => set_draws n (set_objects o h)) s.

(** What [_queryString] returns in state [s]. *)
Definition query_completion (s : State) : completion jsstring :=
  match query_parts (query_object s) with
  | Some arr => Normal (join (lit "&") arr)
  | None => Throw URIError
  end.

(** [queryString ? this.url + '?' + queryString : this.url] *)
Definition with_query (url : jsstring) (c : completion jsstring)
  : completion jsstring :=
  match c with
  | Normal [] => Normal url
  | Normal queryString => Normal (url ++ lit "?" ++ queryString)
  | Throw e => Throw e
  end.

(** What [_requestUrl] returns in state [s]. *)
Definition url_completion (s : State) : completion jsstring :=
  with_query (url (config (this s))) (query_completion s).

(** The object literal of [_requestOptions]. *)
Definition snapshot (c : Config) (url : jsstring) : Options.t :=
  {| Options.cache := cache c; Options.callbackKey := callbackKey c;
     Options.callbackValue := callbackValue c; Options.sync := sync c;
     Options.url := url |}.

(** The state in which the getter is read a second time: only the object
    store and the random position matter to it. *)
Definition reread (s : State) : State :=
  touch (query_store s) (query_draws s) s.




(** ** [generateRequest] *)

(** The error that the two guards raise, if any. *)
Definition config_error (s : State) : option Error :=
  let c := config (this s) in
  if cache c && (callback_regex_test (callbackValue c)
                 || is_empty (callbackValue c))
  then Some Error_callback_value
  else if is_empty (url c) then Some Error_url
  else None.

(** A request object that is still loading. *)
Definition request_value (o : option Options.t) (sc : option Script.t)
  : Request.t :=
  {| Request.loading := true; Request.options := o; Request.script := sc |}.

(** The element and the store once request [r], with contents [q], has
    been pushed. *)
Definition issue (r : nat) (q : Request.t) (s : State) : State :=
  on_this (fun e =>
             set_activeRequests (activeRequests e ++ [r])
               (set_lastRequest (Some r)
                  (set_lastAborted false (set_loading true e))))
    (on_host (fun h => set_next_request (S r)
                         (set_requests (<[r := q]> (requests h)) h)) s).

(** The document, the global object and the event log once the script of
    [r] has been injected. *)
Definition inject (r : nat) (name : jsstring) (s : State) : State :=
  on_host (fun h =>
             set_dispatched (dispatched h ++ [new_CustomEvent "sent" None])
               (set_head (head h ++ [r])
                  (set_window (<[name := r]> (window h)) h))) s.


(** The global name under which request [r] was registered: the
    [callbackValue] of its options snapshot, which [generateRequest] also
    uses as the key of [window]. *)
Definition registered_name (s : State) (r : nat) : option jsstring :=
  q ← requests (host s) !! r;
  Options.callbackValue <$> Request.options q.

(** ** Cleanup and abort *)

(** Whether a request of [l] still loads once [r] has stopped. *)
Definition others_loading (h : Host) (r : nat) (l : list nat) : bool :=
  negb (bool_decide
          (length (filter
                     (fun x =>
                        request_loading
                          (set_requests
                             (alter (Request.set_loading false) r (requests h))
                             h) x = true) l) = 0)).

(** The state that cleanup of the active request [r], found at index [k],
    reaches before it detaches the script. *)
Definition cleaned (r k : nat) (s : State) : State :=
  on_this (fun e =>
             set_activeRequests (delete k (activeRequests e))
               (set_loading
                  (if others_loading (host s) r (activeRequests e)
                   then loading e else false) e))
    (on_host (fun h =>
                set_window (delete (callbackValue (config (this s))) (window h))
                  (set_requests
                     (alter (Request.set_loading false) r (requests h)) h)) s).

(** The document once the script of [r] has been removed. *)
Definition detached (r : nat) (s : State) : State :=
  on_host (fun h => set_head (filter (fun x => x ≠ r) (head h)) h) s.

(** The request that [abortRequest] ends up with. *)
Definition abort_target (l : list nat) (request : option nat) : option nat :=
  match request with
  | None => if bool_decide (length l ≠ 0) then l !! (length l - 1) else None
  | Some r => Some r
  end.

(** Whether [abortRequest] sets [lastAborted]. *)
Definition abort_marks (l : list nat) (target : option nat) : bool :=
  bool_decide (is_Some target)
  && bool_decide (indexOf l target = (Z.of_nat (length l) - 1)%Z).

(** The state once [abortRequest] has, or has not, set [lastAborted]. *)
Definition marked (b : bool) (s : State) : State :=
  if b then on_this (set_lastAborted true) s else s.

(** The event log with one more event. *)
Definition emit (event : CustomEvent) (s : State) : State :=
  on_host (fun h => set_dispatched (dispatched h ++ [event]) h) s.

(** ** The observer and time *)

(** The state after the assignment [this.prop = v]. *)
Definition assigned (p : Property) (s : State) : State :=
  on_this (fun e =>
             set_config (assign_config p (next_object (host s)) (config e)) e)
    (match p with
     | P_params (Some o) =>
         on_host (fun h =>
                    set_next_object (S (next_object h))
                      (set_objects (<[next_object h := o]> (objects h)) h)) s
     | _ => s
     end).

(** The timers left once the debouncer has been cancelled. *)
Definition cancelled (s : State) : list (nat * Z) :=
  match _debounceJob (this s) with
  | Some (Some timer) => filter (fun t => t.1 ≠ timer) (timers (host s))
  | _ => timers (host s)
  end.

(** The state after the observer has run. *)
Definition restarted (s : State) : State :=
  on_this (set_debounceJob (Some (Some (next_timer (host s)))))
    (on_host (fun h =>
                set_next_timer (S (next_timer h))
                  (set_timers
                     (cancelled s
                      ++ [(next_timer h,
                           (now h
                            + Z.max 0 (debounceDuration (config (this s))))%Z)])
                     h)) s).

(** The state in which the debouncer's timer has fired and is gone. *)
Definition expired (s : State) : State :=
  on_this (set_debounceJob (Some None)) (on_host (set_timers []) s).

(** The browser runs the timers that have come due. *)
Definition settle (s : State) : State :=
  run s (map (fun t => Timer t.1) (timers (host s))).

(** Time passes, and the timers that come due run. *)
Definition elapse (ms : N) (s : State) : State := settle (step s (Tick ms)).

(** A property changes and [c.2] milliseconds pass. *)
Definition change_and_wait (s : State) (c : Property * N) : State :=
  elapse c.2 (step s (Change c.1)).

(** The debounce window that a change of [p] opens in state [s]. *)
Definition window_of (s : State) (p : Property) : Z :=
  Z.max 0 (debounceDuration (config (this (step s (Change p))))).

(** A burst of changes. *)
Definition burst (s : State) (l : list (Property * N)) : State :=
  fold_left change_and_wait l s.

(** Every change of the burst is followed by the next one before its
    window has elapsed. *)
Fixpoint rapid (s : State) (l : list (Property * N)) : Prop :=
  match l with
  | [] => True
  | c :: rest =>
      (Z.of_N c.2 < window_of s c.1)%Z ∧ rapid (change_and_wait s c) rest
  end.

(** ** Invariants *)

(** The aggregate flag says whether some active request is loading. *)
Definition loading_inv (s : State) : Prop :=
  loading (this s) = true ↔
  ∃ r, r ∈ activeRequests (this s) ∧ request_loading (host s) r = true.

(** The only pending timer, if any, is the one the debouncer holds. *)
Definition timers_inv (s : State) : Prop :=
  match _debounceJob (this s) with
  | Some (Some timer) => ∃ due, timers (host s) = [(timer, due)]
  | _ => timers (host s) = []
  end.

(** What holds of every state the element can reach: the active requests
    are pairwise distinct and were allocated; a global callback is bound to
    an allocated request, and if that request is active its script exists
    and is in the document; the two invariants above. *)
Record wf (s : State) : Prop := {
  wf_nodup : NoDup (activeRequests (this s));
  wf_active : ∀ r, r ∈ activeRequests (this s) → r < next_request (host s);
  wf_window : ∀ name r, window (host s) !! name = Some r →
      r < next_request (host s)
      ∧ (r ∈ activeRequests (this s) →
         r ∈ head (host s) ∧ has_script (host s) r = true);
  wf_timers : timers_inv s;
  wf_loading : loading_inv s
}.

(** The fields that well-formedness reads. *)
Definition same_core (s s' : State) : Prop :=
  activeRequests (this s') = activeRequests (this s)
  ∧ loading (this s') = loading (this s)
  ∧ _debounceJob (this s') = _debounceJob (this s)
  ∧ requests (host s') = requests (host s)
  ∧ next_request (host s') = next_request (host s)
  ∧ window (host s') = window (host s)
  ∧ head (host s') = head (host s)
  ∧ timers (host s') = timers (host s).

(** ** Sample inputs *)

(** Sample inputs: a random stream, a URL, an element configured with it,
    and the [error] event of a script. *)
Definition sample_random (n : nat) : Z := Z.of_nat n * 7.

Definition sample_url : jsstring := lit "https://api.example.com/data".

Definition sample_state (params : JSObject) : State :=
  run (created sample_random)
    [Change (P_url sample_url); Change (P_params (Some params))].

Definition script_error (r : nat) : DomEvent :=
  {| dom_type := "error"; dom_target := r |}.


(** ** Further invariants and forms *)

(** How [replace] fills a character of the template: [x] by a hexadecimal
    digit, [y] by one of [8 9 a b], any other character by itself. *)
Definition fills (t c : N) : Prop :=
  if (t =? 120)%N then is_hex_lower c = true
  else if (t =? 121)%N then c ∈ [56%N; 57%N; 97%N; 98%N]
  else c = t.

(** In the order of issue: ascending references. *)
Definition ascending (l : list nat) : Prop :=
  ∀ i j x y, i < j → l !! i = Some x → l !! j = Some y → x < y.

(** More of what holds of every state the element can reach: the active
    requests are in the order of issue and all have [loading = true]; the
    request objects are the allocated ones; the scripts in the document are
    those of the active requests that have one; [lastRequest] is the request
    created last; [lastResponse] and [lastError] are not both set. *)
Record tidy (s : State) : Prop := {
  tidy_order : ascending (activeRequests (this s));
  tidy_loading : ∀ r, r ∈ activeRequests (this s) →
                      request_loading (host s) r = true;
  tidy_alloc : ∀ r, is_Some (requests (host s) !! r) →
                    r < next_request (host s);
  tidy_head : ∀ r, r ∈ head (host s) ↔
                   r ∈ activeRequests (this s) ∧ has_script (host s) r = true;
  tidy_head_nodup : NoDup (head (host s));
  tidy_last : lastRequest (this s)
              = match next_request (host s) with 0 => None | S n => Some n end;
  tidy_result : lastResponse (this s) = None ∨ lastError (this s) = None
}.

(** The fields that [tidy] reads, [lastResponse] and [lastError] apart. *)
Definition same_frame (s s' : State) : Prop :=
  activeRequests (this s') = activeRequests (this s)
  ∧ lastRequest (this s') = lastRequest (this s)
  ∧ requests (host s') = requests (host s)
  ∧ next_request (host s') = next_request (host s)
  ∧ head (host s') = head (host s).

(** The script source and the recorded URL of request [r]. *)
Definition script_src (s : State) (r : nat) : option jsstring :=
  q ← requests (host s) !! r; Script.src <$> Request.script q.

Definition options_url (s : State) (r : nat) : option jsstring :=
  q ← requests (host s) !! r; Options.url <$> Request.options q.

(** A request object [q'] is a later stage of [q]: same options, same
    script, and [loading] has not come back. *)
Definition later_stage (q q' : Request.t) : Prop :=
  Request.options q' = Request.options q
  ∧ Request.script q' = Request.script q
  ∧ (Request.loading q' = true → Request.loading q = true).

(** Every request object of [s] is in [s'], at a later stage. *)
Definition keeps (s s' : State) : Prop :=
  ∀ r q, requests (host s) !! r = Some q →
         ∃ q', requests (host s') !! r = Some q' ∧ later_stage q q'.

(** Request objects are numbered below the next one. *)
Definition allocated (s : State) : Prop :=
  ∀ r, is_Some (requests (host s) !! r) → r < next_request (host s).

(** ** Documents *)

(** Two states agree on the requests and on what the element records of
    them. *)
Definition alike (s s' : State) : Prop :=
  activeRequests (this s') = activeRequests (this s)
  ∧ requests (host s') = requests (host s)
  ∧ next_request (host s') = next_request (host s)
  ∧ loading (this s') = loading (this s)
  ∧ lastRequest (this s') = lastRequest (this s).

(** What one action does to the requests: nothing; or the next request
    object is created, loading, and pushed; or the active request [r],
    found at index [k], is ended. *)
Inductive effect (s s' : State) : Prop :=
| effect_none : alike s s' → effect s s'
| effect_issue (q : Request.t) :
    Request.loading q = true →
    activeRequests (this s')
    = activeRequests (this s) ++ [next_request (host s)] →
    requests (host s') = <[next_request (host s) := q]> (requests (host s)) →
    next_request (host s') = S (next_request (host s)) →
    loading (this s') = true →
    lastRequest (this s') = Some (next_request (host s)) →
    effect s s'
| effect_end (r k : nat) :
    activeRequests (this s) !! k = Some r →
    activeRequests (this s') = delete k (activeRequests (this s)) →
    requests (host s')
    = alter (Request.set_loading false) r (requests (host s)) →
    next_request (host s') = next_request (host s) →
    loading (this s')
    = (if others_loading (host s) r (activeRequests (this s))
       then loading (this s) else false) →
    lastRequest (this s') = lastRequest (this s) →
    effect s s'.

(** What holds of every document: the shared array lists no request
    twice; every request in it is loading and was issued by an element of
    the document whose [loading] is true; an issued request is numbered
    below the next one; and the [lastRequest] of an element is the request
    it issued last. *)
Record sound (d : Document) : Prop := {
  sound_nodup : NoDup (array d);
  sound_loading :
    ∀ r, r ∈ array d → request_loading (browser d) r = true;
  sound_issued :
    ∀ r i, issuer d !! r = Some i →
           r < next_request (browser d) ∧ is_Some (members d !! i);
  sound_active :
    ∀ r, r ∈ array d →
         ∃ i m, issuer d !! r = Some i ∧ members d !! i = Some m
                ∧ loading (element m) = true;
  sound_last :
    ∀ i m, members d !! i = Some m →
           match lastRequest (element m) with
           | Some r =>
               issuer d !! r = Some i
               ∧ ∀ r', issuer d !! r' = Some i → r' ≤ r
           | None => ∀ r', issuer d !! r' ≠ Some i
           end
}.

(** A parameter value with a lone surrogate. *)
Definition sample_unencodable : JSObject := [(lit "q", [55296%N])].

(** * Properties *)

(** ** Strings and generated tokens *)

Lemma guid_digit_hex char z :
  is_hex_lower (guid_digit char (z mod 16)) = true
  ∧ guid_digit char (z mod 16) ≠ 45%N.
Proof.
  pose proof (Z.mod_pos_bound z 16 ltac:(lia)) as Hb.
  assert (Hcases : Exists (fun v => (z mod 16)%Z = v)
                     (map Z.of_nat (seq 0 16))).
  { apply Exists_exists. exists (z mod 16)%Z. split; [|done].
    apply list_elem_of_fmap. exists (Z.to_nat (z mod 16)). split; [lia|].
    apply elem_of_seq. lia. }
  unfold guid_digit. cbn in Hcases.
  repeat (apply Exists_cons in Hcases as [-> | Hcases];
          [destruct (char =? 120)%N; vm_compute; (split; [done | discriminate]) |]).
  by apply Exists_nil in Hcases.
Qed.

Lemma replace_xy_chars rnd tpl : ∀ n,
  forallb template_char tpl = true →
  Forall (fun c => is_hex_lower c = true) (remove_dashes (replace_xy rnd n tpl).1)
  ∧ length (remove_dashes (replace_xy rnd n tpl).1)
    = length (remove_dashes tpl)
  ∧ (replace_xy rnd n tpl).2
    = n + length (filter (fun c => c = 120%N ∨ c = 121%N) tpl).
Proof.
  induction tpl as [|c tpl IH]; intros n Htpl; [by cbn|].
  cbn in Htpl. apply andb_prop in Htpl as [Hc Htpl].
  cbn [replace_xy].
  destruct ((c =? 120)%N || (c =? 121)%N) eqn:Hxy.
  - specialize (IH (S n) Htpl). destruct (replace_xy rnd (S n) tpl) as [g n'].
    destruct IH as (IH1 & IH2 & IH3).
    destruct (guid_digit_hex c (rnd n)) as [Hh Hd].
    assert (Hx : c = 120%N ∨ c = 121%N) by
      (apply orb_prop in Hxy as [?%N.eqb_eq | ?%N.eqb_eq]; auto).
    assert (Hne : c ≠ 45%N) by (destruct Hx; subst; done).
    unfold remove_dashes in *. cbn [fst snd] in *.
    rewrite !filter_cons_True by done. cbn [length].
    repeat split; [by constructor | by rewrite IH2 | by rewrite IH3; lia].
  - specialize (IH n Htpl). destruct (replace_xy rnd n tpl) as [g n'].
    destruct IH as (IH1 & IH2 & IH3).
    apply orb_false_elim in Hxy as [Hx Hy].
    unfold template_char in Hc. rewrite Hx, Hy in Hc. cbn [orb] in Hc.
    apply N.eqb_neq in Hx, Hy.
    unfold remove_dashes in *. cbn [fst snd] in *.
    rewrite (filter_cons_False (fun c => c = 120%N ∨ c = 121%N))
      by (intros [?|?]; done).
    destruct (decide (c = 45%N)) as [->|Hd].
    + rewrite !filter_cons_False by (intros ?; done). done.
    + rewrite !filter_cons_True by done. cbn [length].
      repeat split; [|by rewrite IH2|done].
      constructor; [|done].
      apply N.eqb_neq in Hd. rewrite Hd in Hc. done.
Qed.

Lemma _newGuid_eq noDashes s :
  _newGuid noDashes s
  = (Normal (next_guid noDashes s),
     on_host (set_draws (draws (host s) + 31)) s).
Proof.
  unfold _newGuid, next_guid.
  pose proof (replace_xy_chars (random (host s)) guid_template
                (draws (host s)) eq_refl) as (_ & _ & Hn).
  destruct (replace_xy _ _ guid_template) as [g n]. cbn [fst snd] in *.
  rewrite Hn. reflexivity.
Qed.

(** A compact token is 32 lower-case hexadecimal digits. *)
Lemma next_guid_hex s :
  Forall (fun c => is_hex_lower c = true) (next_guid true s)
  ∧ length (next_guid true s) = 32.
Proof.
  unfold next_guid.
  pose proof (replace_xy_chars (random (host s)) guid_template
                (draws (host s)) eq_refl) as (H1 & H2 & _).
  split; [done | by rewrite H2].
Qed.

Lemma hex_unreserved c : is_hex_lower c = true → uri_unreserved c = true.
Proof.
  unfold is_hex_lower, uri_unreserved, is_digit, is_lower, is_upper, between.
  intros H. destruct (48 <=? c)%N eqn:?, (c <=? 57)%N eqn:?,
    (97 <=? c)%N eqn:?, (c <=? 102)%N eqn:?, (c <=? 122)%N eqn:?,
    (65 <=? c)%N, (c <=? 90)%N;
    cbn in *; try done;
    repeat match goal with
           | E : (_ <=? _)%N = true |- _ => apply N.leb_le in E
           | E : (_ <=? _)%N = false |- _ => apply N.leb_gt in E
           end; lia.
Qed.

Lemma encode_unreserved g :
  Forall (fun c => uri_unreserved c = true) g →
  encodeURIComponent g = Some g.
Proof.
  induction 1 as [|c g Hc _ IH]; [done|]. cbn. by rewrite Hc, IH.
Qed.

Lemma encode_hex g :
  Forall (fun c => is_hex_lower c = true) g → encodeURIComponent g = Some g.
Proof.
  intros H. apply encode_unreserved.
  eapply Forall_impl; [done | apply hex_unreserved].
Qed.

(** The pattern accepts exactly the prefix followed by 32 digits. *)
Lemma callback_regex_test_spec value :
  callback_regex_test value = true ↔
  ∃ g, value = lit "vo_jsonp_callback_" ++ g
       ∧ Forall (fun c => is_hex_lower c = true) g ∧ length g = 32.
Proof.
  unfold callback_regex_test. split.
  - intros H. apply andb_prop in H as [H H3]. apply andb_prop in H as [H1 H2].
    apply bool_decide_eq_true in H1, H3.
    exists (drop (length (lit "vo_jsonp_callback_")) value).
    split; [|split; [|done]].
    + by rewrite <- H1 at 1; rewrite take_drop.
    + apply Forall_forall. intros c Hc. rewrite forallb_forall in H2.
      apply H2. by apply list_elem_of_In.
  - intros (g & -> & Hg & Hlen).
    rewrite take_app_length, drop_app_length.
    rewrite bool_decide_eq_true_2 by done.
    rewrite bool_decide_eq_true_2 by done.
    rewrite andb_true_r. cbn. apply forallb_forall. intros c Hc.
    rewrite Forall_forall in Hg. apply Hg. by apply list_elem_of_In.
Qed.

(** ** Objects and the rendered query *)

Arguments lit : simpl never.

Lemma obj_get_set_eq k v o :
  settable k o → obj_get k (obj_set k v o) = Some v.
Proof.
  unfold settable. induction o as [|[k' v'] o IH]; cbn.
  - intros [Hk|[? [=]]]. rewrite decide_False by done. cbn.
    by rewrite decide_True.
  - destruct (decide (k' = k)); cbn; [by rewrite decide_True|].
    rewrite decide_False by done. done.
Qed.

Lemma obj_get_set_ne k k' v o :
  k ≠ k' → obj_get k' (obj_set k v o) = obj_get k' o.
Proof.
  intros Hne. induction o as [|[k0 v0] o IH]; cbn.
  - destruct (decide (k = lit "__proto__")); [done|]. cbn.
    by rewrite decide_False.
  - destruct (decide (k0 = k)) as [->|]; cbn.
    + by rewrite !decide_False.
    + by rewrite IH.
Qed.

(** An assignment that reaches the inherited setter changes nothing. *)
Lemma obj_set_inherited k v o : ¬ settable k o → obj_set k v o = o.
Proof.
  unfold settable. induction o as [|[k' v'] o IH]; cbn; intros Hn.
  - rewrite decide_True; [done|].
    destruct (decide (k = lit "__proto__")); [done | tauto].
  - destruct (decide (k' = k)) as [->|];
      [exfalso; apply Hn; right; by eexists|].
    by rewrite IH.
Qed.

Lemma settable_dec k o : settable k o ∨ ¬ settable k o.
Proof.
  unfold settable. destruct (decide (k = lit "__proto__")); [|by left; left].
  destruct (obj_get k o); [left; right; by eexists|].
  right. intros [?|[? [=]]]. done.
Qed.

(** Assignments do not change which keys they can write. *)
Lemma settable_set k k' v o : settable k (obj_set k' v o) ↔ settable k o.
Proof.
  unfold settable. destruct (decide (k = lit "__proto__")) as [->|];
    [|tauto].
  destruct (decide (k' = lit "__proto__")) as [->|Hne].
  - destruct (settable_dec (lit "__proto__") o) as [Hs|Hs].
    + rewrite obj_get_set_eq by done. destruct Hs as [?|?]; [done|].
      split; intros _; right; [done | by eexists].
    + by rewrite obj_set_inherited.
  - by rewrite obj_get_set_ne.
Qed.

Lemma obj_get_keys k o : k ∈ map fst o ↔ is_Some (obj_get k o).
Proof.
  induction o as [|[k' v] o IH]; cbn.
  - split; [by intros ?%elem_of_nil | by intros [? ?]].
  - rewrite elem_of_cons, IH. destruct (decide (k' = k)) as [->|].
    + split; [by eexists | by left].
    + split; [intros [?|?]; [congruence | done] | by right].
Qed.

Lemma insert_index_elem e x l : x ∈ insert_index e l ↔ x = e ∨ x ∈ l.
Proof.
  induction l as [|e' l IH]; cbn; [rewrite list_elem_of_singleton, elem_of_nil; tauto|].
  destruct (e.1 <=? e'.1)%N; rewrite !elem_of_cons; [done|].
  rewrite IH. tauto.
Qed.

Lemma sort_index_elem x l : x ∈ sort_index l ↔ x ∈ l.
Proof.
  induction l as [|e l IH]; cbn; [done|].
  by rewrite insert_index_elem, elem_of_cons, IH.
Qed.

(** [Object.keys] lists exactly the own properties. *)
Lemma obj_keys_elem k o : k ∈ obj_keys o ↔ is_Some (obj_get k o).
Proof.
  rewrite <- obj_get_keys. unfold obj_keys.
  rewrite elem_of_app, list_elem_of_fmap, list_elem_of_filter. split.
  - intros [([i k'] & -> & H) | [_ H]]; [|done].
    apply sort_index_elem, list_elem_of_omap in H as (k0 & Hk0 & H).
    destruct (array_index k0); simplify_eq/=. done.
  - intros H. destruct (array_index k) as [i|] eqn:Hi; [left | by right].
    exists (i, k). split; [done|].
    apply sort_index_elem, list_elem_of_omap. exists k. by rewrite Hi.
Qed.


Lemma query_parts_is_Some o : encodable o ↔ is_Some (query_parts o).
Proof.
  unfold query_parts. rewrite mapM_is_Some, Forall_forall. split.
  - intros Henc k [v Hv]%obj_keys_elem. cbn. unfold query_part.
    rewrite Hv. cbn. destruct (Henc k v Hv) as [e ->]. by eexists.
  - intros H k v Hv. specialize (H k). cbn in H. unfold query_part in H.
    rewrite Hv in H. cbn in H.
    destruct H as [p Hp]; [apply obj_keys_elem; eauto|].
    destruct (encodeURIComponent v); [by eexists | done].
Qed.

Lemma encodable_set_written k v o :
  encodable o →
  (settable k o → is_Some (encodeURIComponent v)) →
  encodable (obj_set k v o).
Proof.
  intros Ho Hv. destruct (settable_dec k o) as [Hs|Hs];
    [|by rewrite obj_set_inherited].
  intros k' v'. destruct (decide (k = k')) as [->|Hne].
  - rewrite obj_get_set_eq by done. intros [= <-]. by apply Hv.
  - rewrite obj_get_set_ne by done. apply Ho.
Qed.

Lemma encodable_set k v o :
  encodable o → is_Some (encodeURIComponent v) → encodable (obj_set k v o).
Proof. intros Ho Hv. by apply encodable_set_written. Qed.

(** ** What reading [_queryString] does *)

Arguments obj_set : simpl never.
Arguments obj_get : simpl never.
Arguments query_parts : simpl never.
Arguments callback_regex_test : simpl never.
Arguments encodeURIComponent : simpl never.
Arguments _newGuid : simpl never.
Arguments join : simpl never.
Arguments _queryString : simpl never.
Arguments _requestUrl : simpl never.
Arguments _requestOptions : simpl never.

Lemma _queryString_eq s :
  _queryString s
  = (query_completion s, touch (query_store s) (query_draws s) s).
Proof.
  destruct s as [e h]. destruct e as [c ? ? ? ? ? ? ? ?], h.
  unfold _queryString, query_completion, query_object, query_store,
    query_draws, touch, bind, gets, prop, modify, ret, throw,
    params_object, write_params, next_guid.
  cbn. destruct c as [? ca ck cv ? pa ? ?]; cbn.
  destruct (callback_param ck) as [k|] eqn:Hk, pa as [l|], ca; cbn;
    rewrite ?_newGuid_eq; cbn; unfold next_guid; cbn;
    rewrite ?lookup_insert_eq; cbn;
    destruct (query_parts _); unfold on_host; cbn; rewrite ?Hk; cbn;
    by rewrite ?insert_insert_eq.
Qed.

Lemma _requestUrl_eq s :
  _requestUrl s = (url_completion s, touch (query_store s) (query_draws s) s).
Proof.
  unfold _requestUrl, url_completion, with_query, bind.
  rewrite _queryString_eq.
  destruct (query_completion s) as [[|]|]; by destruct s as [[] []].
Qed.

Lemma _requestOptions_eq s :
  _requestOptions s
  = (match url_completion s with
     | Normal u => Normal (snapshot (config (this s)) u)
     | Throw e => Throw e
     end,
     touch (query_store s) (query_draws s) s).
Proof.
  unfold _requestOptions, bind, prop, gets. rewrite _requestUrl_eq.
  destruct (url_completion s); by destruct s as [[] []].
Qed.

(** ** [generateRequest], step by step *)

Lemma generateRequest_error s e :
  config_error s = Some e → generateRequest s = (Throw e, s).
Proof.
  unfold config_error, generateRequest, bind, prop, gets, throw. cbn.
  destruct (cache _ && _); [by intros [= <-]|].
  cbn. destruct (is_empty _); [by intros [= <-] | done].
Qed.

Lemma generateRequest_eq s :
  config_error s = None →
  generateRequest s =
    let r := next_request (host s) in
    let c := config (this s) in
    match url_completion s with
    | Throw e =>
        (Throw e,
         touch (query_store s) (query_draws s)
           (issue r (request_value None None) s))
    | Normal u1 =>
        let t := reread s in
        let o := Some (snapshot c u1) in
        match url_completion t with
        | Throw e =>
            (Throw e,
             touch (query_store t) (query_draws t)
               (issue r (request_value o (Some createElement_script)) s))
        | Normal u2 =>
            (Normal r,
             inject r (callbackValue c)
               (touch (query_store t) (query_draws t)
                  (issue r
                     (request_value o
                        (Some {| Script.src := u2;
                                 Script.async := negb (sync c) |})) s)))
        end
    end.
Proof.
  intros Hok. unfold config_error in Hok.
  unfold generateRequest, bind, prop, gets, throw. cbn.
  destruct (cache _ && _); [done|]. cbn.
  destruct (is_empty _); [done|]. clear Hok.
  destruct s as [e h]. destruct e as [c ? ? ? ? ? ? ? ?], h.
  unfold new_request, _setLoading, _setLastAborted, _setLastRequest,
    modify, update_request, ret, appendChild, dispatchEvent. cbn.
  rewrite _requestOptions_eq. cbn.
  unfold reread, url_completion, query_completion, query_object,
    query_store, query_draws, touch, issue, inject, params_object,
    next_guid, on_host, on_this. cbn.
  destruct (with_query _ _) as [u1|]; [|done]. cbn.
  rewrite _requestUrl_eq. cbn.
  unfold url_completion, query_completion, query_object,
    query_store, query_draws, touch, params_object,
    next_guid, on_host, on_this. cbn.
  destruct (with_query _ _) as [u2|]; cbn;
    rewrite ?alter_insert_eq; cbn; [|done].
  by destruct (sync c).
Qed.

(** ** Cleanup, step by step *)

Arguments Z.of_nat : simpl never.
Arguments Z.add : simpl never.
Arguments Z.sub : simpl never.
Arguments Z.leb : simpl never.
Arguments Z.to_nat : simpl never.

Lemma index_from_None r l i : r ∉ l → index_from r l i = (-1)%Z.
Proof.
  revert i. induction l as [|x l IH]; intros i Hr; cbn; [done|].
  apply not_elem_of_cons in Hr as [Hne Hr].
  rewrite decide_False by done. by apply IH.
Qed.

Lemma index_from_Some r l i k :
  l !! k = Some r → (∀ j, j < k → l !! j ≠ Some r) →
  index_from r l i = (i + Z.of_nat k)%Z.
Proof.
  revert i k. induction l as [|x l IH]; intros i k Hk Hfirst; [done|].
  cbn. destruct k as [|k]; cbn in Hk.
  - simplify_eq. rewrite decide_True by done. lia.
  - rewrite decide_False by (intros ->; by apply (Hfirst 0); [lia|]).
    rewrite (IH _ k) by (try done; intros j Hj; apply (Hfirst (S j)); lia).
    lia.
Qed.

Lemma first_occurrence (r : nat) (l : list nat) :
  r ∈ l → ∃ k, l !! k = Some r ∧ ∀ j, j < k → l !! j ≠ Some r.
Proof.
  induction l as [|x l IH]; [by intros ?%elem_of_nil|].
  destruct (decide (x = r)) as [->|Hne].
  - intros _. exists 0. split; [done | lia].
  - intros [?|Hr]%elem_of_cons; [congruence|].
    destruct (IH Hr) as (k & Hk & Hfirst). exists (S k). split; [done|].
    intros [|j] Hj; cbn; [congruence | apply Hfirst; lia].
Qed.

Lemma _cleanupRequest_absent s request :
  (∀ r, request = Some r → r ∉ activeRequests (this s)) →
  _cleanupRequest request s = (Normal tt, s).
Proof.
  intros Hr. unfold _cleanupRequest, bind, gets. cbn.
  assert (indexOf (activeRequests (this s)) request = (-1)%Z) as ->; [|done].
  destruct request as [r|]; [|done]. cbn. apply index_from_None. by apply Hr.
Qed.

Lemma _cleanupRequest_present s r k :
  activeRequests (this s) !! k = Some r →
  (∀ j, j < k → activeRequests (this s) !! j ≠ Some r) →
  _cleanupRequest (Some r) s =
    if has_script (host s) r && bool_decide (r ∈ head (host s))
    then (Normal tt, detached r (cleaned r k s))
    else (Throw TypeError, cleaned r k s).
Proof.
  intros Hk Hfirst. unfold _cleanupRequest, bind, gets. cbn.
  rewrite (index_from_Some _ _ _ k) by done.
  replace (0 + Z.of_nat k)%Z with (Z.of_nat k) by lia.
  rewrite (proj2 (Z.leb_le 0 (Z.of_nat k))) by lia.
  rewrite Nat2Z.id, Hk.
  destruct s as [e h]. destruct e as [c ? ? ? ? ? ? ? ?], h.
  unfold update_request, modify, _setLoading, ret, prop, gets,
    removeChild_script, bind, throw, cleaned, detached, others_loading,
    has_script, on_this, on_host.
  cbn in *.
  destruct (bool_decide (length _ = 0)); cbn; rewrite lookup_alter_eq;
    destruct (requests0 !! r) as [[? ? [?|]]|]; cbn; try done;
    by destruct (bool_decide (r ∈ head0)).
Qed.

Lemma generateRequest_shape s :
  config_error s = None →
  ∃ q o n (injected : bool),
    (generateRequest s).2
    = (if injected
       then inject (next_request (host s)) (callbackValue (config (this s)))
       else id)
        (touch o n (issue (next_request (host s)) q s))
    ∧ Request.loading q = true
    ∧ (if injected
       then (generateRequest s).1 = Normal (next_request (host s))
            ∧ is_Some (Request.script q)
       else ∃ e, (generateRequest s).1 = Throw e).
Proof.
  intros Hok. rewrite (generateRequest_eq s Hok). cbn zeta.
  destruct (url_completion s) as [u1|e].
  - destruct (url_completion (reread s)) as [u2|e].
    + eexists _, _, _, true. cbn. eauto.
    + eexists _, _, _, false. cbn. eauto.
  - eexists _, _, _, false. cbn. eauto.
Qed.

(** ** Abort, step by step *)

Lemma abortRequest_eq s request :
  abortRequest request s =
    let l := activeRequests (this s) in
    let target := abort_target l request in
    _cleanupRequest target (marked (abort_marks l target) s).
Proof.
  unfold abortRequest, bind, gets, abort_marks, marked, _setLastAborted,
    modify, ret. cbn.
  by destruct (bool_decide (is_Some _) && _).
Qed.

Lemma activeRequests_marked b s :
  activeRequests (this (marked b s)) = activeRequests (this s).
Proof. by destruct b. Qed.

(** ** States the element can be in *)

Lemma elem_of_delete_ne (l : list nat) k r x :
  l !! k = Some r → x ∈ l → x ≠ r → x ∈ delete k l.
Proof.
  intros Hk Hx Hne. rewrite delete_take_drop.
  rewrite <- (take_drop_middle l k r Hk) in Hx.
  rewrite elem_of_app, elem_of_cons in Hx. rewrite elem_of_app. tauto.
Qed.

Lemma not_elem_of_delete (l : list nat) k r :
  NoDup l → l !! k = Some r → r ∉ delete k l.
Proof.
  intros Hnd Hk. rewrite delete_take_drop.
  rewrite <- (take_drop_middle l k r Hk) in Hnd.
  apply NoDup_app in Hnd as (_ & Hl & Hr%NoDup_cons).
  rewrite elem_of_app. intros [Hin|Hin]; [|tauto].
  apply (Hl r Hin). by left.
Qed.

Lemma request_loading_alter_ne h r x :
  x ≠ r →
  request_loading
    (set_requests (alter (Request.set_loading false) r (requests h)) h) x
  = request_loading h x.
Proof.
  intros Hne. unfold request_loading. cbn. by rewrite lookup_alter_ne.
Qed.

Lemma request_loading_alter_eq h r :
  request_loading
    (set_requests (alter (Request.set_loading false) r (requests h)) h) r
  = false.
Proof.
  unfold request_loading. cbn. rewrite lookup_alter_eq.
  by destruct (requests h !! r).
Qed.

Lemma others_loading_spec h r l :
  others_loading h r l = true ↔
  ∃ x, x ∈ l ∧ x ≠ r ∧ request_loading h x = true.
Proof.
  unfold others_loading. rewrite negb_true_iff, bool_decide_eq_false.
  rewrite length_zero_iff_nil. split.
  - intros Hne. destruct (filter _ l) as [|x l'] eqn:Hf; [done|].
    assert (Hx : x ∈ filter
      (fun x => request_loading
         (set_requests (alter (Request.set_loading false) r (requests h)) h)
         x = true) l) by (rewrite Hf; by left).
    apply list_elem_of_filter in Hx as [Hx Hin].
    destruct (decide (x = r)) as [->|Hxr].
    + by rewrite request_loading_alter_eq in Hx.
    + rewrite request_loading_alter_ne in Hx by done. eauto.
  - intros (x & Hin & Hxr & Hx) Hf.
    assert (Hx' : x ∈ filter
      (fun x => request_loading
         (set_requests (alter (Request.set_loading false) r (requests h)) h)
         x = true) l).
    { apply list_elem_of_filter. by rewrite request_loading_alter_ne. }
    rewrite Hf in Hx'. by apply elem_of_nil in Hx'.
Qed.

(** *** The loading flag *)

Lemma request_loading_cleaned s r k x :
  request_loading (host (cleaned r k s)) x
  = if decide (x = r) then false else request_loading (host s) x.
Proof.
  destruct (decide (x = r)) as [->|Hne].
  - apply (request_loading_alter_eq (host s)).
  - by apply (request_loading_alter_ne (host s)).
Qed.

Lemma loading_inv_cleaned s r k :
  activeRequests (this s) !! k = Some r →
  loading_inv s → loading_inv (cleaned r k s).
Proof.
  intros Hk Hinv. unfold loading_inv in *.
  setoid_rewrite request_loading_cleaned. cbn.
  destruct (others_loading (host s) r (activeRequests (this s))) eqn:Ho.
  - apply others_loading_spec in Ho as (x & Hin & Hxr & Hx).
    split.
    + intros _. exists x. split; [by eapply elem_of_delete_ne|].
      by rewrite decide_False.
    + intros _. apply Hinv. eauto.
  - split; [done|]. intros (x & Hin & Hx).
    apply list_elem_of_delete_inv in Hin.
    destruct (decide (x = r)) as [->|Hxr]; [done|].
    assert (others_loading (host s) r (activeRequests (this s)) = true)
      by (apply others_loading_spec; eauto).
    congruence.
Qed.

Lemma loading_inv_cleanup s request :
  loading_inv s → loading_inv (_cleanupRequest request s).2.
Proof.
  intros Hinv. destruct request as [r|];
    [|by rewrite _cleanupRequest_absent].
  destruct (decide (r ∈ activeRequests (this s))) as [Hin|Hout].
  - destruct (first_occurrence _ _ Hin) as (k & Hk & Hfirst).
    rewrite (_cleanupRequest_present s r k Hk Hfirst).
    destruct (has_script _ _ && _); cbn [snd];
      by apply (loading_inv_cleaned s r k).
  - rewrite _cleanupRequest_absent; [done|]. by intros ? [= <-].
Qed.

Lemma loading_inv_generate s :
  loading_inv s → loading_inv (generateRequest s).2.
Proof.
  intros Hinv. destruct (config_error s) as [e|] eqn:Hc.
  - by rewrite (generateRequest_error s e).
  - destruct (generateRequest_shape s Hc) as (q & o & n & b & -> & Hq & _).
    unfold loading_inv. split; [|by destruct b].
    intros _. exists (next_request (host s)). split.
    + destruct b; cbn; apply elem_of_app; right; by left.
    + destruct b; unfold request_loading; cbn; by rewrite lookup_insert_eq.
Qed.

(** *** Handlers, step by step *)

Lemma _discardRequest_eq r s :
  _discardRequest r s =
    match _cleanupRequest (Some r) s with
    | (Normal _, s') => (Normal tt, emit (new_CustomEvent "complete" None) s')
    | (Throw e, s') => (Throw e, s')
    end.
Proof.
  unfold _discardRequest, bind. by destruct (_cleanupRequest _ _) as [[] ?].
Qed.

Lemma _handleResponse_eq r data s :
  _handleResponse r data s =
    _discardRequest r
      (emit (new_CustomEvent "response" None)
         (on_this (fun e => set_lastError None
                              (set_lastResponse (Some data) e)) s)).
Proof. reflexivity. Qed.

Lemma _handleError_eq r event s :
  _handleError r event s =
    _discardRequest r
      (emit (new_CustomEvent "error" None)
         (on_this (fun e => set_lastError (Some event)
                              (set_lastResponse None e)) s)).
Proof. reflexivity. Qed.

(** *** Well-formedness is kept *)

Lemma loading_inv_same_core s s' :
  same_core s s' → loading_inv s → loading_inv s'.
Proof.
  intros (Ha & Hl & _ & Hr & _). unfold loading_inv, request_loading.
  by rewrite Ha, Hl, Hr.
Qed.

Lemma wf_same_core s s' : same_core s s' → wf s → wf s'.
Proof.
  intros Hc [H1 H2 H3 H4 H5]. pose proof Hc as (Ha & Hl & Hj & Hr & Hn & Hw & Hh & Ht).
  constructor.
  - by rewrite Ha.
  - rewrite Ha, Hn. done.
  - unfold has_script. rewrite Ha, Hn, Hw, Hh, Hr. done.
  - unfold timers_inv. by rewrite Hj, Ht.
  - by eapply loading_inv_same_core.
Qed.

Ltac core := repeat split; reflexivity.

Lemma wf_cleaned s r k :
  activeRequests (this s) !! k = Some r → wf s → wf (cleaned r k s).
Proof.
  intros Hk [H1 H2 H3 H4 H5]. constructor; cbn.
  - eapply sublist_NoDup; [done | apply sublist_delete].
  - intros x Hx%list_elem_of_delete_inv. by apply H2.
  - intros name x [_ Hx]%lookup_delete_Some.
    destruct (H3 name x Hx) as [Hlt Hact]. split; [done|].
    intros Hin. pose proof (list_elem_of_delete_inv _ _ _ Hin) as Hin'.
    destruct (Hact Hin') as [Hhd Hsc]. split; [done|].
    assert (x ≠ r) by (intros ->; by eapply not_elem_of_delete).
    unfold has_script in *. cbn. by rewrite lookup_alter_ne.
  - done.
  - by apply loading_inv_cleaned.
Qed.

Lemma wf_detached s r :
  r ∉ activeRequests (this s) → wf s → wf (detached r s).
Proof.
  intros Hr [H1 H2 H3 H4 H5]. constructor; cbn; try done.
  intros name x Hx. destruct (H3 name x Hx) as [Hlt Hact]. split; [done|].
  intros Hin. destruct (Hact Hin) as [Hhd Hsc]. split; [|done].
  apply list_elem_of_filter. split; [|done]. by intros ->.
Qed.

Lemma wf_cleanup s request : wf s → wf (_cleanupRequest request s).2.
Proof.
  intros Hwf. destruct request as [r|];
    [|by rewrite _cleanupRequest_absent].
  destruct (decide (r ∈ activeRequests (this s))) as [Hin|Hout].
  - destruct (first_occurrence _ _ Hin) as (k & Hk & Hfirst).
    rewrite (_cleanupRequest_present s r k Hk Hfirst).
    pose proof (wf_cleaned s r k Hk Hwf) as Hc.
    destruct (has_script _ _ && _); cbn [snd]; [|done].
    apply wf_detached; [|done]. cbn.
    eapply not_elem_of_delete; [apply Hwf | done].
  - rewrite _cleanupRequest_absent; [done|]. by intros ? [= <-].
Qed.

Lemma wf_abort s request : wf s → wf (abortRequest request s).2.
Proof.
  intros Hwf. rewrite abortRequest_eq. cbn zeta. apply wf_cleanup.
  eapply wf_same_core; [|done]. unfold marked.
  destruct (abort_marks _ _); core.
Qed.

Lemma wf_discard s r : wf s → wf (_discardRequest r s).2.
Proof.
  intros Hwf. rewrite _discardRequest_eq.
  pose proof (wf_cleanup s (Some r) Hwf) as Hc.
  destruct (_cleanupRequest (Some r) s) as [[[]|e] s']; cbn in *; [|done].
  eapply wf_same_core; [|done]. core.
Qed.

Lemma wf_generate s : wf s → wf (generateRequest s).2.
Proof.
  intros Hwf. destruct (config_error s) as [e|] eqn:Hc.
  { by rewrite (generateRequest_error s e). }
  destruct (generateRequest_shape s Hc) as (q & o & n & b & Hs & Hq & Hb).
  pose proof (loading_inv_generate s (wf_loading _ Hwf)) as Hl.
  rewrite Hs in *. clear Hs. destruct Hwf as [H1 H2 H3 H4 H5].
  set (r := next_request (host s)) in *.
  assert (Hfresh : r ∉ activeRequests (this s))
    by (intros Hin%H2; unfold r in Hin; lia).
  constructor; [| | | |done].
  - assert (NoDup (activeRequests (this s) ++ [r])); [|by destruct b].
    apply NoDup_app. split; [done|]. split; [|apply NoDup_singleton].
    intros x Hx ->%list_elem_of_singleton. done.
  - assert (∀ x, x ∈ activeRequests (this s) ++ [r] → x < S r);
      [|by destruct b].
    intros x [Hx%H2 | ->%list_elem_of_singleton]%elem_of_app; unfold r in *; lia.
  - assert (Hold : ∀ name x, window (host s) !! name = Some x →
              x < S r ∧ (x ∈ activeRequests (this s) ++ [r] →
                          x ∈ head (host s)
                          ∧ has_script
                              (set_requests (<[r:=q]> (requests (host s)))
                                 (host s)) x = true)).
    { intros name x Hx. destruct (H3 name x Hx) as [Hlt Hact].
      fold r in Hlt. split; [lia|].
      intros [Hin | ->%list_elem_of_singleton]%elem_of_app; [|lia].
      destruct (Hact Hin). split; [done|].
      unfold has_script in *. cbn. rewrite lookup_insert_ne by lia. done. }
    destruct b; cbn.
    + destruct Hb as [_ [sc Hsc]].
      intros name x Hx. apply lookup_insert_Some in Hx as [[_ <-] | [_ Hx]].
      * split; [lia|]. intros _. split; [apply elem_of_app; right; by left|].
        unfold has_script. cbn. rewrite lookup_insert_eq.
        destruct q; cbn in *. by rewrite Hsc.
      * destruct (Hold name x Hx) as [Hlt Hact]. split; [done|].
        intros Hin. destruct (Hact Hin) as [Hhd Hs].
        split; [apply elem_of_app; by left | done].
    + apply Hold.
  - by destruct b.
Qed.

(** *** The observer and the timers, step by step *)

Arguments generateRequest : simpl never.
Arguments _cleanupRequest : simpl never.
Arguments abortRequest : simpl never.
Arguments _discardRequest : simpl never.
Arguments _handleResponse : simpl never.
Arguments _handleError : simpl never.

Lemma _requestOptionsChanged_eq s :
  _requestOptionsChanged s = (Normal tt, restarted s).
Proof.
  unfold _requestOptionsChanged, restarted, cancelled, Debouncer_debounce,
    clearTimeout, setTimeout, bind, gets, prop, modify, ret.
  destruct s as [[] []]. cbn. by destruct _debounceJob0 as [[?|]|].
Qed.

Lemma timers_inv_restarted s : timers_inv s → timers_inv (restarted s).
Proof.
  unfold timers_inv, restarted, cancelled. cbn.
  destruct (_debounceJob (this s)) as [[timer|]|].
  - intros [due ->]. cbn. rewrite decide_False by (cbn; tauto). eauto.
  - intros ->. eauto.
  - intros ->. eauto.
Qed.

Lemma wf_restarted s : wf s → wf (restarted s).
Proof.
  intros [H1 H2 H3 H4 H5]. constructor; try done.
  by apply timers_inv_restarted.
Qed.

Lemma assign_eq p s : assign p s = (Normal tt, assigned p s).
Proof.
  unfold assign, assigned, bind, gets, modify, ret.
  by destruct p as [| | | | |[o|] | |].
Qed.

Lemma same_core_assigned p s : same_core s (assigned p s).
Proof. unfold assigned. destruct p as [| | | | |[o|] | |]; core. Qed.

Lemma timer_fires_eq handle s :
  timer_fires handle s =
    if is_due (host s) handle then
      debounce_callback
        (on_this (set_debounceJob (Some None))
           (on_host (fun h =>
                       set_timers
                         (filter (fun t => t.1 ≠ handle) (timers h)) h) s))
    else (Normal tt, s).
Proof.
  unfold timer_fires, bind, gets, clearTimeout, modify, ret. cbn.
  by destruct (is_due (host s) handle).
Qed.

Lemma debounce_callback_eq s :
  debounce_callback s =
    (Normal tt,
     if auto (config (this s)) then (generateRequest s).2 else s).
Proof.
  unfold debounce_callback, bind, prop, gets, try_catch, ret. cbn.
  destruct (auto _); [|done].
  by destruct (generateRequest s) as [[?|?] ?].
Qed.

Lemma wf_timer_fires handle s : wf s → wf (timer_fires handle s).2.
Proof.
  intros Hwf. rewrite timer_fires_eq.
  destruct (is_due (host s) handle) eqn:Hdue; [|done].
  rewrite debounce_callback_eq. cbn [snd].
  set (s1 := on_this _ _).
  assert (Hwf1 : wf s1).
  { destruct Hwf as [H1 H2 H3 H4 H5]. constructor; try done.
    unfold timers_inv in *. cbn. unfold is_due in Hdue.
    destruct (_debounceJob (this s)) as [[timer|]|];
      [|by rewrite H4 in Hdue..].
    destruct H4 as [due Ht]. rewrite Ht in *. cbn in Hdue.
    rewrite orb_false_r in Hdue. apply andb_prop in Hdue as [Hh _].
    apply bool_decide_eq_true in Hh. cbn in Hh. subst.
    cbn. by rewrite decide_False by (cbn; tauto). }
  destruct (auto _); [by apply wf_generate | done].
Qed.

Lemma perform_Callback_eq name data s :
  perform (Callback name data) s =
    match window (host s) !! name with
    | Some r => _handleResponse r data s
    | None => (Normal tt, s)
    end.
Proof.
  unfold perform, bind, gets. cbn. by destruct (window (host s) !! name).
Qed.

Lemma wf_step s a : wf s → wf (step s a).
Proof.
  intros Hwf. unfold step. destruct a as [p| |request|name data|r e|r e|ms|h].
  - unfold perform, bind. rewrite assign_eq, _requestOptionsChanged_eq.
    apply wf_restarted. eapply wf_same_core; [apply same_core_assigned|done].
  - unfold perform, bind. pose proof (wf_generate s Hwf).
    by destruct (generateRequest s) as [[?|?] ?].
  - by apply wf_abort.
  - rewrite perform_Callback_eq. destruct (window (host s) !! name); [|done].
    rewrite _handleResponse_eq. apply wf_discard.
    eapply wf_same_core; [|done]. core.
  - unfold perform, bind, gets. cbn. destruct (has_script _ _); [|done].
    eapply wf_same_core; [|done]. core.
  - unfold perform, bind, gets. cbn. destruct (has_script _ _); [|done].
    rewrite _handleError_eq. apply wf_discard.
    eapply wf_same_core; [|done]. core.
  - eapply wf_same_core; [|done]. core.
  - by apply wf_timer_fires.
Qed.

Lemma created_eq rnd :
  created rnd =
    restarted
      (assigned
         (P_callbackValue
            (lit "vo_jsonp_callback_" ++ next_guid true (blank rnd)))
         (on_host (set_draws 31) (blank rnd))).
Proof.
  unfold created, initialise, bind. rewrite _newGuid_eq, assign_eq.
  by rewrite _requestOptionsChanged_eq.
Qed.

Lemma wf_created rnd : wf (created rnd).
Proof.
  rewrite created_eq. apply wf_restarted.
  eapply wf_same_core; [apply same_core_assigned|].
  constructor; cbn; try done.
  - apply NoDup_nil_2.
  - by intros r ?%elem_of_nil.
  - split; [done|]. by intros (r & ?%elem_of_nil & _).
Qed.

Lemma reachable_wf s : reachable s → wf s.
Proof. induction 1; [apply wf_created | by apply wf_step]. Qed.

(** ** Configuration errors *)

Lemma is_empty_nil v : is_empty v = true ↔ v = [].
Proof. by destruct v. Qed.

Lemma config_error_callback_value s :
  config_error s = Some Error_callback_value ↔
  cache (config (this s)) = true
  ∧ (callback_regex_test (callbackValue (config (this s))) = true
     ∨ callbackValue (config (this s)) = []).
Proof.
  unfold config_error. rewrite <- is_empty_nil.
  destruct (cache _), (callback_regex_test _),
    (is_empty (callbackValue _)), (is_empty (url _)); cbn;
    intuition congruence.
Qed.

Lemma config_error_some s :
  is_Some (config_error s) ↔
  url (config (this s)) = []
  ∨ cache (config (this s)) = true
    ∧ (callbackValue (config (this s)) = []
       ∨ callback_regex_test (callbackValue (config (this s))) = true).
Proof.
  rewrite is_Some_alt. unfold config_error. rewrite <- !is_empty_nil.
  destruct (cache _), (callback_regex_test _),
    (is_empty (callbackValue _)), (is_empty (url _)); cbn;
    intuition congruence.
Qed.

Lemma config_error_kind s e :
  config_error s = Some e → e = Error_callback_value ∨ e = Error_url.
Proof.
  unfold config_error. destruct (_ && _); [intros [= <-]; by left|].
  destruct (is_empty _); [intros [= <-]; by right | done].
Qed.

Lemma url_completion_throw s e : url_completion s = Throw e → e = URIError.
Proof.
  unfold url_completion, with_query, query_completion.
  destruct (query_parts _); [|congruence].
  by destruct (join _ _).
Qed.

(** Past the guards, only [encodeURIComponent] can throw. *)
Lemma generateRequest_throw_inv s e s' :
  generateRequest s = (Throw e, s') →
  (config_error s = Some e ∧ s' = s)
  ∨ (config_error s = None ∧ e = URIError).
Proof.
  destruct (config_error s) as [e0|] eqn:Hc.
  - rewrite (generateRequest_error s e0 Hc). intros [= <- <-]. by left.
  - rewrite (generateRequest_eq s Hc). cbn zeta. intros H. right. split; [done|].
    destruct (url_completion s) as [u1|e1] eqn:H1.
    + destruct (url_completion (reread s)) as [u2|e2] eqn:H2; [done|].
      apply url_completion_throw in H2. congruence.
    + apply url_completion_throw in H1. congruence.
Qed.

(** C6.  When the URL is missing, or [cache] is set while the callback
    value is empty or has the generated form, [generateRequest] throws one
    of its two configuration errors and leaves the state as it found it:
    the active requests, [loading], [lastRequest], [lastAborted], the
    global callbacks, the document head and the request store (no script
    element) are the same.  Conversely, whenever one of these two errors is
    thrown the state is unchanged. *)
Theorem generateRequest_config_error_before_effects (s : State) :
  (url (config (this s)) = []
   ∨ cache (config (this s)) = true
     ∧ (callbackValue (config (this s)) = []
        ∨ callback_regex_test (callbackValue (config (this s))) = true) →
   ∃ e, (e = Error_callback_value ∨ e = Error_url)
        ∧ generateRequest s = (Throw e, s))
  ∧ (∀ e s', generateRequest s = (Throw e, s') →
       e = Error_callback_value ∨ e = Error_url → s' = s).
Proof.
  split.
  - intros [e He]%config_error_some. exists e.
    split; [by eapply config_error_kind | by apply generateRequest_error].
  - intros e s' H He.
    apply generateRequest_throw_inv in H as [[_ ->] | [_ ->]]; [done|].
    by destruct He.
Qed.

Lemma generateRequest_config_error_witness :
  ∃ e, (e = Error_callback_value ∨ e = Error_url)
       ∧ generateRequest (created sample_random)
         = (Throw e, created sample_random).
Proof.
  apply (proj1 (generateRequest_config_error_before_effects
                  (created sample_random))).
  left. reflexivity.
Defined.

Lemma created_callbackValue rnd :
  callbackValue (config (this (created rnd)))
  = lit "vo_jsonp_callback_" ++ next_guid true (blank rnd).
Proof. by rewrite created_eq. Qed.

(** C1 (as the code has it).  With [cache] set, [generateRequest] throws
    the callback-value configuration error exactly when the callback value
    is empty or has the form of a generated value, ["vo_jsonp_callback_"]
    followed by 32 lower-case hexadecimal digits, whoever supplied it; the
    state is then unchanged, so no script element exists.  The default
    value of every new element has that form. *)
Theorem cache_rejects_empty_or_generated_form (s : State) :
  cache (config (this s)) = true →
  let v := callbackValue (config (this s)) in
  ((∃ s', generateRequest s = (Throw Error_callback_value, s')) ↔
   v = [] ∨ ∃ g, v = lit "vo_jsonp_callback_" ++ g
                 ∧ Forall (fun c => is_hex_lower c = true) g
                 ∧ length g = 32)
  ∧ (∀ s', generateRequest s = (Throw Error_callback_value, s') → s' = s)
  ∧ (∀ rnd,
       callback_regex_test (callbackValue (config (this (created rnd))))
       = true).
Proof.
  intros Hcache v. split; [|split].
  - rewrite <- callback_regex_test_spec. split.
    + intros [s' H]. apply generateRequest_throw_inv in H as [[H _]|[_ [=]]].
      apply config_error_callback_value in H. tauto.
    + intros H. exists s. apply generateRequest_error.
      apply config_error_callback_value. tauto.
  - intros s' H. by apply generateRequest_throw_inv in H as [[_ ->]|[_ [=]]].
  - intros rnd. rewrite created_callbackValue.
    apply callback_regex_test_spec. eexists. split; [done|].
    apply next_guid_hex.
Qed.

Lemma cache_rejects_empty_or_generated_form_witness :
  ∃ s', generateRequest
          (run (created sample_random)
             [Change (P_url sample_url); Change (P_cache true);
              Change (P_callbackValue [])])
        = (Throw Error_callback_value, s').
Proof.
  set (s := run _ _).
  apply (cache_rejects_empty_or_generated_form s eq_refl). by left.
Defined.

(** C1 (as the specification states it) fails: a non-empty callback value
    that the caller assigns, different from the generated default, is
    rejected when it has the generated form. *)
Lemma caller_value_of_generated_form_rejected :
  let v := lit "vo_jsonp_callback_0123456789abcdef0123456789abcdef" in
  let s := run (created sample_random)
             [Change (P_url sample_url); Change (P_cache true);
              Change (P_callbackValue v)] in
  cache (config (this s)) = true
  ∧ callbackValue (config (this s)) = v
  ∧ v ≠ []
  ∧ v ≠ callbackValue (config (this (created sample_random)))
  ∧ generateRequest s = (Throw Error_callback_value, s).
Proof. vm_compute. repeat split; congruence. Qed.

(** ** The [params] object across requests *)

Lemma token_key_settable o : settable (lit "_") o.
Proof. left. intros H. vm_compute in H. discriminate H. Qed.


Lemma query_object_callback s k :
  callback_param (callbackKey (config (this s))) = Some k →
  cache (config (this s)) = true ∨ k ≠ lit "_" →
  settable k (params_object s) →
  obj_get k (query_object s) = Some (callbackValue (config (this s))).
Proof.
  intros Hk Hc Hs. unfold query_object. rewrite Hk.
  destruct (cache _); [by apply obj_get_set_eq|].
  destruct Hc as [|Hne]; [done|].
  rewrite obj_get_set_ne by done. by apply obj_get_set_eq.
Qed.


(** The getter does not change which keys an assignment can write. *)
Lemma settable_query_object s k :
  settable k (query_object s) ↔ settable k (params_object s).
Proof.
  unfold query_object.
  destruct (callback_param _), (cache _); by rewrite ?settable_set.
Qed.

Lemma query_object_other s k :
  callback_param (callbackKey (config (this s))) ≠ Some k →
  cache (config (this s)) = true ∨ k ≠ lit "_" →
  obj_get k (query_object s) = obj_get k (params_object s).
Proof.
  intros Hk Hc. unfold query_object.
  assert (Hcb : obj_get k
            match callback_param (callbackKey (config (this s))) with
            | Some k0 => obj_set k0 (callbackValue (config (this s)))
                           (params_object s)
            | None => params_object s
            end = obj_get k (params_object s)).
  { destruct (callback_param _) as [k0|]; [|done].
    apply obj_get_set_ne. congruence. }
  destruct (cache _); [done|].
  destruct Hc as [|Hne]; [done|]. by rewrite obj_get_set_ne.
Qed.

(** After the getter, the configured object is the one it rendered. *)
Lemma params_object_reread s l :
  params (config (this s)) = Some l →
  params_object (reread s) = query_object s.
Proof.
  intros Hl. unfold reread, touch, params_object, query_store, query_object.
  cbn. rewrite Hl.
  destruct (callback_param _), (cache _); cbn;
    rewrite ?lookup_insert_eq; try done.
  unfold params_object. by rewrite Hl.
Qed.

Lemma config_reread s : config (this (reread s)) = config (this s).
Proof. done. Qed.

Lemma params_after_getter s :
  params_object (reread s) = query_object s
  ∨ params_object (reread s) = params_object s.
Proof.
  destruct (params (config (this s))) as [l|] eqn:Hl.
  - left. by apply (params_object_reread s l).
  - right. unfold params_object. cbn. by rewrite Hl.
Qed.

Lemma settable_reread s k :
  settable k (params_object (reread s)) ↔ settable k (params_object s).
Proof.
  destruct (params_after_getter s) as [-> | ->]; [|done].
  apply settable_query_object.
Qed.



Lemma params_object_same s s' :
  config (this s') = config (this s) →
  objects (host s') = objects (host s) →
  params_object s' = params_object s.
Proof. intros Hc Ho. unfold params_object. by rewrite Hc, Ho. Qed.




(** ** The request URL *)

Lemma token_encodes g : is_token g → encodeURIComponent g = Some g.
Proof. intros [H _]. by apply encode_hex. Qed.










(** ** Callback names of concurrent requests *)

Lemma generateRequest_Normal_inv s r s' :
  generateRequest s = (Normal r, s') →
  ∃ u1 u2 o n,
    r = next_request (host s)
    ∧ s' = inject r (callbackValue (config (this s)))
             (touch o n
                (issue r
                   (request_value (Some (snapshot (config (this s)) u1))
                      (Some {| Script.src := u2;
                               Script.async := negb (sync (config (this s))) |}))
                   s)).
Proof.
  destruct (config_error s) as [e|] eqn:Hc.
  { by rewrite (generateRequest_error s e). }
  rewrite (generateRequest_eq s Hc). cbn zeta.
  destruct (url_completion s) as [u1|]; [|done].
  destruct (url_completion (reread s)) as [u2|]; [|done].
  intros [= <- <-]. by eexists u1, u2, _, _.
Qed.

(** C2 (as the code has it).  The callback value is a property of the
    element, generated once when the element is created; a request is
    registered under the value current when it is issued.  Two requests
    issued in a row are distinct and both active, they are registered under
    the same global name, and that name is bound to the second one only; the
    cleanup of the first removes the name although the second is still
    active. *)
Theorem consecutive_requests_share_callback_name
  (s s1 s2 : State) (r1 r2 : nat) :
  generateRequest s = (Normal r1, s1) →
  generateRequest s1 = (Normal r2, s2) →
  let name := callbackValue (config (this s)) in
  let s3 := (abortRequest (Some r1) s2).2 in
  r1 ≠ r2
  ∧ r1 ∈ activeRequests (this s2) ∧ r2 ∈ activeRequests (this s2)
  ∧ registered_name s2 r1 = Some name
  ∧ registered_name s2 r2 = Some name
  ∧ window (host s2) !! name = Some r2
  ∧ r2 ∈ activeRequests (this s3) ∧ window (host s3) !! name = None.
Proof.
  intros H1 H2 name s3.
  apply generateRequest_Normal_inv in H1 as (u1 & u2 & o & n & Hr1 & Hs1).
  apply generateRequest_Normal_inv in H2 as (v1 & v2 & o' & n' & Hr2 & Hs2).
  assert (Hnext : next_request (host s1) = S r1) by (by rewrite Hs1).
  assert (Hcfg1 : config (this s1) = config (this s)) by (by rewrite Hs1).
  assert (Hne : r1 ≠ r2) by lia.
  assert (Hact : activeRequests (this s2)
                 = (activeRequests (this s) ++ [r1]) ++ [r2]).
  { rewrite Hs2. cbn. by rewrite Hs1. }
  assert (Hin1 : r1 ∈ activeRequests (this s2)).
  { rewrite Hact, !elem_of_app, !list_elem_of_singleton. tauto. }
  assert (Hin2 : r2 ∈ activeRequests (this s2)).
  { rewrite Hact, !elem_of_app, !list_elem_of_singleton. tauto. }
  assert (Hcfg2 : config (this s2) = config (this s))
    by (by rewrite Hs2, <- Hcfg1).
  split; [done|]. split; [done|]. split; [done|].
  split; [|split; [|split]].
  - unfold registered_name. rewrite Hs2. cbn.
    rewrite lookup_insert_ne by lia. rewrite Hs1. cbn.
    by rewrite lookup_insert_eq.
  - unfold registered_name. rewrite Hs2. cbn.
    rewrite lookup_insert_eq. cbn. by rewrite Hcfg1.
  - rewrite Hs2. cbn. rewrite Hcfg1. apply lookup_insert_eq.
  - unfold s3. rewrite abortRequest_eq. cbn zeta. cbn [abort_target].
    set (m := marked _ s2).
    assert (Hm : activeRequests (this m) = activeRequests (this s2))
      by apply activeRequests_marked.
    assert (Hmc : config (this m) = config (this s2))
      by (unfold m, marked; by destruct (abort_marks _ _)).
    assert (Hin1' : r1 ∈ activeRequests (this m)) by (by rewrite Hm).
    destruct (first_occurrence _ _ Hin1') as (k & Hk & Hfirst).
    rewrite (_cleanupRequest_present m r1 k Hk Hfirst).
    assert (r2 ∈ activeRequests (this (cleaned r1 k m))
            ∧ window (host (cleaned r1 k m)) !! name = None) as [? ?].
    { cbn. split.
      - eapply elem_of_delete_ne; [done | by rewrite Hm | done].
      - rewrite Hmc, Hcfg2. apply lookup_delete_eq. }
    by destruct (has_script _ _ && _).
Qed.

Lemma consecutive_requests_share_callback_name_witness :
  let s := run (created sample_random) [Change (P_url sample_url)] in
  let s1 := (generateRequest s).2 in
  let s2 := (generateRequest s1).2 in
  registered_name s2 0 = Some (callbackValue (config (this s)))
  ∧ registered_name s2 1 = Some (callbackValue (config (this s))).
Proof.
  intros s s1 s2.
  assert (H1 : generateRequest s = (Normal 0, s1)) by (vm_compute; reflexivity).
  assert (H2 : generateRequest s1 = (Normal 1, s2)) by (vm_compute; reflexivity).
  pose proof (consecutive_requests_share_callback_name s s1 s2 0 1 H1 H2)
    as (_ & _ & _ & Hr0 & Hr1 & _).
  by split.
Defined.

(** C2 (as the specification states it) fails: two requests issued by an
    element whose callback value is the generated default are active
    together and registered under one name. *)
Lemma generated_name_shared_by_concurrent_requests :
  let s0 := created sample_random in
  let s := run s0 [Change (P_url sample_url); Generate; Generate] in
  callbackValue (config (this s)) = callbackValue (config (this s0))
  ∧ activeRequests (this s) = [0; 1]
  ∧ registered_name s 0 = Some (callbackValue (config (this s0)))
  ∧ registered_name s 1 = Some (callbackValue (config (this s0))).
Proof. vm_compute. by repeat split. Qed.

(** ** The aggregate loading flag *)

Lemma loading_inv_fields s s' :
  activeRequests (this s') = activeRequests (this s) →
  loading (this s') = loading (this s) →
  requests (host s') = requests (host s) →
  loading_inv s → loading_inv s'.
Proof.
  intros Ha Hl Hr. unfold loading_inv, request_loading.
  by rewrite Ha, Hl, Hr.
Qed.

Lemma loading_inv_abort s request :
  loading_inv s → loading_inv (abortRequest request s).2.
Proof.
  intros Hinv. rewrite abortRequest_eq. cbn zeta. apply loading_inv_cleanup.
  eapply loading_inv_same_core; [|done]. unfold marked.
  destruct (abort_marks _ _); core.
Qed.

Lemma loading_inv_discard s r :
  loading_inv s → loading_inv (_discardRequest r s).2.
Proof.
  intros Hinv. rewrite _discardRequest_eq.
  pose proof (loading_inv_cleanup s (Some r) Hinv) as Hc.
  destruct (_cleanupRequest (Some r) s) as [[[]|e] s']; cbn in *; [|done].
  eapply loading_inv_same_core; [|done]. core.
Qed.

Lemma loading_inv_response s r data :
  loading_inv s → loading_inv (_handleResponse r data s).2.
Proof.
  intros Hinv. rewrite _handleResponse_eq. apply loading_inv_discard.
  eapply loading_inv_same_core; [|done]. core.
Qed.

Lemma loading_inv_error s r event :
  loading_inv s → loading_inv (_handleError r event s).2.
Proof.
  intros Hinv. rewrite _handleError_eq. apply loading_inv_discard.
  eapply loading_inv_same_core; [|done]. core.
Qed.

Lemma loading_inv_step s a : loading_inv s → loading_inv (step s a).
Proof.
  intros Hinv. unfold step.
  destruct a as [p| |request|name data|r e|r e|ms|h].
  - unfold perform, bind. rewrite assign_eq, _requestOptionsChanged_eq.
    eapply loading_inv_fields; [| | |done];
      unfold assigned; by destruct p as [| | | | |[o|] | |].
  - unfold perform, bind. pose proof (loading_inv_generate s Hinv).
    by destruct (generateRequest s) as [[?|?] ?].
  - by apply loading_inv_abort.
  - rewrite perform_Callback_eq. destruct (window (host s) !! name); [|done].
    by apply loading_inv_response.
  - unfold perform, bind, gets. cbn. destruct (has_script _ _); [|done].
    eapply loading_inv_same_core; [|done]. core.
  - unfold perform, bind, gets. cbn. destruct (has_script _ _); [|done].
    by apply loading_inv_error.
  - eapply loading_inv_same_core; [|done]. core.
  - cbn [perform]. rewrite timer_fires_eq. destruct (is_due _ _); [|done].
    rewrite debounce_callback_eq. cbn [snd]. set (s1 := on_this _ _).
    assert (loading_inv s1) by (by eapply loading_inv_fields).
    destruct (auto _); [by apply loading_inv_generate | done].
Qed.

(** In a document with a single element, [loading] is true exactly when
    some active request has [loading = true]: this holds for a new
    element, it is kept by [generateRequest], [abortRequest], the response
    and error handlers and cleanup (also when they throw) and by every
    other action, and so it holds in every state that element can reach.
    With a second element in the document it fails: the two elements have
    one array of active requests between them. *)
Theorem loading_flag_tracks_active_requests :
  (∀ rnd, loading_inv (created rnd))
  ∧ (∀ s, loading_inv s →
       loading_inv (generateRequest s).2
       ∧ (∀ request, loading_inv (abortRequest request s).2)
       ∧ (∀ r data, loading_inv (_handleResponse r data s).2)
       ∧ (∀ r event, loading_inv (_handleError r event s).2)
       ∧ (∀ request, loading_inv (_cleanupRequest request s).2)
       ∧ (∀ a, loading_inv (step s a)))
  ∧ (∀ s, reachable s → loading_inv s).
Proof.
  split; [|split].
  - intros rnd. apply wf_loading, wf_created.
  - intros s Hinv.
    split; [by apply loading_inv_generate|].
    split; [intros; by apply loading_inv_abort|].
    split; [intros; by apply loading_inv_response|].
    split; [intros; by apply loading_inv_error|].
    split; [intros; by apply loading_inv_cleanup|].
    intros. by apply loading_inv_step.
  - intros s Hs. by apply wf_loading, reachable_wf.
Qed.

Lemma reachable_run s l : reachable s → reachable (run s l).
Proof.
  revert s. induction l as [|a l IH]; intros s Hs; [done|].
  cbn. apply IH. by constructor.
Qed.

Lemma loading_flag_tracks_active_requests_witness :
  let s := run (created sample_random) [Change (P_url sample_url); Generate] in
  loading_inv (step s (Abort None)).
Proof.
  intros s.
  destruct loading_flag_tracks_active_requests as (_ & Hstep & Hreach).
  apply Hstep, Hreach, reachable_run, reachable_created.
Defined.

(** ** Cleanup and abort twice *)

Lemma set_lastAborted_id s :
  lastAborted (this s) = true → on_this (set_lastAborted true) s = s.
Proof. destruct s as [[] ?]. cbn. intros ->. reflexivity. Qed.

Lemma marked_id b s :
  (b = true → lastAborted (this s) = true) → marked b s = s.
Proof.
  destruct b; [|done]. intros H. apply set_lastAborted_id. by apply H.
Qed.

Lemma lastAborted_marked b s :
  lastAborted (this (marked b s)) = b || lastAborted (this s).
Proof. by destruct b. Qed.

Lemma abort_marks_absent l r :
  r ∉ l → abort_marks l (Some r) = bool_decide (length l = 0).
Proof.
  intros Hr. unfold abort_marks. cbn.
  rewrite index_from_None by done.
  apply bool_decide_ext. lia.
Qed.

(** A second [abortRequest] of the same request changes nothing, in a
    state whose active requests are pairwise distinct. *)
Lemma abortRequest_twice s r :
  NoDup (activeRequests (this s)) →
  abortRequest (Some r) (abortRequest (Some r) s).2
  = (Normal tt, (abortRequest (Some r) s).2).
Proof.
  intros Hnd. set (l := activeRequests (this s)).
  assert (Hsecond : ∀ s1,
            r ∉ activeRequests (this s1) →
            (length (activeRequests (this s1)) = 0 →
             lastAborted (this s1) = true) →
            abortRequest (Some r) s1 = (Normal tt, s1)).
  { intros s1 Hout Hflag. rewrite abortRequest_eq. cbn zeta.
    cbn [abort_target]. rewrite abort_marks_absent by done.
    rewrite marked_id by (intros ?%bool_decide_eq_true; by apply Hflag).
    apply _cleanupRequest_absent. by intros ? [= <-]. }
  rewrite (abortRequest_eq s). cbn zeta. cbn [abort_target]. fold l.
  set (m := marked (abort_marks l (Some r)) s).
  assert (Hm : activeRequests (this m) = l) by apply activeRequests_marked.
  destruct (decide (r ∈ l)) as [Hin|Hout].
  - destruct (first_occurrence _ _ Hin) as (k & Hk & Hfirst).
    rewrite (_cleanupRequest_present m r k) by (by rewrite Hm).
    assert (Hc : (r ∉ activeRequests (this (cleaned r k m)))
                 ∧ (length (activeRequests (this (cleaned r k m))) = 0 →
                    lastAborted (this (cleaned r k m)) = true)).
    { cbn. rewrite Hm. split; [by apply not_elem_of_delete|].
      intros Hlen. unfold m. rewrite lastAborted_marked.
      apply orb_true_iff. left. unfold abort_marks. cbn.
      apply bool_decide_eq_true. rewrite (index_from_Some _ _ _ k) by done.
      rewrite length_delete in Hlen by (by eexists).
      pose proof (lookup_lt_Some _ _ _ Hk). lia. }
    destruct Hc as [Hc1 Hc2].
    destruct (has_script _ _ && _); cbn [snd];
      (apply Hsecond; [exact Hc1 | exact Hc2]).
  - rewrite _cleanupRequest_absent by (rewrite Hm; by intros ? [= <-]).
    cbn [snd]. apply Hsecond; [by rewrite Hm|].
    rewrite Hm. intros Hlen. unfold m. rewrite lastAborted_marked.
    rewrite abort_marks_absent by done.
    by rewrite bool_decide_eq_true_2.
Qed.

(** C8.  Cleanup of a request that is not active (or of no request)
    returns without changing the state; and in every state the element can
    reach, calling [abortRequest] a second time on the same request returns
    normally and leaves the state exactly as the first call left it. *)
Theorem cleanup_idempotent :
  (∀ s request,
     (∀ r, request = Some r → r ∉ activeRequests (this s)) →
     _cleanupRequest request s = (Normal tt, s))
  ∧ (∀ s r, reachable s →
       abortRequest (Some r) (abortRequest (Some r) s).2
       = (Normal tt, (abortRequest (Some r) s).2)).
Proof.
  split.
  - apply _cleanupRequest_absent.
  - intros s r Hs. apply abortRequest_twice. by apply reachable_wf.
Qed.

Lemma cleanup_idempotent_witness :
  let s := run (created sample_random) [Change (P_url sample_url); Generate] in
  abortRequest (Some 0) (abortRequest (Some 0) s).2
  = (Normal tt, (abortRequest (Some 0) s).2).
Proof.
  intros s. apply cleanup_idempotent, reachable_run, reachable_created.
Defined.

(** ** Abort *)

(** An abort dispatches no event, so no [complete]. *)
Lemma abortRequest_silent s request :
  dispatched (host (abortRequest request s).2) = dispatched (host s).
Proof.
  rewrite abortRequest_eq. cbn zeta.
  set (m := marked _ s).
  assert (Hm : dispatched (host m) = dispatched (host s))
    by (unfold m, marked; by destruct (abort_marks _ _)).
  rewrite <- Hm. clear Hm. generalize (abort_target (activeRequests (this s)) request).
  intros [r|]; [|by rewrite _cleanupRequest_absent].
  destruct (decide (r ∈ activeRequests (this m))) as [Hin|Hout].
  - destruct (first_occurrence _ _ Hin) as (k & Hk & Hfirst).
    rewrite (_cleanupRequest_present m r k Hk Hfirst).
    by destruct (has_script _ _ && _).
  - rewrite _cleanupRequest_absent; [done|]. by intros ? [= <-].
Qed.

(** Without an argument and without active requests, abort does nothing. *)
Lemma abortRequest_idle s :
  activeRequests (this s) = [] → abortRequest None s = (Normal tt, s).
Proof.
  intros Hl. rewrite abortRequest_eq. cbn zeta. rewrite Hl. cbn.
  by apply _cleanupRequest_absent.
Qed.

(** Aborting an active request that is not the last one issued leaves
    [lastAborted] as it was. *)
Lemma abortRequest_not_last s r k :
  NoDup (activeRequests (this s)) →
  activeRequests (this s) !! k = Some r →
  S k ≠ length (activeRequests (this s)) →
  lastAborted (this (abortRequest (Some r) s).2) = lastAborted (this s).
Proof.
  intros Hnd Hk Hlast. rewrite abortRequest_eq. cbn zeta. cbn [abort_target].
  assert (Hfirst : ∀ j, j < k → activeRequests (this s) !! j ≠ Some r).
  { intros j Hj Hjr. pose proof (NoDup_lookup _ _ _ _ Hnd Hjr Hk). lia. }
  assert (abort_marks (activeRequests (this s)) (Some r) = false) as ->.
  { unfold abort_marks. cbn. rewrite (index_from_Some _ _ _ k) by done.
    apply bool_decide_eq_false. lia. }
  cbn [marked]. rewrite (_cleanupRequest_present s r k Hk Hfirst).
  by destruct (has_script _ _ && _).
Qed.

(** C4, where the code departs from it: two requests are issued and both
    fail, so none is active and the last one issued is request 1; aborting
    request 0 then sets [lastAborted].  [indexOf] returns [-1] for the
    absent request, which equals [length - 1] of the empty array. *)
Theorem abort_of_finished_request_sets_lastAborted :
  let s := run (created sample_random)
             [Change (P_url sample_url); Generate; Generate;
              Failure 1 (script_error 1); Failure 0 (script_error 0)] in
  activeRequests (this s) = []
  ∧ lastRequest (this s) = Some 1
  ∧ lastAborted (this s) = false
  ∧ lastAborted (this (step s (Abort (Some 0)))) = true.
Proof. vm_compute. by repeat split. Qed.

(** ** A response *)

(** C5, with what the code does to the events: when the global callback
    [name] is bound to the active request [r] and is called with [data], the
    call returns normally, [lastResponse] is [data], [lastError] is cleared,
    [r] alone leaves the active requests, [loading] agrees with the requests
    that remain, and exactly two events are dispatched, [response] and
    [complete] -- both with a [null] detail: [data] and the request are
    passed to [dispatchEvent], not to the [CustomEvent], and are lost. *)
Theorem response_of_active_request
  (s : State) (name : jsstring) (r : nat) (data : JSON) :
  reachable s →
  window (host s) !! name = Some r →
  r ∈ activeRequests (this s) →
  let s' := step s (Callback name data) in
  perform (Callback name data) s = (Normal tt, s')
  ∧ lastResponse (this s') = Some data
  ∧ lastError (this s') = None
  ∧ (∀ x, x ∈ activeRequests (this s') ↔ x ∈ activeRequests (this s) ∧ x ≠ r)
  ∧ loading_inv s'
  ∧ dispatched (host s')
    = dispatched (host s)
      ++ [ {| ce_type := "response"; ce_detail := DNull |};
           {| ce_type := "complete"; ce_detail := DNull |} ].
Proof.
  intros Hs Hw Hin s'. pose proof (reachable_wf s Hs) as Hwf.
  assert (Hl : loading_inv s') by (apply loading_inv_step, Hwf).
  destruct (wf_window s Hwf name r Hw) as [_ Hact].
  destruct (Hact Hin) as [Hhd Hsc].
  destruct (first_occurrence _ _ Hin) as (k & Hk & Hfirst).
  unfold s', step in *. rewrite perform_Callback_eq, Hw in *.
  rewrite _handleResponse_eq, _discardRequest_eq in *.
  set (s1 := emit _ _) in *.
  rewrite (_cleanupRequest_present s1 r k Hk Hfirst) in *.
  change (has_script (host s1) r) with (has_script (host s) r) in *.
  change (head (host s1)) with (head (host s)) in *.
  rewrite Hsc, (bool_decide_eq_true_2 _ Hhd) in *. cbn [andb snd] in *.
  split; [done|]. split; [done|]. split; [done|]. split; [|split; [done|]].
  - intros x. cbn. split.
    + intros Hx. split; [by eapply list_elem_of_delete_inv|].
      intros ->. revert Hx. apply not_elem_of_delete; [apply Hwf | done].
    + intros [Hx Hne]. by eapply elem_of_delete_ne.
  - cbn. by rewrite <- app_assoc.
Qed.

Lemma response_of_active_request_witness :
  let s := run (created sample_random) [Change (P_url sample_url); Generate] in
  let s' := step s (Callback (callbackValue (config (this s))) (JNumber 7)) in
  lastResponse (this s') = Some (JNumber 7)
  ∧ dispatched (host s')
    = dispatched (host s)
      ++ [ {| ce_type := "response"; ce_detail := DNull |};
           {| ce_type := "complete"; ce_detail := DNull |} ].
Proof.
  intros s s'.
  assert (Hs : reachable s) by apply reachable_run, reachable_created.
  assert (Hw : window (host s) !! callbackValue (config (this s)) = Some 0)
    by (vm_compute; reflexivity).
  assert (Hin : 0 ∈ activeRequests (this s)) by (vm_compute; by left).
  pose proof (response_of_active_request s _ 0 (JNumber 7) Hs Hw Hin)
    as (_ & H1 & _ & _ & _ & H2).
  by split.
Defined.

(** ** The debounced automatic request *)

Lemma step_Change_eq s p : step s (Change p) = restarted (assigned p s).
Proof.
  unfold step, perform, bind. by rewrite assign_eq, _requestOptionsChanged_eq.
Qed.

Lemma timers_assigned p s : timers (host (assigned p s)) = timers (host s).
Proof. unfold assigned. by destruct p as [| | | | |[o|] | |]. Qed.

Lemma step_Change_timers s p :
  timers_inv s →
  timers (host (step s (Change p)))
  = [(next_timer (host s), (now (host s) + window_of s p)%Z)].
Proof.
  intros Hinv. unfold window_of. rewrite step_Change_eq.
  unfold timers_inv in Hinv. unfold restarted, cancelled, assigned.
  destruct p as [| | | | |[o|] | |]; cbn;
    (destruct (_debounceJob (this s)) as [[timer|]|];
     [destruct Hinv as [due ->]; cbn; by rewrite decide_False by (cbn; tauto)
     |by rewrite Hinv..]).
Qed.

Lemma step_Change_fields s p :
  next_request (host (step s (Change p))) = next_request (host s)
  ∧ now (host (step s (Change p))) = now (host s).
Proof.
  rewrite step_Change_eq. unfold restarted, assigned. cbn.
  by destruct p as [| | | | |[o|] | |].
Qed.

(** What [elapse] does when one timer is pending. *)
Lemma elapse_pending s timer due ms :
  timers (host s) = [(timer, due)] →
  elapse ms s =
    if (due <=? now (host s) + Z.of_N ms)%Z then
      let t := expired (step s (Tick ms)) in
      if auto (config (this t)) then (generateRequest t).2 else t
    else step s (Tick ms).
Proof.
  intros Ht. unfold elapse, settle.
  change (timers (host (step s (Tick ms)))) with (timers (host s)).
  rewrite Ht. cbn [map run fold_left fst]. unfold step at 1. cbn [perform].
  rewrite timer_fires_eq. unfold is_due.
  change (timers (host (step s (Tick ms)))) with (timers (host s)).
  change (now (host (step s (Tick ms)))) with (now (host s) + Z.of_N ms)%Z.
  rewrite Ht. cbn [existsb fst snd]. rewrite bool_decide_eq_true_2 by done.
  rewrite orb_false_r. cbn [andb].
  destruct (due <=? _)%Z; [|done].
  rewrite debounce_callback_eq. cbn [snd].
  assert (Heq : on_this (set_debounceJob (Some None))
                  (on_host (fun h => set_timers
                              (filter (fun t => t.1 ≠ timer) (timers h)) h)
                     (step s (Tick ms)))
                = expired (step s (Tick ms))).
  { unfold expired, on_host. cbn. rewrite Ht. cbn.
    by rewrite decide_False by (cbn; tauto). }
  by rewrite Heq.
Qed.

Lemma elapse_idle s ms :
  timers (host s) = [] → elapse ms s = step s (Tick ms).
Proof.
  intros Ht. unfold elapse, settle.
  change (timers (host (step s (Tick ms)))) with (timers (host s)).
  by rewrite Ht.
Qed.

Lemma generateRequest_counts s :
  timers (host (generateRequest s).2) = timers (host s)
  ∧ next_request (host s) ≤ next_request (host (generateRequest s).2)
    ≤ S (next_request (host s)).
Proof.
  destruct (config_error s) as [e|] eqn:Hc.
  - rewrite (generateRequest_error s e Hc). cbn. split; [done | lia].
  - destruct (generateRequest_shape s Hc) as (q & o & n & b & -> & _).
    destruct b; cbn; (split; [done | lia]).
Qed.

Lemma change_and_wait_rapid s p gap :
  timers_inv s → (Z.of_N gap < window_of s p)%Z →
  change_and_wait s (p, gap) = step (step s (Change p)) (Tick gap).
Proof.
  intros Hinv Hgap. unfold change_and_wait. cbn [fst snd].
  rewrite (elapse_pending _ _ _ _ (step_Change_timers s p Hinv)).
  destruct (step_Change_fields s p) as [_ ->].
  destruct (_ <=? _)%Z eqn:Hle; [|done]. apply Z.leb_le in Hle. lia.
Qed.

Lemma burst_rapid s l :
  reachable s → rapid s l →
  reachable (burst s l)
  ∧ next_request (host (burst s l)) = next_request (host s).
Proof.
  revert s. induction l as [|[p gap] l IH]; intros s Hs Hr; [done|].
  destruct Hr as [Hgap Hr]. cbn [fst snd] in *.
  pose proof (wf_timers _ (reachable_wf s Hs)) as Hinv.
  assert (Hc : change_and_wait s (p, gap)
               = step (step s (Change p)) (Tick gap))
    by (by apply change_and_wait_rapid).
  destruct (IH (change_and_wait s (p, gap))) as [Hre Hn]; [|done|].
  { rewrite Hc. by do 2 constructor. }
  unfold burst in *. cbn [fold_left]. split; [done|]. rewrite Hn, Hc.
  transitivity (next_request (host (step s (Change p)))); [done|].
  apply step_Change_fields.
Qed.

(** C10.  At most one timer is pending in any state the element can reach.
    A change of an observed property cancels the pending timer and leaves one
    new timer, due [debounceDuration] milliseconds (at least 0) after the
    change.  During a burst of changes, each followed by the next before its
    window has elapsed, no request is generated.  After the last change [p]
    nothing happens until its window has elapsed; then the timer fires once,
    [generateRequest] is called once if [auto] is set and not at all
    otherwise, and no timer is left, so that further waiting generates
    nothing. *)
Theorem debounce_one_request_per_burst
  (s : State) (l : list (Property * N)) (p : Property) (wait : N) :
  reachable s → rapid s l →
  let s1 := burst s l in
  let s2 := step s1 (Change p) in
  let due := (now (host s1) + window_of s1 p)%Z in
  let s3 := elapse wait s2 in
  length (timers (host s)) ≤ 1
  ∧ next_request (host s2) = next_request (host s)
  ∧ timers (host s2) = [(next_timer (host s1), due)]
  ∧ ((now (host s1) + Z.of_N wait < due)%Z → s3 = step s2 (Tick wait))
  ∧ ((due <= now (host s1) + Z.of_N wait)%Z →
     s3 = (let t := expired (step s2 (Tick wait)) in
           if auto (config (this s2)) then (generateRequest t).2 else t)
     ∧ timers (host s3) = []
     ∧ next_request (host s3) ≤ S (next_request (host s))
     ∧ ∀ w, elapse w s3 = step s3 (Tick w)).
Proof.
  intros Hs Hr s1 s2 due s3.
  destruct (burst_rapid s l Hs Hr) as [Hs1 Hn1]. fold s1 in Hs1, Hn1.
  pose proof (wf_timers _ (reachable_wf s1 Hs1)) as Hinv1.
  pose proof (step_Change_timers s1 p Hinv1) as Ht2. fold s2 due in Ht2.
  destruct (step_Change_fields s1 p) as [Hn2 Hnow2]. fold s2 in Hn2, Hnow2.
  pose proof (elapse_pending s2 _ _ wait Ht2) as He. fold s3 in He.
  rewrite Hnow2 in He.
  split; [|split; [|split; [|split]]].
  - pose proof (wf_timers _ (reachable_wf s Hs)) as Hinv.
    unfold timers_inv in Hinv.
    destruct (_debounceJob (this s)) as [[timer|]|];
      [destruct Hinv as [d ->]; cbn; lia | rewrite Hinv; cbn; lia..].
  - by rewrite Hn2.
  - done.
  - intros Hlt. rewrite He.
    destruct (due <=? _)%Z eqn:Hle; [|done]. apply Z.leb_le in Hle. lia.
  - intros Hle. apply Z.leb_le in Hle. rewrite Hle in He.
    cbn zeta in He.
    change (config (this (expired (step s2 (Tick wait)))))
      with (config (this s2)) in He.
    set (t := expired (step s2 (Tick wait))) in *.
    assert (Ht : timers (host t) = []) by done.
    assert (Hnt : next_request (host t) = next_request (host s))
      by (rewrite <- Hn1, <- Hn2; done).
    pose proof (generateRequest_counts t) as [Hgt Hgn].
    assert (Ht3 : timers (host s3) = []).
    { rewrite He. destruct (auto _); [by rewrite Hgt | done]. }
    split; [done|]. split; [done|]. split.
    + rewrite He. destruct (auto _); lia.
    + intros w. by apply elapse_idle.
Qed.

Lemma debounce_one_request_per_burst_witness :
  let s := run (created sample_random)
             [Change (P_auto true); Change (P_debounceDuration 50)] in
  let l := [(P_url sample_url, 10%N); (P_sync true, 49%N)] in
  let s2 := step (burst s l) (Change (P_cache false)) in
  next_request (host s2) = next_request (host s)
  ∧ next_request (host (elapse 50 s2)) ≤ S (next_request (host s)).
Proof.
  intros s l s2.
  assert (Hs : reachable s) by apply reachable_run, reachable_created.
  assert (Hr : rapid s l) by (vm_compute; by repeat split).
  pose proof (debounce_one_request_per_burst s l (P_cache false) 50 Hs Hr)
    as (_ & H1 & _ & _ & H2).
  split; [exact H1|]. apply H2. vm_compute. discriminate.
Defined.

(** * Further properties *)

(** ** The generated token *)

Lemma guid_digit_variant z :
  guid_digit 121 (z mod 16) ∈ [56%N; 57%N; 97%N; 98%N].
Proof.
  pose proof (Z.mod_pos_bound z 16 ltac:(lia)) as Hb.
  assert (Hcases : Exists (fun v => (z mod 16)%Z = v)
                     (map Z.of_nat (seq 0 16))).
  { apply Exists_exists. exists (z mod 16)%Z. split; [|done].
    apply list_elem_of_fmap. exists (Z.to_nat (z mod 16)). split; [lia|].
    apply elem_of_seq. lia. }
  unfold guid_digit. cbn in Hcases.
  repeat (apply Exists_cons in Hcases as [-> | Hcases];
          [apply list_elem_of_In; vm_compute; auto 10 |]).
  by apply Exists_nil in Hcases.
Qed.

Lemma replace_xy_fills rnd tpl : ∀ n,
  Forall2 fills tpl (replace_xy rnd n tpl).1.
Proof.
  induction tpl as [|c tpl IH]; intros n; [by constructor|].
  cbn [replace_xy].
  destruct ((c =? 120)%N || (c =? 121)%N) eqn:Hxy.
  - specialize (IH (S n)). destruct (replace_xy rnd (S n) tpl) as [g n'].
    cbn [fst] in *. constructor; [|done]. unfold fills.
    destruct (c =? 120)%N eqn:Hx; [apply guid_digit_hex|].
    cbn in Hxy. rewrite Hxy. apply N.eqb_eq in Hxy as ->.
    apply guid_digit_variant.
  - specialize (IH n). destruct (replace_xy rnd n tpl) as [g n'].
    cbn [fst] in *. constructor; [|done]. unfold fills.
    apply orb_false_elim in Hxy as [-> ->]. done.
Qed.

Lemma fills_dash t c : fills t c → (t = 45%N ↔ c = 45%N).
Proof.
  unfold fills. destruct (t =? 120)%N eqn:Hx.
  - apply N.eqb_eq in Hx as ->. intros Hc. split; [done|intros ->; done].
  - destruct (t =? 121)%N eqn:Hy.
    + apply N.eqb_eq in Hy as ->. intros Hc. split; [done|].
      intros ->. apply list_elem_of_In in Hc. cbn in Hc.
      intuition discriminate.
    + by intros ->.
Qed.

Lemma Forall2_fills_remove_dashes tpl g :
  Forall2 fills tpl g →
  Forall2 fills (remove_dashes tpl) (remove_dashes g).
Proof.
  induction 1 as [|t c tpl g Hf _ IH]; [by constructor|].
  unfold remove_dashes in *. pose proof (fills_dash t c Hf) as Hd.
  destruct (decide (t = 45%N)) as [Ht|Ht].
  - rewrite !filter_cons_False by (intros ?; tauto). done.
  - rewrite !filter_cons_True by tauto. by constructor.
Qed.

(** X1.  [_newGuid] always returns: it draws 31 random values and changes
    nothing else, and its result follows the template character by
    character -- a lower-case hexadecimal digit for [x], one of [8 9 a b]
    for [y], the [4] and the dashes as they are; with [noDashes] the dashes
    are gone and 32 characters remain, else there are 36. *)
Theorem newGuid_format (noDashes : bool) (s : State) :
  ∃ g,
    _newGuid noDashes s
    = (Normal g, on_host (set_draws (draws (host s) + 31)) s)
    ∧ Forall2 fills
        (if noDashes then lit "xxxxxxxxxxxx4xxxyxxxxxxxxxxxxxxx"
         else lit "xxxxxxxx-xxxx-4xxx-yxxx-xxxxxxxxxxxx") g
    ∧ length g = if noDashes then 32 else 36.
Proof.
  exists (next_guid noDashes s). split; [apply _newGuid_eq|].
  pose proof (replace_xy_fills (random (host s)) guid_template
                (draws (host s))) as Hf.
  assert (Hg : Forall2 fills
                 (if noDashes then lit "xxxxxxxxxxxx4xxxyxxxxxxxxxxxxxxx"
                  else lit "xxxxxxxx-xxxx-4xxx-yxxx-xxxxxxxxxxxx")
                 (next_guid noDashes s)).
  { unfold next_guid. destruct noDashes; [|done].
    by apply Forall2_fills_remove_dashes in Hf. }
  split; [done|]. apply Forall2_length in Hg. rewrite <- Hg.
  by destruct noDashes.
Qed.

(** ** Reading the getter twice *)

Lemma obj_set_set k v v' o : obj_set k v (obj_set k v' o) = obj_set k v o.
Proof.
  induction o as [|[k0 v0] o IH]; unfold obj_set; fold obj_set.
  - destruct (decide (k = lit "__proto__")) as [->|Hk];
      unfold obj_set; [by rewrite decide_True|].
    rewrite decide_True by done. done.
  - destruct (decide (k0 = k)) as [->|Hne]; unfold obj_set; fold obj_set.
    + by rewrite decide_True.
    + rewrite decide_False by done. by rewrite IH.
Qed.

Lemma obj_set_same k v o :
  obj_get k o = Some v → obj_set k v o = o.
Proof.
  induction o as [|[k0 v0] o IH]; unfold obj_get, obj_set;
    fold obj_get; fold obj_set; [done|].
  destruct (decide (k0 = k)) as [->|Hne]; [by intros [= ->]|].
  intros H. by rewrite IH.
Qed.

(** Writing the pair again after another key was written changes
    nothing. *)
Lemma obj_set_again k k' v v' o :
  k ≠ k' →
  obj_set k v (obj_set k' v' (obj_set k v o)) = obj_set k' v' (obj_set k v o).
Proof.
  intros Hne. destruct (settable_dec k o) as [Hs|Hs].
  - apply obj_set_same. rewrite obj_get_set_ne by done.
    by apply obj_get_set_eq.
  - rewrite (obj_set_inherited k v o) by done.
    apply obj_set_inherited. by rewrite settable_set.
Qed.

Lemma encodable_params_reread s :
  encodable (query_object s) → encodable (params_object (reread s)).
Proof.
  intros Henc. destruct (params (config (this s))) as [l|] eqn:Hl.
  - by rewrite (params_object_reread s l Hl).
  - unfold params_object. cbn. rewrite Hl. by intros k v.
Qed.

(** If the first reading of the getter rendered, so does the second. *)
Lemma encodable_reread s :
  encodable (query_object s) → encodable (query_object (reread s)).
Proof.
  intros Henc. pose proof (encodable_params_reread s Henc) as Hp.
  assert (Htok : ∀ t, is_Some (encodeURIComponent (next_guid true t))).
  { intros t. rewrite token_encodes by apply next_guid_hex. by eexists. }
  unfold query_object at 1. rewrite config_reread.
  destruct (callback_param (callbackKey (config (this s)))) as [k|] eqn:Hk.
  - destruct (cache (config (this s))) eqn:Hc.
    + apply encodable_set_written; [done|]. intros Hs. eapply Henc.
      apply query_object_callback; [done | by left|].
      by apply settable_reread.
    + destruct (decide (k = lit "_")) as [->|Hne].
      * rewrite obj_set_set. by apply encodable_set.
      * apply encodable_set; [|done].
        apply encodable_set_written; [done|]. intros Hs.
        eapply Henc. apply query_object_callback; [done | by right|].
        by apply settable_reread.
  - destruct (cache (config (this s))); [done|]. by apply encodable_set.
Qed.

Lemma url_completion_Normal_iff s :
  (∃ u, url_completion s = Normal u) ↔ encodable (query_object s).
Proof.
  rewrite query_parts_is_Some.
  unfold url_completion, with_query, query_completion.
  destruct (query_parts (query_object s)) as [arr|].
  - split; [by eexists|]. intros _. destruct (join _ _); by eexists.
  - split; [by intros [? ?] | by intros [? ?]].
Qed.

(** The two ways in which [generateRequest] ends once the guards are
    passed: the request is issued and its script injected, or the first
    reading of the getter throws and the request is left without options
    and script. *)
Lemma generateRequest_cases s :
  config_error s = None →
  let r := next_request (host s) in
  (∃ u1 u2 o n,
     generateRequest s =
       (Normal r,
        inject r (callbackValue (config (this s)))
          (touch o n
             (issue r
                (request_value (Some (snapshot (config (this s)) u1))
                   (Some {| Script.src := u2;
                            Script.async := negb (sync (config (this s))) |}))
                s))))
  ∨ (∃ o n,
       ¬ encodable (query_object s)
       ∧ generateRequest s =
           (Throw URIError, touch o n (issue r (request_value None None) s))).
Proof.
  intros Hc r. rewrite (generateRequest_eq s Hc). cbn zeta.
  destruct (url_completion s) as [u1|e] eqn:H1.
  - assert (Henc : encodable (query_object s))
      by (apply url_completion_Normal_iff; by eexists).
    apply encodable_reread, url_completion_Normal_iff in Henc as [u2 H2].
    rewrite H2. left. by eexists u1, u2, _, _.
  - right. eexists _, _. split.
    + intros [u Hu]%url_completion_Normal_iff. congruence.
    + by rewrite (url_completion_throw s e H1).
Qed.

(** ** More invariants of reachable states *)

Lemma ascending_snoc l r :
  ascending l → (∀ x, x ∈ l → x < r) → ascending (l ++ [r]).
Proof.
  intros Hl Hr i j x y Hij Hi Hj.
  pose proof (lookup_lt_Some _ _ _ Hj) as Hjlt.
  rewrite length_app in Hjlt. cbn in Hjlt.
  destruct (decide (j < length l)) as [Hlt|Hge].
  - rewrite lookup_app_l in Hi, Hj by lia. exact (Hl i j x y Hij Hi Hj).
  - rewrite lookup_app_l in Hi by lia. rewrite lookup_app_r in Hj by lia.
    apply list_lookup_singleton_Some in Hj as [_ <-].
    apply Hr. by eapply list_elem_of_lookup_2.
Qed.

Lemma ascending_delete l k : ascending l → ascending (delete k l).
Proof.
  intros Hl i j x y Hij Hi Hj. rewrite list_lookup_delete in Hi, Hj.
  destruct (decide (i < k)), (decide (j < k));
    (eapply Hl; [|done|done]); lia.
Qed.

Lemma ascending_NoDup l : ascending l → NoDup l.
Proof.
  intros Hl. apply NoDup_alt. intros i j x Hi Hj.
  destruct (decide (i = j)) as [|Hne]; [done|].
  destruct (decide (i < j)).
  - pose proof (Hl i j x x ltac:(lia) Hi Hj). lia.
  - pose proof (Hl j i x x ltac:(lia) Hj Hi). lia.
Qed.

Lemma elem_of_delete_iff (l : list nat) k r x :
  NoDup l → l !! k = Some r → x ∈ delete k l ↔ x ∈ l ∧ x ≠ r.
Proof.
  intros Hnd Hk. split.
  - intros Hx. split; [by eapply list_elem_of_delete_inv|].
    intros ->. revert Hx. by apply not_elem_of_delete.
  - intros [Hx Hne]. by eapply elem_of_delete_ne.
Qed.

Lemma tidy_frame s s' :
  same_frame s s' →
  lastResponse (this s') = None ∨ lastError (this s') = None →
  tidy s → tidy s'.
Proof.
  intros (Ha & Hl & Hr & Hn & Hh) Hres [H1 H2 H3 H4 H5 H6 H7].
  constructor; unfold request_loading, has_script;
    rewrite ?Ha, ?Hl, ?Hr, ?Hn, ?Hh; done.
Qed.

Ltac frame := repeat split; reflexivity.

Lemma has_script_issue s q o n x :
  has_script (host (touch o n (issue (next_request (host s)) q s))) x
  = if decide (x = next_request (host s))
    then bool_decide (is_Some (Request.script q))
    else has_script (host s) x.
Proof.
  unfold has_script. cbn. destruct (decide (x = _)) as [->|Hne].
  - rewrite lookup_insert_eq. by destruct q as [? ? [sc|]].
  - by rewrite lookup_insert_ne.
Qed.

Lemma tidy_generated s q o n (b : bool) :
  wf s → tidy s →
  Request.loading q = true →
  (is_Some (Request.script q) ↔ b = true) →
  tidy ((if b
         then inject (next_request (host s)) (callbackValue (config (this s)))
         else id)
          (touch o n (issue (next_request (host s)) q s))).
Proof.
  intros Hwf [H1 H2 H3 H4 H5 H6 H7] Hq Hb.
  set (r := next_request (host s)) in *.
  set (T := touch o n (issue r q s)).
  assert (Hlt : ∀ x, x ∈ activeRequests (this s) → x < r)
    by apply (wf_active s Hwf).
  assert (Hscript : ∀ x, has_script (host T) x
                         = if decide (x = r) then b else has_script (host s) x).
  { intros x. unfold T, r. rewrite has_script_issue.
    destruct (decide (x = _)); [|done]. destruct b.
    - apply bool_decide_eq_true. by apply Hb.
    - apply bool_decide_eq_false. intros Hs%Hb. done. }
  assert (Hmem : ∀ x, x ∈ activeRequests (this T) ↔
                      x ∈ activeRequests (this s) ∨ x = r).
  { intros x. unfold T. cbn. by rewrite elem_of_app, list_elem_of_singleton. }
  assert (Hhead : r ∉ head (host s)).
  { intros [Hin _]%H4. apply Hlt in Hin. lia. }
  assert (HT : ascending (activeRequests (this T))
               ∧ (∀ x, x ∈ activeRequests (this T) →
                       request_loading (host T) x = true)
               ∧ (∀ x, is_Some (requests (host T) !! x) →
                       x < next_request (host T))).
  { split; [|split].
    - unfold T. cbn. by apply ascending_snoc.
    - intros x [Hx | ->]%Hmem; unfold request_loading, T; cbn.
      + rewrite lookup_insert_ne by (apply Hlt in Hx; lia). by apply H2.
      + by rewrite lookup_insert_eq.
    - unfold T. cbn.
      intros x [<- | [_ Hx]]%lookup_insert_is_Some; [lia|].
      apply H3 in Hx. fold r in Hx. lia. }
  destruct HT as (HT1 & HT2 & HT3).
  assert (Hlast : lastRequest (this T)
                  = match next_request (host T) with
                    | 0 => None | S m => Some m end) by done.
  destruct b.
  - constructor; try done.
    + intros x.
      change (head (host (inject r (callbackValue (config (this s))) T)))
        with (head (host s) ++ [r]).
      change (activeRequests
                (this (inject r (callbackValue (config (this s))) T)))
        with (activeRequests (this T)).
      change (has_script
                (host (inject r (callbackValue (config (this s))) T)) x)
        with (has_script (host T) x).
      rewrite Hscript, Hmem, elem_of_app, list_elem_of_singleton, H4.
      destruct (decide (x = r)) as [->|Hne]; tauto.
    + change (NoDup (head (host s) ++ [r])).
      apply NoDup_app. split; [done|]. split; [|apply NoDup_singleton].
      by intros x Hx ->%list_elem_of_singleton.
  - constructor; try done.
    intros x. change (head (host (id T))) with (head (host s)).
    change (activeRequests (this (id T))) with (activeRequests (this T)).
    change (has_script (host (id T)) x) with (has_script (host T) x).
    rewrite Hscript, Hmem, H4. destruct (decide (x = r)) as [->|Hne].
    + split; [|by intros [_ ?]]. intros [Hin _]. apply Hlt in Hin. lia.
    + tauto.
Qed.

Lemma tidy_generate s : wf s → tidy s → tidy (generateRequest s).2.
Proof.
  intros Hwf Ht. destruct (config_error s) as [e|] eqn:Hc.
  { by rewrite (generateRequest_error s e). }
  destruct (generateRequest_cases s Hc)
    as [(u1 & u2 & o & n & ->) | (o & n & _ & ->)]; cbn [snd].
  - apply (tidy_generated s _ o n true);
      first [done | split; [done | by eexists]].
  - apply (tidy_generated s _ o n false);
      first [done | split; [by intros [? ?] | done]].
Qed.

Lemma has_script_cleaned s r k x :
  has_script (host (cleaned r k s)) x = has_script (host s) x.
Proof.
  unfold has_script. cbn. destruct (decide (x = r)) as [->|Hne].
  - rewrite lookup_alter_eq. by destruct (requests (host s) !! r) as [[]|].
  - by rewrite lookup_alter_ne.
Qed.

Lemma tidy_cleanup s request : wf s → tidy s → tidy (_cleanupRequest request s).2.
Proof.
  intros Hwf Ht. destruct request as [r|];
    [|by rewrite _cleanupRequest_absent].
  destruct (decide (r ∈ activeRequests (this s))) as [Hin|Hout];
    [|rewrite _cleanupRequest_absent; [done | by intros ? [= <-]]].
  destruct (first_occurrence _ _ Hin) as (k & Hk & Hfirst).
  rewrite (_cleanupRequest_present s r k Hk Hfirst).
  pose proof (wf_nodup s Hwf) as Hnd.
  destruct Ht as [H1 H2 H3 H4 H5 H6 H7].
  assert (Hdel : ∀ x, x ∈ delete k (activeRequests (this s)) ↔
                      x ∈ activeRequests (this s) ∧ x ≠ r)
    by (intros x; by apply elem_of_delete_iff).
  assert (Hload : ∀ x, x ∈ delete k (activeRequests (this s)) →
                       request_loading (host (cleaned r k s)) x = true).
  { intros x [Hx Hne]%Hdel. rewrite request_loading_cleaned.
    rewrite decide_False by done. by apply H2. }
  assert (Halloc : ∀ x, is_Some (requests (host (cleaned r k s)) !! x) →
                        x < next_request (host s)).
  { intros x Hx. apply H3. cbn in Hx. rewrite lookup_alter in Hx.
    destruct (decide (r = x)) as [<-|]; [|done]. by apply fmap_is_Some in Hx. }
  destruct (has_script (host s) r && bool_decide (r ∈ head (host s))) eqn:Hb;
    cbn [snd].
  - constructor;
      [by apply ascending_delete | exact Hload | exact Halloc | |
       by apply NoDup_filter | exact H6 | exact H7].
    intros x.
    change (x ∈ filter (fun y => y ≠ r) (head (host s)) ↔
            x ∈ delete k (activeRequests (this s))
            ∧ has_script (host (cleaned r k s)) x = true).
    rewrite has_script_cleaned, list_elem_of_filter, Hdel, H4. tauto.
  - assert (Hnot : r ∉ head (host s)).
    { intros Hh. pose proof (proj1 (H4 r) Hh) as [_ Hs].
      rewrite Hs, bool_decide_eq_true_2 in Hb by done. done. }
    constructor;
      [by apply ascending_delete | exact Hload | exact Halloc | |
       exact H5 | exact H6 | exact H7].
    intros x.
    change (x ∈ head (host s) ↔
            x ∈ delete k (activeRequests (this s))
            ∧ has_script (host (cleaned r k s)) x = true).
    rewrite has_script_cleaned, Hdel, H4. split; [|tauto].
    intros [Hx Hs]. split; [|done]. split; [done|].
    intros ->. apply Hnot. apply H4. by split.
Qed.

Lemma tidy_abort s request : wf s → tidy s → tidy (abortRequest request s).2.
Proof.
  intros Hwf Ht. rewrite abortRequest_eq. cbn zeta.
  assert (Hm : ∀ b, wf (marked b s) ∧ tidy (marked b s)).
  { intros b. split.
    - eapply wf_same_core; [|done]. destruct b; core.
    - eapply tidy_frame; [| |done]; destruct b; first [frame | apply Ht]. }
  by apply tidy_cleanup; apply Hm.
Qed.

Lemma tidy_discard s r : wf s → tidy s → tidy (_discardRequest r s).2.
Proof.
  intros Hwf Ht. rewrite _discardRequest_eq.
  pose proof (tidy_cleanup s (Some r) Hwf Ht) as Hc.
  destruct (_cleanupRequest (Some r) s) as [[[]|e] s']; cbn in *; [|done].
  eapply tidy_frame; [| |done]; first [frame | apply Hc].
Qed.

Lemma tidy_response s r data :
  wf s → tidy s → tidy (_handleResponse r data s).2.
Proof.
  intros Hwf Ht. rewrite _handleResponse_eq. apply tidy_discard.
  - eapply wf_same_core; [|done]. core.
  - eapply tidy_frame; [| |done]; [frame | by right].
Qed.

Lemma tidy_error s r event :
  wf s → tidy s → tidy (_handleError r event s).2.
Proof.
  intros Hwf Ht. rewrite _handleError_eq. apply tidy_discard.
  - eapply wf_same_core; [|done]. core.
  - eapply tidy_frame; [| |done]; [frame | by left].
Qed.

Lemma tidy_step s a : wf s → tidy s → tidy (step s a).
Proof.
  intros Hwf Ht. unfold step.
  destruct a as [p| |request|name data|r e|r e|ms|h].
  - unfold perform, bind. rewrite assign_eq, _requestOptionsChanged_eq.
    eapply tidy_frame; [| |done];
      unfold assigned; destruct p as [| | | | |[o|] | |];
      first [frame | apply Ht].
  - unfold perform, bind. pose proof (tidy_generate s Hwf Ht).
    by destruct (generateRequest s) as [[?|?] ?].
  - by apply tidy_abort.
  - rewrite perform_Callback_eq. destruct (window (host s) !! name); [|done].
    by apply tidy_response.
  - unfold perform, bind, gets. cbn. destruct (has_script _ _); [|done].
    eapply tidy_frame; [| |done]; first [frame | apply Ht].
  - unfold perform, bind, gets. cbn. destruct (has_script _ _); [|done].
    by apply tidy_error.
  - eapply tidy_frame; [| |done]; first [frame | apply Ht].
  - cbn [perform]. rewrite timer_fires_eq.
    destruct (is_due (host s) h) eqn:Hd; [|done].
    rewrite debounce_callback_eq. cbn [snd]. set (s1 := on_this _ _).
    assert (Hwf1 : wf s1).
    { destruct Hwf as [H1 H2 H3 H4 H5]. constructor; try done.
      unfold timers_inv in *. cbn. unfold is_due in Hd.
      destruct (_debounceJob (this s)) as [[timer|]|];
        [|by rewrite H4 in Hd..].
      destruct H4 as [due Hdue]. rewrite Hdue in *. cbn in Hd.
      rewrite orb_false_r in Hd. apply andb_prop in Hd as [Hh _].
      apply bool_decide_eq_true in Hh. cbn in Hh. subst.
      cbn. by rewrite decide_False by (cbn; tauto). }
    assert (Ht1 : tidy s1)
      by (eapply tidy_frame; [| |done]; first [frame | apply Ht]).
    destruct (auto _); [by apply tidy_generate | done].
Qed.

Lemma tidy_created rnd : tidy (created rnd).
Proof.
  rewrite created_eq.
  eapply (tidy_frame (blank rnd)); [frame | by left |].
  constructor; cbn.
  - intros i j x y _ Hi. by rewrite lookup_nil in Hi.
  - by intros r ?%elem_of_nil.
  - intros r [q Hq]. by rewrite lookup_empty in Hq.
  - intros r. split; [by intros ?%elem_of_nil | by intros [?%elem_of_nil _]].
  - apply NoDup_nil_2.
  - done.
  - by left.
Qed.

Lemma reachable_tidy s : reachable s → tidy s.
Proof.
  induction 1 as [rnd|s a Hs IH].
  - apply tidy_created.
  - apply tidy_step; [by apply reachable_wf | done].
Qed.

(** X2.  In every state the element can reach the active requests are
    pairwise distinct, they were all created by [generateRequest], and they
    are listed in the order in which they were issued. *)
Theorem active_requests_in_issue_order (s : State) :
  reachable s →
  NoDup (activeRequests (this s))
  ∧ (∀ r, r ∈ activeRequests (this s) → r < next_request (host s))
  ∧ ascending (activeRequests (this s)).
Proof.
  intros Hs. pose proof (reachable_wf s Hs) as Hwf.
  pose proof (reachable_tidy s Hs) as Ht.
  split; [apply Hwf|]. split; [apply Hwf | apply Ht].
Qed.

Lemma active_requests_in_issue_order_witness :
  NoDup (activeRequests
           (this (run (created sample_random)
                    [Change (P_url sample_url); Generate; Generate;
                     Abort (Some 0); Generate]))).
Proof.
  apply active_requests_in_issue_order, reachable_run, reachable_created.
Defined.

(** X4.  In every state the element can reach the script elements in the
    document head are exactly those of the active requests that have a
    script, each once: no script outlives its request. *)
Theorem document_holds_scripts_of_active_requests (s : State) :
  reachable s →
  NoDup (head (host s))
  ∧ ∀ r, r ∈ head (host s) ↔
         r ∈ activeRequests (this s) ∧ has_script (host s) r = true.
Proof.
  intros Hs. pose proof (reachable_tidy s Hs) as Ht.
  split; apply Ht.
Qed.

Lemma document_holds_scripts_of_active_requests_witness :
  NoDup (head (host (run (created sample_random)
                       [Change (P_url sample_url); Generate; Generate;
                        Failure 0 (script_error 0)]))).
Proof.
  apply document_holds_scripts_of_active_requests, reachable_run,
    reachable_created.
Defined.

(** X6.  In every state the element can reach [lastResponse] and
    [lastError] are not both set: a response clears the error and an error
    clears the response. *)
Theorem lastResponse_lastError_exclusive (s : State) :
  reachable s →
  lastResponse (this s) = None ∨ lastError (this s) = None.
Proof. intros Hs. apply (tidy_result s), reachable_tidy, Hs. Qed.

Lemma lastResponse_lastError_exclusive_witness :
  let s := run (created sample_random)
             [Change (P_url sample_url); Generate;
              Failure 0 (script_error 0); Generate] in
  lastResponse (this s) = None ∨ lastError (this s) = None.
Proof.
  intros s.
  apply lastResponse_lastError_exclusive, reachable_run, reachable_created.
Defined.

(** ** What a request leaves behind *)

(** X7.  When [generateRequest] returns a request, that request is a new
    object, pushed at the end of the active requests, with [loading] true,
    the options snapshot of the current configuration and a script whose
    [async] is the negation of [sync]; the element has [loading] true,
    [lastAborted] false and [lastRequest] that request; the global callback
    of the current callback value is bound to it, its script is the last
    child of the head, and one [sent] event, with [null] detail, has been
    dispatched.  The configuration, the timers and the other request objects
    are untouched. *)
Theorem generateRequest_effects (s s' : State) (r : nat) :
  generateRequest s = (Normal r, s') →
  let c := config (this s) in
  r = next_request (host s)
  ∧ activeRequests (this s') = activeRequests (this s) ++ [r]
  ∧ loading (this s') = true
  ∧ lastAborted (this s') = false
  ∧ lastRequest (this s') = Some r
  ∧ config (this s') = c
  ∧ window (host s') = <[callbackValue c := r]> (window (host s))
  ∧ head (host s') = head (host s) ++ [r]
  ∧ dispatched (host s')
    = dispatched (host s) ++ [ {| ce_type := "sent"; ce_detail := DNull |} ]
  ∧ timers (host s') = timers (host s)
  ∧ (∀ x, x ≠ r → requests (host s') !! x = requests (host s) !! x)
  ∧ ∃ q o sc,
      requests (host s') !! r = Some q
      ∧ Request.loading q = true
      ∧ Request.options q = Some o
      ∧ Options.cache o = cache c
      ∧ Options.callbackKey o = callbackKey c
      ∧ Options.callbackValue o = callbackValue c
      ∧ Options.sync o = sync c
      ∧ Request.script q = Some sc
      ∧ Script.async sc = negb (sync c).
Proof.
  intros H c.
  apply generateRequest_Normal_inv in H as (u1 & u2 & o & n & Hr & ->).
  rewrite <- Hr. repeat (split; [done|]). split.
  - intros x Hx. cbn. by rewrite lookup_insert_ne.
  - eexists _, _, _. cbn. rewrite lookup_insert_eq. by repeat split.
Qed.

Lemma generateRequest_effects_witness :
  let s := run (created sample_random) [Change (P_url sample_url)] in
  let s' := (generateRequest s).2 in
  activeRequests (this s') = activeRequests (this s) ++ [0]
  ∧ head (host s') = head (host s) ++ [0].
Proof.
  intros s s'.
  assert (H : generateRequest s = (Normal 0, s'))
    by (vm_compute; reflexivity).
  pose proof (generateRequest_effects s s' 0 H)
    as (_ & Ha & _ & _ & _ & _ & _ & Hh & _).
  by split.
Defined.

Lemma not_encodable_query_object s k v :
  obj_get k (params_object s) = Some v →
  encodeURIComponent v = None →
  callback_param (callbackKey (config (this s))) ≠ Some k →
  cache (config (this s)) = true ∨ k ≠ lit "_" →
  ¬ encodable (query_object s).
Proof.
  intros Hv He Hk Hc Henc.
  destruct (Henc k v) as [e He']; [|congruence].
  by rewrite query_object_other.
Qed.

(** X8.  A parameter value that [encodeURIComponent] rejects (a lone
    surrogate) makes [generateRequest] throw [URIError] after the guards,
    when the request has already been pushed: the request stays in the
    active requests with [loading] true but without options and script, the
    element has [loading] true and [lastRequest] that request, and nothing
    was added to the document, the global callbacks or the events. *)
Theorem generateRequest_URIError_leaves_request
  (s : State) (k v : jsstring) :
  config_error s = None →
  obj_get k (params_object s) = Some v →
  encodeURIComponent v = None →
  callback_param (callbackKey (config (this s))) ≠ Some k →
  cache (config (this s)) = true ∨ k ≠ lit "_" →
  ∃ s',
    generateRequest s = (Throw URIError, s')
    ∧ activeRequests (this s')
      = activeRequests (this s) ++ [next_request (host s)]
    ∧ loading (this s') = true
    ∧ lastRequest (this s') = Some (next_request (host s))
    ∧ requests (host s') !! next_request (host s)
      = Some {| Request.loading := true; Request.options := None;
                Request.script := None |}
    ∧ head (host s') = head (host s)
    ∧ window (host s') = window (host s)
    ∧ dispatched (host s') = dispatched (host s).
Proof.
  intros Hc Hv He Hk Hca.
  pose proof (not_encodable_query_object s k v Hv He Hk Hca) as Hn.
  destruct (generateRequest_cases s Hc)
    as [(u1 & u2 & o & n & H) | (o & n & _ & H)].
  - exfalso. apply Hn. apply url_completion_Normal_iff.
    rewrite (generateRequest_eq s Hc) in H. cbn zeta in H.
    destruct (url_completion s) as [u|e]; [by eexists|discriminate H].
  - eexists. split; [exact H|]. cbn. rewrite lookup_insert_eq.
    by repeat split.
Qed.

Lemma generateRequest_URIError_leaves_request_witness :
  ∃ s', generateRequest (sample_state sample_unencodable)
        = (Throw URIError, s')
        ∧ activeRequests (this s') = [0] ∧ head (host s') = [].
Proof.
  destruct (generateRequest_URIError_leaves_request
              (sample_state sample_unencodable) (lit "q") [55296%N])
    as (s' & H & Ha & _ & _ & _ & Hh & _);
    [reflexivity | reflexivity | reflexivity | discriminate
    | right; discriminate |].
  exists s'. by repeat split.
Defined.

(** ** The end of a request *)

Lemma cleanup_active s r :
  NoDup (activeRequests (this s)) →
  r ∈ activeRequests (this s) →
  (has_script (host s) r = true → r ∈ head (host s)) →
  ∃ k,
    activeRequests (this s) !! k = Some r
    ∧ (∀ x, x ∈ delete k (activeRequests (this s)) ↔
            x ∈ activeRequests (this s) ∧ x ≠ r)
    ∧ _cleanupRequest (Some r) s
      = if has_script (host s) r
        then (Normal tt, detached r (cleaned r k s))
        else (Throw TypeError, cleaned r k s).
Proof.
  intros Hnd Hin Hh.
  destruct (first_occurrence _ _ Hin) as (k & Hk & Hfirst).
  exists k. split; [done|]. split; [intros x; by apply elem_of_delete_iff|].
  rewrite (_cleanupRequest_present s r k Hk Hfirst).
  destruct (has_script (host s) r); [|done].
  by rewrite (bool_decide_eq_true_2 _ (Hh eq_refl)).
Qed.

Lemma request_loading_stopped (h : Host) (r : nat) :
  request_loading
    (set_requests (alter (Request.set_loading false) r (requests h)) h) r
  = false.
Proof.
  unfold request_loading. cbn. rewrite lookup_alter_eq.
  by destruct (requests h !! r).
Qed.

Lemma cleanup_of_active (s : State) (r : nat) :
  NoDup (activeRequests (this s)) →
  r ∈ activeRequests (this s) →
  (has_script (host s) r = true ↔ r ∈ head (host s)) →
  let s' := (_cleanupRequest (Some r) s).2 in
  (_cleanupRequest (Some r) s).1
  = (if has_script (host s) r then Normal tt else Throw TypeError)
  ∧ (∀ x, x ∈ activeRequests (this s') ↔ x ∈ activeRequests (this s) ∧ x ≠ r)
  ∧ request_loading (host s') r = false
  ∧ (r ∉ head (host s'))
  ∧ window (host s') !! callbackValue (config (this s)) = None
  ∧ (∀ name, name ≠ callbackValue (config (this s)) →
             window (host s') !! name = window (host s) !! name)
  ∧ dispatched (host s') = dispatched (host s)
  ∧ lastResponse (this s') = lastResponse (this s)
  ∧ lastError (this s') = lastError (this s).
Proof.
  intros Hnd Hin Hh s'. unfold s'. clear s'.
  destruct (cleanup_active s r Hnd Hin (proj1 Hh)) as (k & Hk & Hdel & ->).
  destruct (has_script (host s) r) eqn:Hsc; cbn [fst snd].
  - split; [done|]. split; [exact Hdel|].
    split; [apply request_loading_stopped|].
    split; [|split; [|split; [|done]]].
    + cbn. intros [? _]%list_elem_of_filter. done.
    + cbn. by rewrite lookup_delete_eq.
    + intros name Hne. cbn. by rewrite lookup_delete_ne.
  - split; [done|]. split; [exact Hdel|].
    split; [apply request_loading_stopped|].
    split; [|split; [|split; [|done]]].
    + cbn. intros Hr. by apply Hh in Hr.
    + cbn. by rewrite lookup_delete_eq.
    + intros name Hne. cbn. by rewrite lookup_delete_ne.
Qed.

(** X9.  Aborting an active request of a reachable state returns normally
    when the request has a script and throws [TypeError] when it has none
    (a request left behind by a failed [generateRequest]).  Either way the
    request, and only it, leaves the active requests, it stops loading, its
    script is not in the document, the global callback of the current
    callback value is deleted while the callbacks of other names are kept,
    and no event is dispatched; the last response and the last error are
    kept. *)
Theorem abort_of_active_request (s : State) (r : nat) :
  reachable s →
  r ∈ activeRequests (this s) →
  let s' := (abortRequest (Some r) s).2 in
  (abortRequest (Some r) s).1
  = (if has_script (host s) r then Normal tt else Throw TypeError)
  ∧ (∀ x, x ∈ activeRequests (this s') ↔ x ∈ activeRequests (this s) ∧ x ≠ r)
  ∧ request_loading (host s') r = false
  ∧ (r ∉ head (host s'))
  ∧ window (host s') !! callbackValue (config (this s)) = None
  ∧ (∀ name, name ≠ callbackValue (config (this s)) →
             window (host s') !! name = window (host s) !! name)
  ∧ dispatched (host s') = dispatched (host s)
  ∧ lastResponse (this s') = lastResponse (this s)
  ∧ lastError (this s') = lastError (this s).
Proof.
  intros Hs Hin s'.
  pose proof (reachable_wf s Hs) as Hwf.
  pose proof (reachable_tidy s Hs) as Ht.
  assert (Hh : has_script (host s) r = true ↔ r ∈ head (host s)).
  { rewrite (tidy_head s Ht). tauto. }
  unfold s'. clear s'. rewrite abortRequest_eq. cbn zeta. cbn [abort_target].
  destruct (abort_marks _ _); cbn [marked].
  - exact (cleanup_of_active (on_this (set_lastAborted true) s) r
             (wf_nodup s Hwf) Hin Hh).
  - exact (cleanup_of_active s r (wf_nodup s Hwf) Hin Hh).
Qed.

Lemma abort_of_active_request_witness :
  let s := run (created sample_random) [Change (P_url sample_url); Generate] in
  (abortRequest (Some 0) s).1 = Normal tt
  ∧ activeRequests (this (abortRequest (Some 0) s).2) = [].
Proof.
  intros s.
  assert (Hs : reachable s) by apply reachable_run, reachable_created.
  assert (Hin : 0 ∈ activeRequests (this s)) by (vm_compute; by left).
  pose proof (abort_of_active_request s 0 Hs Hin) as (H & _).
  split; [|vm_compute; reflexivity].
  rewrite H. vm_compute. reflexivity.
Defined.

(** X10.  When the script of an active request of a reachable state reports
    an error, the handler returns normally, [lastError] is the event,
    [lastResponse] is cleared, the request alone leaves the active requests,
    its script leaves the document, the global callback of the current
    callback value is deleted, [loading] agrees with the requests that
    remain, and exactly two events are dispatched, [error] and [complete],
    both with a [null] detail. *)
Theorem error_of_active_request (s : State) (r : nat) (event : DomEvent) :
  reachable s →
  r ∈ activeRequests (this s) →
  has_script (host s) r = true →
  let s' := step s (Failure r event) in
  perform (Failure r event) s = (Normal tt, s')
  ∧ lastError (this s') = Some event
  ∧ lastResponse (this s') = None
  ∧ (∀ x, x ∈ activeRequests (this s') ↔ x ∈ activeRequests (this s) ∧ x ≠ r)
  ∧ (r ∉ head (host s'))
  ∧ window (host s') !! callbackValue (config (this s)) = None
  ∧ loading_inv s'
  ∧ dispatched (host s')
    = dispatched (host s)
      ++ [ {| ce_type := "error"; ce_detail := DNull |};
           {| ce_type := "complete"; ce_detail := DNull |} ].
Proof.
  intros Hs Hin Hsc s'.
  pose proof (reachable_wf s Hs) as Hwf.
  pose proof (reachable_tidy s Hs) as Ht.
  assert (Hl : loading_inv s') by (apply loading_inv_step, Hwf).
  unfold s', step in *. clear s'.
  unfold perform, bind, gets in *. cbn [fst snd] in *. rewrite Hsc in *.
  rewrite _handleError_eq, _discardRequest_eq in *.
  set (s1 := emit _ _) in *.
  destruct (cleanup_active s1 r) as (k & Hk & Hdel & Hc);
    [apply Hwf | done | intros _; apply (tidy_head s Ht); by split |].
  rewrite Hc in *.
  change (has_script (host s1) r) with (has_script (host s) r) in *.
  rewrite Hsc in *. cbn [snd] in *.
  split; [done|]. split; [done|]. split; [done|]. split; [exact Hdel|].
  split; [|split; [|split; [done|]]].
  - cbn. intros [? _]%list_elem_of_filter. done.
  - cbn. by rewrite lookup_delete_eq.
  - cbn. by rewrite <- app_assoc.
Qed.

Lemma error_of_active_request_witness :
  let s := run (created sample_random) [Change (P_url sample_url); Generate] in
  let s' := step s (Failure 0 (script_error 0)) in
  lastError (this s') = Some (script_error 0)
  ∧ dispatched (host s')
    = dispatched (host s)
      ++ [ {| ce_type := "error"; ce_detail := DNull |};
           {| ce_type := "complete"; ce_detail := DNull |} ].
Proof.
  intros s s'.
  assert (Hs : reachable s) by apply reachable_run, reachable_created.
  assert (Hin : 0 ∈ activeRequests (this s)) by (vm_compute; by left).
  assert (Hsc : has_script (host s) 0 = true) by (vm_compute; reflexivity).
  pose proof (error_of_active_request s 0 (script_error 0) Hs Hin Hsc)
    as (_ & H1 & _ & _ & _ & _ & _ & H2).
  by split.
Defined.

(** X11.  Cleanup deletes the global callback named by the callback value
    of the moment, not the one the request was issued under.  When the
    callback value has changed since, aborting the request leaves its
    callback bound; a response that arrives later through it is still
    handled: [lastResponse] is set and [response] and [complete] are
    dispatched for a request that is no longer active. *)
Theorem stale_callback_survives_abort
  (s : State) (name : jsstring) (r : nat) (data : JSON) :
  reachable s →
  window (host s) !! name = Some r →
  r ∈ activeRequests (this s) →
  name ≠ callbackValue (config (this s)) →
  let s1 := (abortRequest (Some r) s).2 in
  let s2 := step s1 (Callback name data) in
  (r ∉ activeRequests (this s1))
  ∧ window (host s1) !! name = Some r
  ∧ lastResponse (this s2) = Some data
  ∧ dispatched (host s2)
    = dispatched (host s)
      ++ [ {| ce_type := "response"; ce_detail := DNull |};
           {| ce_type := "complete"; ce_detail := DNull |} ].
Proof.
  intros Hs Hw Hin Hne s1 s2.
  pose proof (reachable_wf s Hs) as Hwf.
  pose proof (reachable_tidy s Hs) as Ht.
  assert (Hh : has_script (host s) r = true ↔ r ∈ head (host s)).
  { rewrite (tidy_head s Ht). tauto. }
  assert (H1 : (r ∉ activeRequests (this s1))
               ∧ window (host s1) !! name = Some r
               ∧ dispatched (host s1) = dispatched (host s)).
  { unfold s1. rewrite abortRequest_eq. cbn zeta. cbn [abort_target].
    destruct (abort_marks _ _); cbn [marked].
    - destruct (cleanup_of_active (on_this (set_lastAborted true) s) r
                  (wf_nodup s Hwf) Hin Hh)
        as (_ & Ha & _ & _ & _ & Hk & Hd & _).
      split; [intros [_ ?]%Ha; done|]. split; [|done].
      rewrite (Hk name Hne). exact Hw.
    - destruct (cleanup_of_active s r (wf_nodup s Hwf) Hin Hh)
        as (_ & Ha & _ & _ & _ & Hk & Hd & _).
      split; [intros [_ ?]%Ha; done|]. split; [|done].
      rewrite (Hk name Hne). exact Hw. }
  destruct H1 as (Ha & Hw1 & Hd). split; [done|]. split; [done|].
  unfold s2, step. rewrite perform_Callback_eq, Hw1.
  rewrite _handleResponse_eq, _discardRequest_eq.
  rewrite _cleanupRequest_absent by (by intros ? [= <-]).
  cbn. rewrite Hd. split; [done|]. by rewrite <- app_assoc.
Qed.

Lemma stale_callback_survives_abort_witness :
  let s := run (created sample_random)
             [Change (P_url sample_url); Generate;
              Change (P_callbackValue (lit "other"))] in
  let name := callbackValue (config (this (created sample_random))) in
  let s1 := (abortRequest (Some 0) s).2 in
  window (host s1) !! name = Some 0
  ∧ lastResponse (this (step s1 (Callback name (JNumber 7))))
    = Some (JNumber 7).
Proof.
  intros s name s1.
  assert (Hs : reachable s) by apply reachable_run, reachable_created.
  assert (Hw : window (host s) !! name = Some 0) by (vm_compute; reflexivity).
  assert (Hin : 0 ∈ activeRequests (this s)) by (vm_compute; by left).
  assert (Hne : name ≠ callbackValue (config (this s)))
    by (vm_compute; discriminate).
  pose proof (stale_callback_survives_abort s name 0 (JNumber 7)
                Hs Hw Hin Hne) as (_ & H1 & H2 & _).
  by split.
Defined.

(** ** The automatic request *)

(** X12.  A timer that fires never throws.  When it is the debouncer's
    timer and [auto] is set, it calls [generateRequest] and swallows what
    that throws: with a configuration that [generateRequest] rejects, the
    call itself would throw and change nothing, and the timer leaves no
    trace but its own end -- no request, no event, no error recorded. *)
Theorem automatic_request_errors_are_swallowed
  (s : State) (handle : nat) (e : Error) :
  (perform (Timer handle) s).1 = Normal tt
  ∧ (is_due (host s) handle = true →
     auto (config (this s)) = true →
     config_error s = Some e →
     generateRequest s = (Throw e, s)
     ∧ step s (Timer handle)
       = on_this (set_debounceJob (Some None))
           (on_host (fun h =>
                       set_timers
                         (filter (fun t => t.1 ≠ handle) (timers h)) h) s)).
Proof.
  split.
  - unfold perform. rewrite timer_fires_eq.
    destruct (is_due (host s) handle); [|done].
    by rewrite debounce_callback_eq.
  - intros Hd Ha He. split; [by apply generateRequest_error|].
    unfold step, perform. rewrite timer_fires_eq, Hd, debounce_callback_eq.
    cbn [snd]. set (s1 := on_this _ _).
    change (auto (config (this s1))) with (auto (config (this s))).
    rewrite Ha. by rewrite (generateRequest_error s1 e He).
Qed.

Lemma automatic_request_errors_are_swallowed_witness :
  let s := run (created sample_random) [Change (P_auto true)] in
  generateRequest s = (Throw Error_url, s)
  ∧ activeRequests (this (step s (Timer 1))) = []
  ∧ dispatched (host (step s (Timer 1))) = [].
Proof.
  intros s.
  destruct (automatic_request_errors_are_swallowed s 1 Error_url)
    as [_ H].
  destruct H as [H1 H2]; [reflexivity | reflexivity | reflexivity |].
  split; [exact H1|]. rewrite H2. by split.
Defined.

(** ** Requests with [cache] set *)

Lemma query_object_cached s t :
  cache (config (this s)) = true →
  config (this t) = config (this s) →
  params_object t = query_object s ∨ params_object t = params_object s →
  query_object t = query_object s.
Proof.
  intros Hc Hcfg Hp. unfold query_object in *. rewrite Hcfg, Hc in *.
  destruct (callback_param _) as [k|]; destruct Hp as [-> | ->]; try done.
  apply obj_set_set.
Qed.

Lemma url_completion_ext s t :
  config (this t) = config (this s) →
  query_object t = query_object s →
  url_completion t = url_completion s.
Proof.
  intros Hcfg Hq. unfold url_completion, query_completion.
  by rewrite Hcfg, Hq.
Qed.

Lemma generateRequest_cached s r s' :
  cache (config (this s)) = true →
  generateRequest s = (Normal r, s') →
  ∃ u,
    url_completion s = Normal u
    ∧ options_url s' r = Some u
    ∧ script_src s' r = Some u
    ∧ config (this s') = config (this s)
    ∧ url_completion s' = Normal u
    ∧ r = next_request (host s)
    ∧ next_request (host s') = S r
    ∧ (∀ x, x ≠ r → requests (host s') !! x = requests (host s) !! x).
Proof.
  intros Hc H.
  assert (Hok : config_error s = None).
  { destruct (config_error s) as [e|] eqn:He; [|done].
    rewrite (generateRequest_error s e He) in H. discriminate H. }
  assert (H1 : query_object (reread s) = query_object s)
    by (apply query_object_cached; [done | done | apply params_after_getter]).
  assert (H2 : params_object (reread (reread s)) = query_object s
               ∨ params_object (reread (reread s)) = params_object s).
  { destruct (params_after_getter (reread s)) as [->| ->];
      [by left | apply params_after_getter]. }
  assert (Hu : url_completion (reread s) = url_completion s)
    by (by apply url_completion_ext).
  rewrite (generateRequest_eq s Hok) in H. cbn zeta in H. rewrite Hu in H.
  destruct (url_completion s) as [u|e] eqn:Hus; [|discriminate H].
  injection H as <- <-. exists u. split; [done|].
  unfold options_url, script_src. cbn. rewrite lookup_insert_eq. cbn.
  split; [done|]. split; [done|]. split; [done|].
  split; [|split; [done|split; [done|]]].
  - rewrite <- Hus. apply url_completion_ext; [done|].
    apply query_object_cached; [done | done | exact H2].
  - intros x Hx. by rewrite lookup_insert_ne.
Qed.

(** X13.  With [cache] set, a request records in its options the very URL
    its script loads, and a second request issued right after the first
    gets the same URL: the callback pair that the getter leaves in the
    configured parameters does not change what it renders next. *)
Theorem cached_requests_repeat_the_url
  (s s1 s2 : State) (r1 r2 : nat) :
  cache (config (this s)) = true →
  generateRequest s = (Normal r1, s1) →
  generateRequest s1 = (Normal r2, s2) →
  r2 = S r1
  ∧ ∃ u,
      options_url s2 r1 = Some u ∧ script_src s2 r1 = Some u
      ∧ options_url s2 r2 = Some u ∧ script_src s2 r2 = Some u.
Proof.
  intros Hc H1 H2.
  destruct (generateRequest_cached s r1 s1 Hc H1)
    as (u & _ & Ho1 & Hs1 & Hcfg & Hu1 & _ & Hn1 & _).
  assert (Hc1 : cache (config (this s1)) = true) by (by rewrite Hcfg).
  destruct (generateRequest_cached s1 r2 s2 Hc1 H2)
    as (u' & Hu' & Ho2 & Hs2 & _ & _ & Hr2 & _ & Hx).
  assert (u' = u) as -> by congruence.
  assert (Hne : r1 ≠ r2) by lia.
  split; [lia|]. exists u. unfold options_url, script_src in *.
  rewrite (Hx r1 Hne). by repeat split.
Qed.

Lemma cached_requests_repeat_the_url_witness :
  let s := run (created sample_random)
             [Change (P_url sample_url); Change (P_cache true);
              Change (P_callbackValue (lit "handle"))] in
  let s1 := (generateRequest s).2 in
  let s2 := (generateRequest s1).2 in
  ∃ u,
    options_url s2 0 = Some u ∧ script_src s2 0 = Some u
    ∧ options_url s2 1 = Some u ∧ script_src s2 1 = Some u.
Proof.
  intros s s1 s2.
  assert (Hc : cache (config (this s)) = true) by (vm_compute; reflexivity).
  assert (H1 : generateRequest s = (Normal 0, s1))
    by (vm_compute; reflexivity).
  assert (H2 : generateRequest s1 = (Normal 1, s2))
    by (vm_compute; reflexivity).
  exact (proj2 (cached_requests_repeat_the_url s s1 s2 0 1 Hc H1 H2)).
Defined.

(** ** Request objects over time *)

Lemma later_stage_refl q : later_stage q q.
Proof. by repeat split. Qed.

Lemma keeps_same s s' : requests (host s') = requests (host s) → keeps s s'.
Proof.
  intros H r q Hq. exists q. rewrite H. split; [done | apply later_stage_refl].
Qed.

Lemma keeps_trans s1 s2 s3 : keeps s1 s2 → keeps s2 s3 → keeps s1 s3.
Proof.
  intros H12 H23 r q Hq.
  destruct (H12 r q Hq) as (q2 & Hq2 & E1 & E2 & E3).
  destruct (H23 r q2 Hq2) as (q3 & Hq3 & F1 & F2 & F3).
  exists q3. split; [done|]. repeat split; [congruence.. | tauto].
Qed.

Lemma keeps_stopped s s' x :
  requests (host s')
  = alter (Request.set_loading false) x (requests (host s)) →
  keeps s s'.
Proof.
  intros H r q Hq. rewrite H, lookup_alter.
  destruct (decide (x = r)) as [<-|].
  - rewrite Hq. cbn. eexists. split; [done|]. by destruct q.
  - exists q. split; [done | apply later_stage_refl].
Qed.

Lemma keeps_cleanup s request : keeps s (_cleanupRequest request s).2.
Proof.
  destruct request as [r|];
    [|rewrite _cleanupRequest_absent; [by apply keeps_same | done]].
  destruct (decide (r ∈ activeRequests (this s))) as [Hin|Hout];
    [|rewrite _cleanupRequest_absent; [by apply keeps_same
                                      | by intros ? [= <-]]].
  destruct (first_occurrence _ _ Hin) as (k & Hk & Hfirst).
  rewrite (_cleanupRequest_present s r k Hk Hfirst).
  destruct (has_script _ _ && _); apply (keeps_stopped _ _ r); reflexivity.
Qed.

Lemma keeps_discard s r : keeps s (_discardRequest r s).2.
Proof.
  rewrite _discardRequest_eq. pose proof (keeps_cleanup s (Some r)) as H.
  destruct (_cleanupRequest (Some r) s) as [[[]|e] s']; [|done].
  eapply keeps_trans; [exact H|]. by apply keeps_same.
Qed.

Lemma keeps_generate s : allocated s → keeps s (generateRequest s).2.
Proof.
  intros Ha. destruct (config_error s) as [e|] eqn:He.
  - rewrite (generateRequest_error s e He). by apply keeps_same.
  - destruct (generateRequest_shape s He) as (q0 & o & n & b & -> & _).
    intros r q Hq. exists q. split; [|apply later_stage_refl].
    assert (r < next_request (host s)) by (apply Ha; by eexists).
    destruct b; cbn; by rewrite lookup_insert_ne by lia.
Qed.

Lemma keeps_step s a : allocated s → keeps s (step s a).
Proof.
  intros Ha. unfold step.
  destruct a as [p| |request|name data|r e|r e|ms|h].
  - unfold perform, bind. rewrite assign_eq, _requestOptionsChanged_eq.
    apply keeps_same. by destruct p as [| | | | |[?|] | |].
  - unfold perform, bind. pose proof (keeps_generate s Ha) as H.
    by destruct (generateRequest s) as [[?|?] ?].
  - unfold perform. rewrite abortRequest_eq. cbn zeta.
    eapply keeps_trans; [|apply keeps_cleanup].
    apply keeps_same. by destruct (abort_marks _ _).
  - rewrite perform_Callback_eq.
    destruct (window (host s) !! name) as [r|]; [|by apply keeps_same].
    rewrite _handleResponse_eq.
    eapply keeps_trans; [|apply keeps_discard]. by apply keeps_same.
  - unfold perform, bind, gets. cbn [fst snd].
    destruct (has_script (host s) r); by apply keeps_same.
  - unfold perform, bind, gets. cbn [fst snd].
    destruct (has_script (host s) r); [|by apply keeps_same].
    rewrite _handleError_eq.
    eapply keeps_trans; [|apply keeps_discard]. by apply keeps_same.
  - by apply keeps_same.
  - unfold perform. rewrite timer_fires_eq.
    destruct (is_due (host s) h); [|by apply keeps_same].
    rewrite debounce_callback_eq. cbn [snd]. set (s1 := on_this _ _).
    change (auto (config (this s1))) with (auto (config (this s))).
    destruct (auto _); [|by apply keeps_same].
    eapply keeps_trans; [|apply keeps_generate; exact Ha].
    by apply keeps_same.
Qed.

Lemma keeps_run s l : reachable s → keeps s (run s l).
Proof.
  revert s. induction l as [|a l IH]; intros s Hs; [by apply keeps_same|].
  cbn. eapply keeps_trans.
  - apply keeps_step. intros r. apply (tidy_alloc s (reachable_tidy s Hs)).
  - apply IH. by apply reachable_step.
Qed.

(** X14.  A request object of a reachable state stays in the store whatever
    happens to the element afterwards: its options and its script never
    change, and once it has stopped loading it never loads again. *)
Theorem request_fixed_after_issue
  (s : State) (l : list Action) (r : nat) (q : Request.t) :
  reachable s →
  requests (host s) !! r = Some q →
  ∃ q',
    requests (host (run s l)) !! r = Some q'
    ∧ Request.options q' = Request.options q
    ∧ Request.script q' = Request.script q
    ∧ (Request.loading q' = true → Request.loading q = true).
Proof. intros Hs Hq. exact (keeps_run s l Hs r q Hq). Qed.

Lemma request_fixed_after_issue_witness :
  let s := run (created sample_random) [Change (P_url sample_url); Generate] in
  let l := [Change (P_url (lit "https://other.example.com")); Generate;
            Abort (Some 0)] in
  ∃ q q',
    requests (host s) !! 0 = Some q
    ∧ requests (host (run s l)) !! 0 = Some q'
    ∧ Request.options q' = Request.options q
    ∧ Request.script q' = Request.script q.
Proof.
  intros s l.
  assert (Hs : reachable s) by apply reachable_run, reachable_created.
  destruct (requests (host s) !! 0) as [q|] eqn:Hq;
    [|vm_compute in Hq; discriminate Hq].
  destruct (request_fixed_after_issue s l 0 q Hs Hq)
    as (q' & H1 & H2 & H3 & _).
  exists q, q'. split; [reflexivity|]. split; [exact H1|].
  split; [exact H2 | exact H3].
Defined.

(** ** What one action can do *)

Lemma active_cleanup_other s request x :
  x ∈ activeRequests (this s) →
  request ≠ Some x →
  x ∈ activeRequests (this (_cleanupRequest request s).2).
Proof.
  intros Hx Hne. destruct request as [r|];
    [|by rewrite _cleanupRequest_absent].
  destruct (decide (r ∈ activeRequests (this s))) as [Hin|Hout];
    [|rewrite _cleanupRequest_absent; [done | by intros ? [= <-]]].
  destruct (first_occurrence _ _ Hin) as (k & Hk & Hfirst).
  rewrite (_cleanupRequest_present s r k Hk Hfirst).
  assert (x ∈ delete k (activeRequests (this s)))
    by (eapply elem_of_delete_ne; [done | done | congruence]).
  by destruct (has_script _ _ && _).
Qed.

Lemma active_discard_other s r x :
  x ∈ activeRequests (this s) →
  r ≠ x →
  x ∈ activeRequests (this (_discardRequest r s).2).
Proof.
  intros Hx Hne. rewrite _discardRequest_eq.
  assert (H : x ∈ activeRequests (this (_cleanupRequest (Some r) s).2))
    by (apply active_cleanup_other; [done | congruence]).
  by destruct (_cleanupRequest (Some r) s) as [[[]|e] s'].
Qed.

Lemma active_generate s x :
  x ∈ activeRequests (this s) →
  x ∈ activeRequests (this (generateRequest s).2).
Proof.
  intros Hx. destruct (config_error s) as [e|] eqn:He.
  - by rewrite (generateRequest_error s e He).
  - destruct (generateRequest_shape s He) as (q0 & o & n & b & -> & _).
    destruct b; cbn; apply elem_of_app; by left.
Qed.

(** X15.  A request leaves the active requests only when it is ended: by
    [abortRequest] aimed at it, by a response through a global callback
    bound to it, or by an error of its script.  A property change, another
    [generateRequest], a [load] event, the passing of time or a timer never
    remove it. *)
Theorem request_stays_until_ended (s : State) (a : Action) (x : nat) :
  x ∈ activeRequests (this s) →
  x ∉ activeRequests (this (step s a)) →
  match a with
  | Abort request =>
      abort_target (activeRequests (this s)) request = Some x
  | Callback name _ => window (host s) !! name = Some x
  | Failure r _ => r = x ∧ has_script (host s) x = true
  | _ => False
  end.
Proof.
  intros Hx Hout. unfold step in Hout.
  destruct a as [p| |request|name data|r e|r e|ms|h].
  - apply Hout. unfold perform, bind.
    rewrite assign_eq, _requestOptionsChanged_eq. cbn.
    by destruct p as [| | | | |[?|] | |].
  - apply Hout. unfold perform, bind. pose proof (active_generate s x Hx).
    by destruct (generateRequest s) as [[?|?] ?].
  - destruct (decide (abort_target (activeRequests (this s)) request
                      = Some x)) as [|Hne]; [done|].
    exfalso. apply Hout. unfold perform. rewrite abortRequest_eq. cbn zeta.
    apply active_cleanup_other; [by rewrite activeRequests_marked | done].
  - rewrite perform_Callback_eq in Hout.
    destruct (window (host s) !! name) as [r|]; [|done].
    destruct (decide (r = x)) as [->|Hne]; [done|].
    exfalso. apply Hout. rewrite _handleResponse_eq.
    by apply active_discard_other.
  - apply Hout. unfold perform, bind, gets. cbn [fst snd].
    by destruct (has_script (host s) r).
  - unfold perform, bind, gets in Hout. cbn [fst snd] in Hout.
    destruct (has_script (host s) r) eqn:Hsc; [|done].
    destruct (decide (r = x)) as [->|Hne]; [done|].
    exfalso. apply Hout. rewrite _handleError_eq.
    by apply active_discard_other.
  - by apply Hout.
  - apply Hout. unfold perform. rewrite timer_fires_eq.
    destruct (is_due (host s) h); [|done].
    rewrite debounce_callback_eq. cbn [snd]. set (s1 := on_this _ _).
    change (auto (config (this s1))) with (auto (config (this s))).
    destruct (auto _); [|done]. by apply active_generate.
Qed.

Lemma request_stays_until_ended_witness :
  let s := run (created sample_random) [Change (P_url sample_url); Generate] in
  window (host s) !! callbackValue (config (this s)) = Some 0.
Proof.
  intros s.
  apply (request_stays_until_ended s
           (Callback (callbackValue (config (this s))) (JNumber 7)) 0).
  - vm_compute. by left.
  - vm_compute. intros H. inversion H.
Defined.

Lemma cleanup_returns s r :
  (r ∈ activeRequests (this s) →
   r ∈ head (host s) ∧ has_script (host s) r = true) →
  (_cleanupRequest (Some r) s).1 = Normal tt
  ∧ dispatched (host (_cleanupRequest (Some r) s).2) = dispatched (host s).
Proof.
  intros H.
  destruct (decide (r ∈ activeRequests (this s))) as [Hin|Hout];
    [|rewrite _cleanupRequest_absent; [done | by intros ? [= <-]]].
  destruct (first_occurrence _ _ Hin) as (k & Hk & Hfirst).
  rewrite (_cleanupRequest_present s r k Hk Hfirst).
  destruct (H Hin) as [Hh ->]. by rewrite (bool_decide_eq_true_2 _ Hh).
Qed.

Lemma dispatched_cleanup s request :
  dispatched (host (_cleanupRequest request s).2) = dispatched (host s).
Proof.
  destruct request as [r|]; [|by rewrite _cleanupRequest_absent].
  destruct (decide (r ∈ activeRequests (this s))) as [Hin|Hout];
    [|rewrite _cleanupRequest_absent; [done | by intros ? [= <-]]].
  destruct (first_occurrence _ _ Hin) as (k & Hk & Hfirst).
  rewrite (_cleanupRequest_present s r k Hk Hfirst).
  by destruct (has_script _ _ && _).
Qed.

Lemma discard_returns s r :
  (r ∈ activeRequests (this s) →
   r ∈ head (host s) ∧ has_script (host s) r = true) →
  (_discardRequest r s).1 = Normal tt
  ∧ dispatched (host (_discardRequest r s).2)
    = dispatched (host s) ++ [ {| ce_type := "complete"; ce_detail := DNull |} ].
Proof.
  intros H. rewrite _discardRequest_eq.
  destruct (cleanup_returns s r H) as [H1 H2].
  destruct (_cleanupRequest (Some r) s) as [[[]|e] s']; [|done].
  cbn in *. by rewrite H2.
Qed.

Lemma dispatched_generate s :
  dispatched (host (generateRequest s).2)
  = dispatched (host s)
    ++ match (generateRequest s).1 with
       | Normal _ => [ {| ce_type := "sent"; ce_detail := DNull |} ]
       | Throw _ => []
       end.
Proof.
  destruct (config_error s) as [e|] eqn:He.
  - rewrite (generateRequest_error s e He). cbn. by rewrite app_nil_r.
  - destruct (generateRequest_shape s He) as (q0 & o & n & b & -> & _ & H).
    destruct b.
    + destruct H as [-> _]. done.
    + destruct H as [e ->]. cbn. by rewrite app_nil_r.
Qed.

(** X16.  In a reachable state only [generateRequest] and [abortRequest]
    can throw: the handlers of a response, an error and a load, a property
    change and a timer always return.  Each action adds to the events
    dispatched so far exactly this: [sent] when [generateRequest] returns
    (by a call or by the timer), [response] then [complete] for a response
    through a bound callback, [error] then [complete] for a script error,
    [load] for a script load, and nothing otherwise -- in particular
    nothing for an abort, and [complete] never without [response] or
    [error] before it.  Every event has a [null] detail. *)
Theorem events_of_an_action (s : State) (a : Action) :
  reachable s →
  (∀ e, (perform a s).1 = Throw e →
        a = Generate ∨ ∃ request, a = Abort request)
  ∧ ∃ l,
      dispatched (host (step s a)) = dispatched (host s) ++ l
      ∧ match a with
        | Generate =>
            l = match (generateRequest s).1 with
                | Normal _ => [new_CustomEvent "sent" None]
                | Throw _ => []
                end
        | Timer _ => l = [] ∨ l = [new_CustomEvent "sent" None]
        | Callback name _ =>
            l = match window (host s) !! name with
                | Some _ => [new_CustomEvent "response" None;
                             new_CustomEvent "complete" None]
                | None => []
                end
        | Failure r _ =>
            l = if has_script (host s) r
                then [new_CustomEvent "error" None;
                      new_CustomEvent "complete" None]
                else []
        | Load r _ =>
            l = if has_script (host s) r
                then [new_CustomEvent "load" None] else []
        | Change _ | Abort _ | Tick _ => l = []
        end.
Proof.
  intros Hs.
  pose proof (reachable_wf s Hs) as Hwf.
  pose proof (reachable_tidy s Hs) as Ht.
  unfold step. destruct a as [p| |request|name data|r e|r e|ms|h].
  - unfold perform, bind. rewrite assign_eq, _requestOptionsChanged_eq.
    split; [done|]. exists []. rewrite app_nil_r. split; [|done].
    by destruct p as [| | | | |[?|] | |].
  - split; [by left|]. eexists. split; [|done].
    unfold perform, bind. pose proof (dispatched_generate s) as H.
    by destruct (generateRequest s) as [[?|?] ?].
  - split; [right; by eexists|]. exists []. rewrite app_nil_r.
    split; [|done]. unfold perform. rewrite abortRequest_eq. cbn zeta.
    rewrite dispatched_cleanup. by destruct (abort_marks _ _).
  - rewrite perform_Callback_eq.
    destruct (window (host s) !! name) as [r|] eqn:Hw.
    + rewrite _handleResponse_eq. set (s1 := emit _ _).
      destruct (discard_returns s1 r) as [H1 H2].
      { intros Hin. by apply (wf_window s Hwf name r Hw). }
      rewrite H1, H2. split; [done|]. eexists. split; [|done].
      cbn. by rewrite <- app_assoc.
    + split; [done|]. exists []. by rewrite app_nil_r.
  - unfold perform, bind, gets. cbn [fst snd].
    destruct (has_script (host s) r).
    + split; [done|]. by eexists.
    + split; [done|]. exists []. by rewrite app_nil_r.
  - unfold perform, bind, gets. cbn [fst snd].
    destruct (has_script (host s) r) eqn:Hsc.
    + rewrite _handleError_eq. set (s1 := emit _ _).
      destruct (discard_returns s1 r) as [H1 H2].
      { intros Hin. split; [|done]. apply (tidy_head s Ht). by split. }
      rewrite H1, H2. split; [done|]. eexists. split; [|done].
      cbn. by rewrite <- app_assoc.
    + split; [done|]. exists []. by rewrite app_nil_r.
  - split; [done|]. exists []. by rewrite app_nil_r.
  - unfold perform. rewrite timer_fires_eq.
    destruct (is_due (host s) h);
      [|split; [done|]; exists []; rewrite app_nil_r; by split; [|left]].
    rewrite debounce_callback_eq. split; [done|]. cbn [snd].
    set (s1 := on_this _ _).
    change (auto (config (this s1))) with (auto (config (this s))).
    destruct (auto _);
      [|exists []; rewrite app_nil_r; by split; [|left]].
    rewrite dispatched_generate. eexists. split; [done|].
    destruct (generateRequest s1).1; [by right | by left].
Qed.

Lemma events_of_an_action_witness :
  let s := run (created sample_random) [Change (P_url sample_url); Generate] in
  ∃ l,
    dispatched (host (step s (Failure 0 (script_error 0))))
    = dispatched (host s) ++ l
    ∧ l = [ {| ce_type := "error"; ce_detail := DNull |};
            {| ce_type := "complete"; ce_detail := DNull |} ].
Proof.
  intros s.
  assert (Hs : reachable s) by apply reachable_run, reachable_created.
  destruct (events_of_an_action s (Failure 0 (script_error 0)) Hs)
    as (_ & l & H1 & H2).
  exists l. split; [exact H1|]. rewrite H2. vm_compute. reflexivity.
Defined.

(** ** Requests without [cache] *)

Lemma map_fst_obj_set k v v' o :
  map fst (obj_set k v o) = map fst (obj_set k v' o).
Proof.
  induction o as [|[k0 v0] o IH]; unfold obj_set; fold obj_set;
    [by destruct (decide (k = lit "__proto__"))|].
  destruct (decide (k0 = k)); [done|]. cbn. by rewrite IH.
Qed.

Lemma elem_of_keys_set k v o :
  settable k o → k ∈ map fst (obj_set k v o).
Proof.
  intros Hs. apply obj_get_keys. rewrite obj_get_set_eq by done.
  by eexists.
Qed.

Lemma obj_keys_set_value k v v' o :
  obj_keys (obj_set k v o) = obj_keys (obj_set k v' o).
Proof. unfold obj_keys. by rewrite (map_fst_obj_set k v v'). Qed.

Lemma token_key_listed g o : lit "_" ∈ obj_keys (obj_set (lit "_") g o).
Proof.
  unfold obj_keys. apply elem_of_app. right. apply list_elem_of_filter.
  split; [by vm_compute | apply elem_of_keys_set, token_key_settable].
Qed.

Lemma mapM_Some_map {A B} (f : A → option B) (d : B) l k :
  mapM f l = Some k → k = map (fun x => default d (f x)) l.
Proof.
  intros H%mapM_Some. induction H as [|x y l k Hx _ IH]; [done|].
  cbn. rewrite Hx. cbn. by f_equal.
Qed.

Lemma query_part_token g o :
  is_token g →
  query_part (obj_set (lit "_") g o) (lit "_")
  = Some (lit "_" ++ lit "=" ++ g).
Proof.
  intros Hg. unfold query_part.
  rewrite obj_get_set_eq by apply token_key_settable. cbn.
  by rewrite (token_encodes g Hg).
Qed.

Lemma query_part_not_token g o key :
  key ≠ lit "_" →
  query_part (obj_set (lit "_") g o) key = query_part o key.
Proof.
  intros Hne. unfold query_part. by rewrite obj_get_set_ne by done.
Qed.

Lemma join_tokens (h1 h2 : jsstring → jsstring) (pre sep g1 g2 : jsstring)
  (k0 : jsstring) (keys : list jsstring) :
  k0 ∈ keys →
  (∀ key, key ≠ k0 → h1 key = h2 key) →
  h1 k0 = pre ++ g1 →
  h2 k0 = pre ++ g2 →
  length g1 = length g2 →
  join sep (map h1 keys) = join sep (map h2 keys) →
  g1 = g2.
Proof.
  intros Hin Hsame H1 H2 Hlen.
  induction keys as [|key rest IH]; [by apply elem_of_nil in Hin|].
  destruct rest as [|key2 rest].
  - apply list_elem_of_singleton in Hin as <-. unfold join. cbn.
    rewrite H1, H2. by intros ?%app_inv_head.
  - change (join sep (map h1 (key :: key2 :: rest)))
      with (h1 key ++ sep ++ join sep (map h1 (key2 :: rest))).
    change (join sep (map h2 (key :: key2 :: rest)))
      with (h2 key ++ sep ++ join sep (map h2 (key2 :: rest))).
    destruct (decide (key = k0)) as [->|Hne].
    + rewrite H1, H2, <- !app_assoc. intros E%app_inv_head.
      by apply app_inj_1 in E as [? _].
    + rewrite (Hsame key Hne). intros E%app_inv_head%app_inv_head.
      apply IH; [|done]. apply elem_of_cons in Hin as [?|?]; congruence.
Qed.

Lemma query_parts_tokens o g1 g2 arr1 arr2 :
  is_token g1 → is_token g2 →
  query_parts (obj_set (lit "_") g1 o) = Some arr1 →
  query_parts (obj_set (lit "_") g2 o) = Some arr2 →
  join (lit "&") arr1 = join (lit "&") arr2 →
  g1 = g2.
Proof.
  intros Hg1 Hg2 Ha1 Ha2. unfold query_parts in Ha1, Ha2.
  rewrite (obj_keys_set_value _ g2 g1) in Ha2.
  apply (mapM_Some_map _ []) in Ha1, Ha2. subst arr1 arr2.
  apply (join_tokens _ _ (lit "_" ++ lit "=") _ _ _ (lit "_")).
  - apply token_key_listed.
  - intros key Hne. by rewrite !query_part_not_token.
  - rewrite query_part_token by done. cbn. by rewrite <- !app_assoc.
  - rewrite query_part_token by done. cbn. by rewrite <- !app_assoc.
  - destruct Hg1 as [_ ->], Hg2 as [_ ->]. done.
Qed.

Lemma with_query_inj u a b x :
  with_query u (Normal a) = Normal x →
  with_query u (Normal b) = Normal x →
  a = b.
Proof.
  intros H1 H2.
  assert (H : with_query u (Normal a) = with_query u (Normal b))
    by congruence.
  clear H1 H2. destruct a as [|c a], b as [|d b]; cbn in H; [done|..];
    injection H as H.
  - apply (f_equal length) in H. rewrite !length_app in H. cbn in H. lia.
  - apply (f_equal length) in H. rewrite !length_app in H. cbn in H. lia.
  - apply app_inv_head in H. congruence.
Qed.

(** Without [cache], both readings of the getter render the same object up
    to the token. *)
Lemma query_object_uncached s :
  cache (config (this s)) = false →
  ∃ o,
    query_object s = obj_set (lit "_") (next_guid true s) o
    ∧ query_object (reread s)
      = obj_set (lit "_") (next_guid true (reread s)) o.
Proof.
  intros Hc.
  exists (match callback_param (callbackKey (config (this s))) with
          | Some k => obj_set k (callbackValue (config (this s)))
                        (params_object s)
          | None => params_object s
          end).
  assert (H1 : query_object s
               = obj_set (lit "_") (next_guid true s)
                   match callback_param (callbackKey (config (this s))) with
                   | Some k => obj_set k (callbackValue (config (this s)))
                                 (params_object s)
                   | None => params_object s
                   end)
    by (unfold query_object; by rewrite Hc).
  split; [exact H1|].
  unfold query_object at 1. rewrite config_reread, Hc.
  destruct (params_after_getter s) as [-> | ->]; [|done].
  rewrite H1.
  destruct (callback_param _) as [k|]; [|by rewrite obj_set_set].
  destruct (decide (k = lit "_")) as [->|Hne]; [by rewrite !obj_set_set|].
  rewrite obj_set_again by done. by rewrite obj_set_set.
Qed.

(** X17.  Without [cache], [generateRequest] reads the getter twice and so
    draws two tokens, the next two that [_newGuid] yields: the first goes
    into the URL recorded in the request's options, the second into the URL
    that the script loads.  The recorded URL is the loaded one only if the
    two tokens coincide. *)
Theorem uncached_request_records_another_url
  (s s' : State) (r : nat) :
  cache (config (this s)) = false →
  generateRequest s = (Normal r, s') →
  ∃ g1 g2 t1 t2,
    _newGuid true s = (Normal g1, t1)
    ∧ _newGuid true t1 = (Normal g2, t2)
    ∧ draws (host s') = draws (host t2)
    ∧ (options_url s' r = script_src s' r ↔ g1 = g2).
Proof.
  intros Hc H.
  assert (Hok : config_error s = None).
  { destruct (config_error s) as [e|] eqn:He; [|done].
    rewrite (generateRequest_error s e He) in H. discriminate H. }
  exists (next_guid true s), (next_guid true (reread s)).
  eexists _, _. split; [apply _newGuid_eq|].
  split.
  { rewrite _newGuid_eq. f_equal. f_equal. unfold next_guid, reread, touch,
      query_draws. cbn. by rewrite Hc. }
  destruct (query_object_uncached s Hc) as (o & Hq1 & Hq2).
  pose proof (next_guid_hex s) as Hg1.
  pose proof (next_guid_hex (reread s)) as Hg2.
  remember (next_guid true s) as g1 eqn:E1.
  remember (next_guid true (reread s)) as g2 eqn:E2. clear E1 E2.
  rewrite (generateRequest_eq s Hok) in H. cbn zeta in H.
  destruct (url_completion s) as [u1|e] eqn:Hu1; [|discriminate H].
  destruct (url_completion (reread s)) as [u2|e] eqn:Hu2; [|discriminate H].
  injection H as <- <-. split.
  { unfold query_draws, reread, touch, query_draws. cbn. rewrite Hc. lia. }
  unfold options_url, script_src. cbn. rewrite lookup_insert_eq. cbn.
  unfold url_completion, query_completion in Hu1, Hu2.
  rewrite config_reread in Hu2. rewrite Hq1 in Hu1. rewrite Hq2 in Hu2.
  split.
  - intros [= ->].
    destruct (query_parts (obj_set _ g1 o)) as [arr1|] eqn:Ha1;
      [|discriminate Hu1].
    destruct (query_parts (obj_set _ g2 o)) as [arr2|] eqn:Ha2;
      [|discriminate Hu2].
    eapply (query_parts_tokens o _ _ arr1 arr2); [done..|].
    by eapply with_query_inj.
  - intros <-. congruence.
Qed.

Lemma uncached_request_records_another_url_witness :
  let s := run (created sample_random) [Change (P_url sample_url)] in
  let s' := (generateRequest s).2 in
  ∃ g1 g2 t1 t2,
    _newGuid true s = (Normal g1, t1)
    ∧ _newGuid true t1 = (Normal g2, t2)
    ∧ draws (host s') = draws (host t2).
Proof.
  intros s s'.
  assert (Hc : cache (config (this s)) = false) by (vm_compute; reflexivity).
  assert (H : generateRequest s = (Normal 0, s')) by (vm_compute; reflexivity).
  destruct (uncached_request_records_another_url s s' 0 Hc H)
    as (g1 & g2 & t1 & t2 & H1 & H2 & H3 & _).
  exists g1, g2, t1, t2. split; [exact H1|]. split; [exact H2 | exact H3].
Defined.

(** * Several elements in one document *)

(** ** What one action does to the requests *)

Lemma alike_refl s : alike s s.
Proof. by repeat split. Qed.

Lemma alike_trans s1 s2 s3 : alike s1 s2 → alike s2 s3 → alike s1 s3.
Proof.
  intros (A1 & A2 & A3 & A4 & A5) (B1 & B2 & B3 & B4 & B5).
  repeat split; congruence.
Qed.

Lemma others_loading_alike s0 s r :
  alike s0 s →
  others_loading (host s) r (activeRequests (this s))
  = others_loading (host s0) r (activeRequests (this s0)).
Proof.
  intros (A1 & A2 & _). unfold others_loading, request_loading. cbn.
  by rewrite A1, A2.
Qed.

Lemma effect_before s0 s s' : alike s0 s → effect s s' → effect s0 s'.
Proof.
  intros Ha He. pose proof (others_loading_alike s0 s) as Ho.
  destruct Ha as (A1 & A2 & A3 & A4 & A5) eqn:E.
  destruct He as [(B1 & B2 & B3 & B4 & B5)|q H1 H2 H3 H4 H5 H6
                  |r k H1 H2 H3 H4 H5 H6].
  - apply effect_none. repeat split; congruence.
  - apply (effect_issue _ _ q); congruence.
  - apply (effect_end _ _ r k); try congruence.
    rewrite H5, (Ho r) by (repeat split; done). by rewrite A4.
Qed.

Lemma effect_after s s' s'' : effect s s' → alike s' s'' → effect s s''.
Proof.
  intros He (A1 & A2 & A3 & A4 & A5).
  destruct He as [(B1 & B2 & B3 & B4 & B5)|q H1 H2 H3 H4 H5 H6
                  |r k H1 H2 H3 H4 H5 H6].
  - apply effect_none. repeat split; congruence.
  - apply (effect_issue _ _ q); congruence.
  - apply (effect_end _ _ r k); congruence.
Qed.

Lemma effect_cleanup s request : effect s (_cleanupRequest request s).2.
Proof.
  destruct request as [r|];
    [|rewrite _cleanupRequest_absent; [apply effect_none, alike_refl|done]].
  destruct (decide (r ∈ activeRequests (this s))) as [Hin|Hout];
    [|rewrite _cleanupRequest_absent;
      [apply effect_none, alike_refl | by intros ? [= <-]]].
  destruct (first_occurrence _ _ Hin) as (k & Hk & Hfirst).
  rewrite (_cleanupRequest_present s r k Hk Hfirst).
  destruct (has_script _ _ && _); by apply (effect_end _ _ r k).
Qed.

Lemma effect_discard s r : effect s (_discardRequest r s).2.
Proof.
  rewrite _discardRequest_eq. pose proof (effect_cleanup s (Some r)) as H.
  destruct (_cleanupRequest (Some r) s) as [[[]|e] s']; [|done].
  eapply effect_after; [exact H|]. by repeat split.
Qed.

Lemma effect_generate s : effect s (generateRequest s).2.
Proof.
  destruct (config_error s) as [e|] eqn:He.
  - rewrite (generateRequest_error s e He). apply effect_none, alike_refl.
  - destruct (generateRequest_shape s He) as (q & o & n & b & -> & Hq & _).
    apply (effect_issue _ _ q); [done|..]; by destruct b.
Qed.

Lemma effect_step s a : effect s (step s a).
Proof.
  unfold step. destruct a as [p| |request|name data|r e|r e|ms|h].
  - unfold perform, bind. rewrite assign_eq, _requestOptionsChanged_eq.
    apply effect_none. by destruct p as [| | | | |[?|] | |].
  - unfold perform, bind. pose proof (effect_generate s) as H.
    by destruct (generateRequest s) as [[?|?] ?].
  - unfold perform. rewrite abortRequest_eq. cbn zeta.
    eapply effect_before; [|apply effect_cleanup].
    by destruct (abort_marks _ _).
  - rewrite perform_Callback_eq.
    destruct (window (host s) !! name) as [r|];
      [|apply effect_none, alike_refl].
    rewrite _handleResponse_eq.
    eapply effect_before; [|apply effect_discard]. by repeat split.
  - unfold perform, bind, gets. cbn [fst snd].
    destruct (has_script (host s) r); apply effect_none; by repeat split.
  - unfold perform, bind, gets. cbn [fst snd].
    destruct (has_script (host s) r); [|apply effect_none, alike_refl].
    rewrite _handleError_eq.
    eapply effect_before; [|apply effect_discard]. by repeat split.
  - apply effect_none. by repeat split.
  - unfold perform. rewrite timer_fires_eq.
    destruct (is_due (host s) h); [|apply effect_none, alike_refl].
    rewrite debounce_callback_eq. cbn [snd]. set (s1 := on_this _ _).
    change (auto (config (this s1))) with (auto (config (this s))).
    destruct (auto _); [|apply effect_none; by repeat split].
    eapply effect_before; [|apply effect_generate]. by repeat split.
Qed.

(** ** What holds of every document *)

Lemma view_Some d i s :
  view d i = Some s →
  ∃ m, members d !! i = Some m
       ∧ activeRequests (this s) = array d
       ∧ requests (host s) = requests (browser d)
       ∧ next_request (host s) = next_request (browser d)
       ∧ loading (this s) = loading (element m)
       ∧ lastRequest (this s) = lastRequest (element m).
Proof.
  unfold view. destruct (members d !! i) as [m|]; [|done]. cbn.
  intros [= <-]. exists m. by repeat split.
Qed.

Lemma request_loading_requests h h' r :
  requests h' = requests h → request_loading h' r = request_loading h r.
Proof. unfold request_loading. by intros ->. Qed.

Lemma sound_leave d i s s' :
  sound d → view d i = Some s → effect s s' →
  sound (leave i s' (issued_by i s s' (issuer d)) d).
Proof.
  intros [Hnd Hld Hiss Hact Hlast]
    (m & Hm & Va & Vr & Vn & Vl & Vq)%view_Some He.
  assert (Hi : i < length (members d)) by (by eapply lookup_lt_Some).
  set (m' := {| element := this s'; events := dispatched (host s') |}).
  assert (Hbelow : ∀ r, r ∈ array d → r < next_request (browser d)).
  { intros r Hr. destruct (Hact r Hr) as (j & ? & Hj & _).
    by apply (Hiss r j). }
  assert (Hmem : ∀ j mj, <[i := m']> (members d) !! j = Some mj →
                         (j = i ∧ mj = m') ∨ (j ≠ i ∧ members d !! j = Some mj)).
  { intros j mj [(-> & <- & _)|[? ?]]%list_lookup_insert_Some;
      [by left | by right]. }
  destruct He as [(A1 & A2 & A3 & A4 & A5) | q Q0 Q1 Q2 Q3 Q4 Q5
                  | r k K1 K2 K3 K4 K5 K6].
  - assert (Hsame : issued_by i s s' (issuer d) = issuer d)
      by (unfold issued_by; by rewrite decide_True).
    rewrite Hsame. constructor; cbn.
    + by rewrite A1, Va.
    + intros r Hr. rewrite A1, Va in Hr. rewrite <- (Hld r Hr).
      apply request_loading_requests. by rewrite A2.
    + intros r j Hj. destruct (Hiss r j Hj) as [H1 H2].
      split; [by rewrite A3, Vn|]. by apply list_lookup_insert_is_Some.
    + intros r Hr. rewrite A1, Va in Hr.
      destruct (Hact r Hr) as (j & mj & Hj & Hmj & Hl). exists j.
      destruct (decide (j = i)) as [->|Hne].
      * exists m'. split; [done|].
        split; [by apply list_lookup_insert_eq|]. cbn.
        rewrite A4, Vl. by simplify_eq.
      * exists mj. by rewrite list_lookup_insert_ne.
    + intros j mj Hj. destruct (Hmem j mj Hj) as [[-> ->]|[Hne Hmj]].
      * cbn. rewrite A5, Vq. by apply Hlast.
      * by apply Hlast.
  - assert (Hnew : issued_by i s s' (issuer d)
                   = <[next_request (host s) := i]> (issuer d))
      by (unfold issued_by; rewrite decide_False by lia; done).
    rewrite Hnew. rewrite Vn in *. set (r := next_request (browser d)) in *.
    constructor; cbn.
    + rewrite Q1, Va. apply NoDup_app. split; [done|].
      split; [|apply NoDup_singleton].
      intros x Hx ->%list_elem_of_singleton. pose proof (Hbelow _ Hx). lia.
    + intros x Hx. rewrite Q1, Va in Hx. unfold request_loading. rewrite Q2.
      apply elem_of_app in Hx as [Hx | ->%list_elem_of_singleton].
      * pose proof (Hbelow _ Hx). rewrite lookup_insert_ne by lia.
        rewrite Vr. by apply Hld.
      * by rewrite lookup_insert_eq.
    + intros x j [[-> ->] | [Hne Hj]]%lookup_insert_Some.
      * split; [rewrite Q3; lia|].
        apply list_lookup_insert_is_Some. by eexists.
      * destruct (Hiss x j Hj). split; [rewrite Q3; lia|].
        by apply list_lookup_insert_is_Some.
    + intros x Hx. rewrite Q1, Va in Hx.
      apply elem_of_app in Hx as [Hx| ->%list_elem_of_singleton].
      * destruct (Hact x Hx) as (j & mj & Hj & Hmj & Hl).
        pose proof (Hbelow _ Hx). exists j.
        destruct (decide (j = i)) as [->|].
        -- exists m'. rewrite lookup_insert_ne by lia. split; [done|].
           split; [by apply list_lookup_insert_eq | done].
        -- exists mj. rewrite lookup_insert_ne by lia.
           by rewrite list_lookup_insert_ne.
      * exists i, m'. rewrite lookup_insert_eq. split; [done|].
        split; [by apply list_lookup_insert_eq | done].
    + intros j mj Hj. destruct (Hmem j mj Hj) as [[-> ->]|[Hne Hmj]].
      * cbn. rewrite Q5. split; [apply lookup_insert_eq|].
        intros x [[-> _]|[_ Hx]]%lookup_insert_Some; [done|].
        destruct (Hiss x i Hx). lia.
      * specialize (Hlast j mj Hmj).
        destruct (lastRequest (element mj)) as [rj|].
        -- destruct Hlast as [H1 H2]. split.
           { rewrite lookup_insert_ne; [done|]. destruct (Hiss rj j H1). lia. }
           intros x [[-> ?]|[_ Hx]]%lookup_insert_Some;
             [congruence | by apply H2].
        -- intros x [[-> ?]|[_ Hx]]%lookup_insert_Some;
             [congruence | by apply (Hlast x)].
  - assert (Hsame : issued_by i s s' (issuer d) = issuer d)
      by (unfold issued_by; by rewrite decide_True).
    rewrite Hsame. rewrite Va in *.
    assert (Hdel : ∀ x, x ∈ delete k (array d) ↔ x ∈ array d ∧ x ≠ r)
      by (intros x; by apply elem_of_delete_iff).
    constructor; cbn.
    + rewrite K2. eapply sublist_NoDup; [done | apply sublist_delete].
    + intros x Hx. rewrite K2 in Hx. apply Hdel in Hx as [Hx Hne].
      unfold request_loading. rewrite K3, lookup_alter_ne by done.
      rewrite Vr. by apply Hld.
    + intros x j Hj. destruct (Hiss x j Hj) as [H1 H2].
      split; [by rewrite K4, Vn|]. by apply list_lookup_insert_is_Some.
    + intros x Hx. rewrite K2 in Hx. apply Hdel in Hx as [Hx Hne].
      destruct (Hact x Hx) as (j & mj & Hj & Hmj & Hl). exists j.
      destruct (decide (j = i)) as [->|Hji].
      * exists m'. split; [done|].
        split; [by apply list_lookup_insert_eq|]. cbn. rewrite K5.
        assert (others_loading (host s) r (array d) = true) as ->.
        { apply others_loading_spec. exists x. split; [done|].
          split; [done|]. rewrite <- (Hld x Hx).
          by apply request_loading_requests. }
        rewrite Vl. by simplify_eq.
      * exists mj. by rewrite list_lookup_insert_ne.
    + intros j mj Hj. destruct (Hmem j mj Hj) as [[-> ->]|[Hne Hmj]].
      * cbn. rewrite K6, Vq. by apply Hlast.
      * by apply Hlast.
Qed.

Lemma sound_act d i a : sound d → sound (act d i a).
Proof.
  intros Hd. unfold act. destruct (view d i) as [s|] eqn:Hv; [|done].
  destruct (bound d i a); [|done].
  apply sound_leave; [done | done | apply effect_step].
Qed.

Lemma initialise_eq s :
  initialise s =
    (Normal tt,
     restarted
       (assigned
          (P_callbackValue (lit "vo_jsonp_callback_" ++ next_guid true s))
          (on_host (set_draws (draws (host s) + 31)) s))).
Proof.
  unfold initialise, bind. rewrite _newGuid_eq, assign_eq.
  by rewrite _requestOptionsChanged_eq.
Qed.

Lemma sound_create d : sound d → sound (create d).
Proof.
  intros [Hnd Hld Hiss Hact Hlast]. unfold create.
  rewrite initialise_eq. cbn [snd]. constructor; cbn.
  - done.
  - done.
  - intros r i Hi. destruct (Hiss r i Hi) as [H1 [m Hm]].
    split; [done|]. exists m. by apply lookup_app_l_Some.
  - intros r Hr. destruct (Hact r Hr) as (i & m & Hi & Hm & Hl).
    exists i, m. split; [done|]. split; [|done]. by apply lookup_app_l_Some.
  - intros i m [Hm|[Hi Hm]]%lookup_app_Some; [by apply Hlast|].
    apply list_lookup_singleton_Some in Hm as [Hz <-]. cbn.
    intros r Hr. destruct (Hiss r i Hr) as [_ ?%lookup_lt_is_Some]. lia.
Qed.

Lemma sound_empty rnd : sound (empty_document rnd).
Proof.
  constructor; cbn.
  - apply NoDup_nil_2.
  - by intros r ?%elem_of_nil.
  - intros r i Hr. by rewrite lookup_empty in Hr.
  - by intros r ?%elem_of_nil.
  - intros i m Hm. by rewrite lookup_nil in Hm.
Qed.

Lemma reachable_document_sound d : reachable_document d → sound d.
Proof.
  induction 1 as [rnd|d [|i a] Hd IH].
  - apply sound_empty.
  - by apply sound_create.
  - by apply sound_act.
Qed.

Lemma reachable_play d l : reachable_document d → reachable_document (play d l).
Proof.
  revert d. induction l as [|o l IH]; intros d Hd; [done|].
  cbn. apply IH. by constructor.
Qed.

(** C7, where the code departs from it.  Two elements [a] and [b] are in
    one document; [a] has a URL and issues request 0.  The array literal
    of the property declaration is the [activeRequests] of both elements,
    so [b] lists the request of [a], which is loading, while [b.loading]
    is false -- also after [b]'s own [generateRequest], which throws for
    want of a URL.  [b.abortRequest()] then ends the request of [a], and
    after [a.abortRequest] of that request [a.loading] is still true with
    no request active. *)
Theorem loading_flag_wrong_with_two_elements :
  let a := 0 in
  let b := 1 in
  let d1 := play (empty_document sample_random)
              [New_element; New_element; At a (Change (P_url sample_url));
               At a Generate; At b Generate] in
  let d2 := play d1 [At b (Abort None); At a (Abort (Some 0))] in
  ∃ sb sa,
    view d1 b = Some sb
    ∧ view d2 a = Some sa
    ∧ activeRequests (this sb) = [0]
    ∧ request_loading (host sb) 0 = true
    ∧ loading (this sb) = false
    ∧ activeRequests (this sa) = []
    ∧ loading (this sa) = true.
Proof. vm_compute. eexists _, _. repeat split. Qed.

(** X3.  In every document, whichever element one looks through, every
    request in [activeRequests] is loading, and the element that issued it
    is in the document and has [loading] true. *)
Theorem active_request_and_its_issuer_are_loading
  (d : Document) (i : nat) (s : State) (r : nat) :
  reachable_document d →
  view d i = Some s →
  r ∈ activeRequests (this s) →
  request_loading (host s) r = true
  ∧ ∃ j t, issuer d !! r = Some j ∧ view d j = Some t
           ∧ loading (this t) = true.
Proof.
  intros Hd%reachable_document_sound Hv Hr.
  apply view_Some in Hv as (m & Hm & Va & Vr & _). rewrite Va in Hr. split.
  - rewrite <- (sound_loading d Hd r Hr). by apply request_loading_requests.
  - destruct (sound_active d Hd r Hr) as (j & mj & Hj & Hmj & Hl).
    exists j. eexists. split; [done|]. unfold view. rewrite Hmj. cbn.
    split; [done|]. done.
Qed.

Lemma active_request_and_its_issuer_are_loading_witness :
  let d := play (empty_document sample_random)
             [New_element; New_element; At 0 (Change (P_url sample_url));
              At 0 Generate] in
  ∃ s, view d 1 = Some s
       ∧ request_loading (host s) 0 = true
       ∧ ∃ j t, issuer d !! 0 = Some j ∧ view d j = Some t
                ∧ loading (this t) = true.
Proof.
  intros d.
  assert (Hd : reachable_document d) by apply reachable_play, reachable_empty.
  destruct (view d 1) as [s|] eqn:Hv; [|vm_compute in Hv; discriminate Hv].
  exists s. split; [reflexivity|].
  apply (active_request_and_its_issuer_are_loading d 1 s 0 Hd Hv).
  apply view_Some in Hv as (_ & _ & -> & _). vm_compute. by left.
Defined.

(** X5.  In every document the [lastRequest] of an element is the request
    that this element issued last, whatever the other elements have
    issued since, and it is undefined exactly as long as the element has
    issued none. *)
Theorem lastRequest_is_latest_of_its_element
  (d : Document) (i : nat) (s : State) :
  reachable_document d →
  view d i = Some s →
  match lastRequest (this s) with
  | Some r =>
      issuer d !! r = Some i ∧ ∀ r', issuer d !! r' = Some i → r' ≤ r
  | None => ∀ r', issuer d !! r' ≠ Some i
  end.
Proof.
  intros Hd%reachable_document_sound Hv.
  apply view_Some in Hv as (m & Hm & _ & _ & _ & _ & ->).
  by apply (sound_last d Hd).
Qed.

Lemma lastRequest_is_latest_of_its_element_witness :
  let d := play (empty_document sample_random)
             [New_element; New_element; At 0 (Change (P_url sample_url));
              At 1 (Change (P_url sample_url)); At 0 Generate;
              At 1 Generate] in
  ∃ s, view d 0 = Some s ∧ lastRequest (this s) = Some 0
       ∧ issuer d !! 0 = Some 0 ∧ issuer d !! 1 = Some 1.
Proof.
  intros d.
  assert (Hd : reachable_document d) by apply reachable_play, reachable_empty.
  destruct (view d 0) as [s|] eqn:Hv; [|vm_compute in Hv; discriminate Hv].
  exists s. split; [reflexivity|].
  pose proof (lastRequest_is_latest_of_its_element d 0 s Hd Hv) as H.
  assert (Hl : lastRequest (this s) = Some 0).
  { apply view_Some in Hv as (m & Hm & _ & _ & _ & _ & ->).
    vm_compute in Hm. by injection Hm as <-. }
  split; [exact Hl|].
  destruct (lastRequest (this s)) as [r|]; [|discriminate Hl].
  injection Hl as ->. split; [apply H | by vm_compute].
Defined.

(** ** A document with a single element *)







